(** * Candle Keep: the GitHub discovery-and-scoring pipeline

    A shallow embedding of the task queue ([claim_github_tasks]), the
    rate-limited search client ([searchRepositories]), the task seeder
    ([seedTasks]), the discovery driver ([processTask],
    [updateTaskStatus], the discovery [GET] handler) and the scoring driver
    ([computeScore], [compute_repo_trends_14d], the scoring [GET] handler),
    followed by the properties established about them.

    Conventions.
    - SQL [INT]/[BIGINT] and JavaScript integers are [Z]; a nullable column
      or an optional field is an [option].
    - A timestamp is a number of milliseconds since the epoch (the
      resolution of the JavaScript [Date] that writes every [captured_at]);
      the session and server time zone is UTC, so a day is [ms_per_day].
    - A table is the list of its rows in scan order.
    - JavaScript doubles are idealised as real numbers.
    - The store answers every request; the calls whose failure the
      handlers branch on are modelled with it: the claim RPC, which rejects
      a negative LIMIT, the batch RPC, which may be missing or failing and
      which PL/pgSQL refuses to run as migration 003 writes it, and the
      upsert of a repository, which the unique index on [full_name] may
      refuse. *)

From Stdlib Require Import ZArith Ascii String Reals Lra Lia.
From stdpp Require Import base decidable option list gmap strings pretty.

Local Open Scope Z_scope.

(** ** Outcomes of fallible code *)

Inductive result (A : Type) : Type :=
| Ok (a : A)
| Err (message : string).
Arguments Ok {A} a.
Arguments Err {A} message.

(** [name] between double quotes, as the store's error messages write
    identifiers. *)
Definition quoted (name : string) : string :=
  String "034"%char (name +:+ String "034"%char EmptyString).

(** ** JavaScript coercions used by the drivers *)

(** [x || null] on a number-or-null: [0] is falsy. *)
Definition num_or_null (x : option Z) : option Z :=
  match x with
  | Some 0 => None
  | _ => x
  end.

(** [s || null] on a string-or-undefined: the empty string is falsy. *)
Definition str_or_null (s : option string) : option string :=
  match s with
  | Some EmptyString => None
  | _ => s
  end.

(** [!x] on a number-or-null. *)
Definition js_not_num (x : option Z) : bool :=
  match x with
  | None => true
  | Some 0 => true
  | Some _ => false
  end.

(** [!s] on a string-or-undefined. *)
Definition js_not_str (s : option string) : bool :=
  match s with
  | None => true
  | Some EmptyString => true
  | Some _ => false
  end.

(** ** Schema (001_create_github_tables.sql) *)

Definition ms_per_day : Z := 86400000.

(** A calendar date, as a DATE column or a [YYYY-MM-DD] string holds it. *)
Record date := mkDate { year : Z; month : Z; day : Z }.

#[global] Instance date_eq_dec : EqDecision date.
Proof. solve_decision. Defined.

(** [status TEXT CHECK (status IN (...))]. *)
Inductive task_status :=
| ready
| in_progress
| done
| needs_split
| disabled.

#[global] Instance task_status_eq_dec : EqDecision task_status.
Proof. solve_decision. Defined.

(** A row of [github_search_tasks]. *)
Module Task.
Record t := mk {
  id : Z;
  created_from : date;
  created_to : date;
  stars_min : Z;
  stars_max : option Z;
  pushed_after : option date;
  status : task_status;
  page : option Z;
  refresh_every_days : option Z;
  last_started_at : option Z;
  last_completed_at : option Z;
  last_error : option string
}.
End Task.

(** ** Task queue: claim_github_tasks (002_create_claim_tasks_rpc.sql) *)

(** [t.last_completed_at IS NULL
     OR t.last_completed_at < NOW() - (t.refresh_every_days || ' days')::INTERVAL].
    A NULL cadence makes the comparison NULL, which WHERE does not accept. *)
Definition due (now : Z) (t : Task.t) : bool :=
  match Task.last_completed_at t with
  | None => true
  | Some completed =>
      match Task.refresh_every_days t with
      | None => false
      | Some days => completed <? now - days * ms_per_day
      end
  end.

(** The WHERE clause of the [claimed] CTE. *)
Definition eligible (now : Z) (t : Task.t) : bool :=
  match Task.status t with
  | ready => true
  | done => due now t
  | _ => false
  end.

(** [SELECT t.id ... FOR UPDATE SKIP LOCKED LIMIT n]: rows are visited in
    scan order; a row that passes the WHERE clause but is locked by another
    transaction is passed over; the scan stops after [n] rows. *)
Fixpoint select_claimed (now : Z) (locked : gset Z) (n : nat)
    (tbl : list Task.t) {struct tbl} : list Z :=
  match tbl with
  | [] => []
  | t :: rest =>
      match n with
      | O => []
      | S n' =>
          if eligible now t && negb (bool_decide (Task.id t ∈ locked))
          then Task.id t :: select_claimed now locked n' rest
          else select_claimed now locked n rest
      end
  end.

(** The SET list of the UPDATE; its right-hand sides read the old row. *)
Definition claim_row (now : Z) (t : Task.t) : Task.t :=
  {| Task.id := Task.id t;
     Task.created_from := Task.created_from t;
     Task.created_to := Task.created_to t;
     Task.stars_min := Task.stars_min t;
     Task.stars_max := Task.stars_max t;
     Task.pushed_after := Task.pushed_after t;
     Task.status := in_progress;
     Task.page := match Task.status t with
                  | done => Some 1
                  | _ => Task.page t
                  end;
     Task.refresh_every_days := Task.refresh_every_days t;
     Task.last_started_at := Some now;
     Task.last_completed_at := Task.last_completed_at t;
     Task.last_error := None |}.

(** [UPDATE github_search_tasks t SET ... FROM claimed c WHERE t.id = c.id]. *)
Definition update_claimed (now : Z) (claimed : list Z) (tbl : list Task.t)
    : list Task.t :=
  (λ t, if bool_decide (Task.id t ∈ claimed) then claim_row now t else t) <$> tbl.

(** [RETURNING t.*]: the updated rows. *)
Definition returning_claimed (now : Z) (claimed : list Z) (tbl : list Task.t)
    : list Task.t :=
  claim_row now <$> filter (λ t, Task.id t ∈ claimed) tbl.

(** The LIMIT clause: NULL means no limit, a negative count is an error. *)
Definition limit_rows (p_limit : option Z) (tbl : list Task.t) : result nat :=
  match p_limit with
  | None => Ok (length tbl)
  | Some n => if n <? 0 then Err "LIMIT must not be negative"
              else Ok (Z.to_nat n)
  end.

(** [claim_github_tasks(p_limit)], run at time [now] while the rows in
    [locked] are locked by other transactions. Returns the result set and
    the table after the call. *)
Definition claim_github_tasks (now : Z) (locked : gset Z) (p_limit : option Z)
    (tbl : list Task.t) : result (list Task.t * list Task.t) :=
  match limit_rows p_limit tbl with
  | Err e => Err e
  | Ok n =>
      let claimed := select_claimed now locked n tbl in
      Ok (returning_claimed now claimed tbl, update_claimed now claimed tbl)
  end.

(** ** Concurrent claims

    [claim_github_tasks] calls that overlap in time, as the row locks of
    [FOR UPDATE SKIP LOCKED] let them interleave. A call scans the table
    row by row; at each row it reads the row's current committed state and
    its lock; once the scan ends or the LIMIT is reached, the UPDATE and the
    commit (which releases the call's locks) happen in one step. *)

Record claim_tx := mkTx {
  tx_now : Z;                        (* NOW() of the transaction *)
  tx_limit : nat;                    (* LIMIT p_limit *)
  tx_pos : nat;                      (* next row of the scan *)
  tx_claimed : list Z;               (* ids selected and locked so far *)
  tx_result : option (list Task.t)   (* the result set, once committed *)
}.

Record database := mkDatabase {
  db_tasks : list Task.t;
  db_locks : gmap Z nat              (* row id -> transaction holding its lock *)
}.

Definition start_claim (now : Z) (p_limit : nat) : claim_tx :=
  mkTx now p_limit O [] None.

(** The UPDATE ... RETURNING of transaction [i] and its commit. *)
Definition commit_claim (i : nat) (tx : claim_tx) (d : database)
    : database * claim_tx :=
  (mkDatabase (update_claimed (tx_now tx) (tx_claimed tx) (db_tasks d))
     (filter (λ kv, kv.2 ≠ i) (db_locks d)),
   mkTx (tx_now tx) (tx_limit tx) (tx_pos tx) (tx_claimed tx)
     (Some (returning_claimed (tx_now tx) (tx_claimed tx) (db_tasks d)))).

(** The scan of transaction [i] looks at one row: a row failing the WHERE
    clause is passed; a row passing it is locked and selected, unless it is
    locked already, in which case it is passed without waiting. *)
Definition scan_row (i : nat) (tx : claim_tx) (row : Task.t) (d : database)
    : database * claim_tx :=
  let advance claimed :=
    mkTx (tx_now tx) (tx_limit tx) (S (tx_pos tx)) claimed None in
  if eligible (tx_now tx) row then
    match db_locks d !! Task.id row with
    | Some _ => (d, advance (tx_claimed tx))
    | None =>
        (mkDatabase (db_tasks d) (<[Task.id row := i]> (db_locks d)),
         advance (tx_claimed tx ++ [Task.id row]))
    end
  else (d, advance (tx_claimed tx)).

(** One step of an unfinished transaction. *)
Definition claim_step (i : nat) (tx : claim_tx) (d : database)
    : database * claim_tx :=
  if decide (length (tx_claimed tx) < tx_limit tx)%nat then
    match db_tasks d !! tx_pos tx with
    | Some row => scan_row i tx row d
    | None => commit_claim i tx d
    end
  else commit_claim i tx d.

(** The system: the database and the transactions in flight. The scheduler
    picks which transaction moves; a finished one stays as it is. *)
Definition system : Type := database * list claim_tx.

Definition schedule_step (st : system) (i : nat) : system :=
  match st.2 !! i with
  | None => st
  | Some tx =>
      match tx_result tx with
      | Some _ => st
      | None =>
          let '(d, tx') := claim_step i tx st.1 in
          (d, <[i := tx']> st.2)
      end
  end.

Definition run (schedule : list nat) (st : system) : system :=
  foldl schedule_step st schedule.

(** A table with no lock held, and the given calls about to start. *)
Definition initial (tbl : list Task.t) (txs : list claim_tx) : system :=
  (mkDatabase tbl ∅, txs).

(** ** Configuration surface ([process.env]) *)

(** Numeric variables are held as parsed by [parseInt(..., 10)]; [None] is
    an unset (or empty) variable, for which the code substitutes a default. *)
Record environment := {
  CRON_SECRET : option string;
  GITHUB_TOKEN : option string;
  GITHUB_SEARCH_DELAY_MS : option Z;
  DISCOVERY_MAX_TASKS_PER_RUN : option Z;
  DISCOVERY_MAX_PAGES_PER_TASK : option Z;
  DISCOVERY_CREATED_FROM : option date;
  DISCOVERY_PUSHED_AFTER : option date;
  DISCOVERY_STARS_MIN : option Z
}.

Definition DEFAULT_DELAY_MS (env : environment) : Z :=
  default 2100 (GITHUB_SEARCH_DELAY_MS env).

Definition MAX_TASKS_PER_RUN (env : environment) : Z :=
  default 3 (DISCOVERY_MAX_TASKS_PER_RUN env).

Definition MAX_PAGES_PER_TASK (env : environment) : Z :=
  default 3 (DISCOVERY_MAX_PAGES_PER_TASK env).

(** ** Search client (lib/github/client.ts) *)

(** The fields of a search hit that the pipeline computes with; the other
    metadata fields are copied unchanged into [github_repos]. *)
Module GitHubRepo.
Record t := mk {
  id : Z;
  full_name : string;
  stargazers_count : Z;
  forks_count : Z;
  open_issues_count : Z
}.
End GitHubRepo.

Record GitHubSearchParams := {
  createdFrom : date;
  createdTo : date;
  starsMin : Z;
  starsMax : option Z;
  pushedAfter : option date;
  page : option Z;
  perPage : option Z
}.

Record GitHubSearchResponse := {
  total_count : Z;
  incomplete_results : bool;
  items : list GitHubRepo.t
}.

(** What one [fetch] call does: it rejects (no response), or resolves to a
    response with a status, a parsed [Retry-After] header, the body as text
    ([response.text()]), and what [response.json()] gives: the parsed body,
    or the message of the error the parser throws. *)
Inductive fetch_outcome :=
| NetworkError (message : string)
| Response (status : Z) (retry_after : option Z) (text : string)
    (json : result GitHubSearchResponse).

(** The remote API, as seen by one [searchRepositories] call: the outcome of
    its n-th request. *)
Definition remote := nat → fetch_outcome.

(** What a call does besides returning. *)
Inductive client_event :=
| Request (attempt : Z)
| Sleep (ms : Z).

Definition maxAttempts : Z := 5.

(** [response.ok] *)
Definition response_ok (status : Z) : bool :=
  (200 <=? status) && (status <=? 299).

(** The [catch] block of the retry loop at [attempt]: on the last attempt
    the error is rethrown, otherwise [attempt] is incremented and the loop
    sleeps [2^attempt] seconds before going round again. *)
Definition on_catch (attempt : Z) (message : string)
    (continue : result GitHubSearchResponse * list client_event)
    : result GitHubSearchResponse * list client_event :=
  if attempt =? maxAttempts - 1 then (Err message, [])
  else (continue.1, Sleep (2 ^ (attempt + 1) * 1000) :: continue.2).

(** The [while (attempt < maxAttempts)] loop. Every iteration that does not
    leave the function increments [attempt] by one, so the loop is indexed
    by the attempts that remain: [attempt = maxAttempts - remaining]. *)
Fixpoint retry_loop (delay : Z) (api : remote) (remaining : nat)
    : result GitHubSearchResponse * list client_event :=
  match remaining with
  | O => (Err "Max retry attempts reached", [])
  | S remaining' =>
      let attempt := maxAttempts - Z.of_nat remaining in
      let next := retry_loop delay api remaining' in
      let before := if 0 <? attempt then [Sleep delay] else [] in
      let '(outcome, events) :=
        match api (Z.to_nat attempt) with
        | NetworkError message => on_catch attempt message next
        | Response status retry_after text json =>
            if (status =? 403) || (status =? 429) then
              let waitSeconds := default (2 ^ attempt * 2) retry_after in
              (next.1, Sleep (waitSeconds * 1000) :: next.2)
            else if negb (response_ok status) then
              on_catch attempt
                ("GitHub API error " +:+ pretty status +:+ ": " +:+ text) next
            else
              match json with
              | Err message => on_catch attempt message next
              | Ok data =>
                  (Ok data, if attempt =? 0 then [Sleep delay] else [])
              end
        end in
      (outcome, before ++ Request attempt :: events)
  end.

(** The remote API as a whole: the URL, which the parameters determine,
    selects what the requests of a call are answered with. *)
Definition github_api := GitHubSearchParams → remote.

(** The parameters that reach the URL: [params.page || 1] and
    [params.perPage || 100] next to the query built from the rest. *)
Definition url_params (params : GitHubSearchParams) : GitHubSearchParams :=
  {| createdFrom := createdFrom params;
     createdTo := createdTo params;
     starsMin := starsMin params;
     starsMax := starsMax params;
     pushedAfter := pushedAfter params;
     page := Some (default 1 (num_or_null (page params)));
     perPage := Some (default 100 (num_or_null (perPage params))) |}.

(** [searchRepositories(params, token)] *)
Definition searchRepositories (env : environment) (github : github_api)
    (params : GitHubSearchParams)
    : result GitHubSearchResponse * list client_event :=
  retry_loop (DEFAULT_DELAY_MS env) (github (url_params params))
    (Z.to_nat maxAttempts).

(** The number of requests a call issued. *)
Fixpoint requests_of (events : list client_event) : nat :=
  match events with
  | [] => O
  | Request _ :: rest => S (requests_of rest)
  | Sleep _ :: rest => requests_of rest
  end.

Definition token_required : string :=
  "GITHUB_TOKEN environment variable is required. " +:+
  "Create a Personal Access Token at https://github.com/settings/tokens".

(** [requireGitHubToken()] *)
Definition requireGitHubToken (env : environment) : result string :=
  match GITHUB_TOKEN env with
  | Some token =>
      if js_not_str (Some token) then Err token_required else Ok token
  | None => Err token_required
  end.

(** ** The store *)

(** A row of [github_repos] (identity and the sighting time). *)
Module Repo.
Record t := mk {
  repo_id : Z;
  full_name : string;
  last_seen_at : Z
}.
End Repo.

(** A row of [github_repo_snapshots]; [captured_date] is the UTC day number
    of [captured_at]. *)
Module Snapshot.
Record t := mk {
  repo_id : Z;
  captured_at : Z;
  captured_date : Z;
  stars_count : Z;
  forks_count : option Z;
  open_issues_count : option Z;
  source : string
}.
End Snapshot.

(** A row of [github_repo_trends]. *)
Module Trend.
Record t := mk {
  repo_id : Z;
  computed_at : Z;
  stars_now : Z;
  stars_prev : option Z;
  prev_captured_at : option Z;
  abs_growth_14d : option Z;
  pct_growth_14d : option R;
  score : option R;
  is_new : bool
}.
End Trend.

(** A row returned by [compute_repo_trends_14d()]. *)
Module TrendPair.
Record t := mk {
  repo_id : Z;
  stars_now : Z;
  stars_prev : option Z;
  prev_captured_at : option Z
}.
End TrendPair.

(** A row of [github_runs]. *)
Module Run.
Record t := mk {
  endpoint : string;
  completed_at : Z;
  tasks_processed : Z;
  repos_upserted : Z;
  snapshots_upserted : Z;
  errors_count : Z;
  error_message : option string
}.
End Run.

(** The requests a handler sends to the store, in the order sent. *)
Inductive store_request :=
| SelectTasksLimit1
| SelectTaskKeys
| InsertTasks (rows : nat)
| RpcClaimTasks (p_limit : Z)
| UpsertRepo (repo_id : Z)
| UpsertSnapshot (repo_id : Z)
| UpdateTask (id : Z)
| InsertRun (endpoint : string)
| RpcComputeTrends
| SelectRepos
| SelectLatestSnapshot (repo_id : Z)
| SelectPreviousSnapshot (repo_id : Z)
| UpsertTrend (repo_id : Z).

(** What a call of the optional batch RPC meets: the function of migration
    003, no such function (reported the way the handler expects, as
    [function ... does not exist]), or an error with any other message
    before the function is reached. *)
Inductive rpc_state :=
| RpcInstalled
| RpcMissing
| RpcFailing (message : string).

Record store := mkStore {
  github_repos : list Repo.t;
  github_repo_snapshots : list Snapshot.t;
  github_search_tasks : list Task.t;
  github_search_tasks_id_seq : Z;
  github_repo_trends : list Trend.t;
  github_runs : list Run.t;
  compute_repo_trends_rpc : rpc_state;
  requests : list store_request
}.

(** Everything outside the process: the store, and the searches sent to the
    remote API (one entry per [searchRepositories] call). *)
Record world := mkWorld {
  db : store;
  searches : list GitHubSearchParams
}.

Definition on_db (f : store → store) (w : world) : world :=
  mkWorld (f (db w)) (searches w).

Definition searched (params : GitHubSearchParams) (w : world) : world :=
  mkWorld (db w) (searches w ++ [params]).

Definition set_repos (v : list Repo.t) (s : store) : store :=
  mkStore v (github_repo_snapshots s) (github_search_tasks s)
    (github_search_tasks_id_seq s) (github_repo_trends s) (github_runs s)
    (compute_repo_trends_rpc s) (requests s).

Definition set_snapshots (v : list Snapshot.t) (s : store) : store :=
  mkStore (github_repos s) v (github_search_tasks s)
    (github_search_tasks_id_seq s) (github_repo_trends s) (github_runs s)
    (compute_repo_trends_rpc s) (requests s).

Definition set_tasks (v : list Task.t) (s : store) : store :=
  mkStore (github_repos s) (github_repo_snapshots s) v
    (github_search_tasks_id_seq s) (github_repo_trends s) (github_runs s)
    (compute_repo_trends_rpc s) (requests s).

Definition set_tasks_id_seq (v : Z) (s : store) : store :=
  mkStore (github_repos s) (github_repo_snapshots s) (github_search_tasks s)
    v (github_repo_trends s) (github_runs s)
    (compute_repo_trends_rpc s) (requests s).

Definition set_trends (v : list Trend.t) (s : store) : store :=
  mkStore (github_repos s) (github_repo_snapshots s) (github_search_tasks s)
    (github_search_tasks_id_seq s) v (github_runs s)
    (compute_repo_trends_rpc s) (requests s).

Definition set_runs (v : list Run.t) (s : store) : store :=
  mkStore (github_repos s) (github_repo_snapshots s) (github_search_tasks s)
    (github_search_tasks_id_seq s) (github_repo_trends s) v
    (compute_repo_trends_rpc s) (requests s).

(** Every request is recorded when it is sent. *)
Definition sent (r : store_request) (s : store) : store :=
  mkStore (github_repos s) (github_repo_snapshots s) (github_search_tasks s)
    (github_search_tasks_id_seq s) (github_repo_trends s) (github_runs s)
    (compute_repo_trends_rpc s) (requests s ++ [r]).

(** The clock of one invocation: [new Date()] as a timestamp and as a
    calendar date. *)
Record clock := mkClock { now_ms : Z; today : date }.

(** ** Task seeder (lib/github/task-seeder.ts) *)

Module SeederConfig.
Record t := mk {
  createdFrom : date;
  pushedAfter : option date;
  starsMin : Z;
  refreshEveryDays : option Z
}.
End SeederConfig.

Definition DEFAULT_STAR_BANDS : list (Z * option Z) :=
  [ (100, Some 200); (201, Some 500); (501, Some 1000);
    (1001, Some 5000); (5001, Some 20000); (20001, None) ].

Definition is_leap_year (y : Z) : bool :=
  (y mod 4 =? 0) && (negb (y mod 100 =? 0) || (y mod 400 =? 0)).

(** [new Date(year, month + 1, 0).getDate()], months counted from 1. *)
Definition days_in_month (y m : Z) : Z :=
  if m =? 2 then (if is_leap_year y then 29 else 28)
  else if (m =? 4) || (m =? 6) || (m =? 9) || (m =? 11) then 30
  else 31.

Definition date_ltb (a b : date) : bool :=
  (year a <? year b)
  || ((year a =? year b)
      && ((month a <? month b)
          || ((month a =? month b) && (day a <? day b)))).

(** Months since year 0. *)
Definition month_index (d : date) : Z := year d * 12 + (month d - 1).

Record window := mkWindow { from : date; to : date }.

(** [new Date(startDate)] for a [YYYY-MM-DD] string, as [getFullYear()] and
    [getMonth()] read it: the year and the month (counted from 1) of the day
    the string denotes, [None] for an Invalid Date. The engine takes a day
    up to 31 in every month and carries the days a month does not have into
    the next month. *)
Definition parse_start (startDate : date) : option (Z * Z) :=
  if (0 <=? year startDate) && (year startDate <=? 9999)
     && (1 <=? month startDate) && (month startDate <=? 12)
     && (1 <=? day startDate) && (day startDate <=? 31)
  then
    if days_in_month (year startDate) (month startDate) <? day startDate
    then Some (year startDate, month startDate + 1)
    else Some (year startDate, month startDate)
  else None.

(** The year of [new Date(year, month, day)]: a year from 0 to 99 counts
    from 1900. *)
Definition full_year (y : Z) : Z :=
  if (0 <=? y) && (y <=? 99) then 1900 + y else y.

(** The [while (current <= today)] loop; [current] is the first day of
    [year]-[month] and moves on by one month per iteration, so the loop is
    indexed by the months that remain up to [today]'s. The three dates of
    the body are [new Date(year, month, 1)], [new Date(year, month + 1, 0)]
    and [new Date(year, month + 1, 1)]. *)
Fixpoint windows_from (today : date) (year month : Z) (remaining : nat)
    : list window :=
  match remaining with
  | O => []
  | S remaining' =>
      let from := mkDate (full_year year) month 1 in
      let to :=
        mkDate (full_year year) month (days_in_month (full_year year) month) in
      let windowTo := if date_ltb today to then today else to in
      mkWindow from windowTo ::
        (if month =? 12 then windows_from today (full_year year + 1) 1 remaining'
         else windows_from today (full_year year) (month + 1) remaining')
  end.

(** [generateMonthlyWindows(startDate)], evaluated on the day [today]. An
    Invalid Date compares false with [today], so the loop is not entered. *)
Definition generateMonthlyWindows (today : date) (startDate : date)
    : list window :=
  match parse_start startDate with
  | None => []
  | Some (y, m) =>
      let current := mkDate (full_year y) m 1 in
      windows_from today (year current) (month current)
        (Z.to_nat (month_index today - month_index current + 1))
  end.

(** The signature string
    [created_from|created_to|stars_min|stars_max or null|pushed_after or null];
    its five components determine it. *)
Definition task_key : Type := date * date * Z * option Z * option date.

Definition key_of_row (t : Task.t) : task_key :=
  (Task.created_from t, Task.created_to t, Task.stars_min t,
   num_or_null (Task.stars_max t), Task.pushed_after t).

(** An element of [tasksToInsert]. *)
Record new_task := {
  new_created_from : date;
  new_created_to : date;
  new_stars_min : Z;
  new_stars_max : option Z;
  new_pushed_after : option date;
  new_refresh_every_days : Z;
  new_status : task_status
}.

(** The body of the inner loop, for one window and one band. *)
Definition seed_band (config : SeederConfig.t) (refreshEveryDays : Z)
    (existingKeys : list task_key) (w : window)
    (acc : list new_task * Z) (band : Z * option Z) : list new_task * Z :=
  let '(tasksToInsert, skipped) := acc in
  if match band.2 with
     | Some band_max => band_max <? SeederConfig.starsMin config
     | None => false
     end
  then acc
  else
    let starsMin := Z.max (SeederConfig.starsMin config) band.1 in
    let starsMax := num_or_null band.2 in
    let key : task_key :=
      (from w, to w, starsMin, num_or_null starsMax,
       SeederConfig.pushedAfter config) in
    if bool_decide (key ∈ existingKeys) then (tasksToInsert, skipped + 1)
    else
      (tasksToInsert ++
         [ {| new_created_from := from w;
              new_created_to := to w;
              new_stars_min := starsMin;
              new_stars_max := starsMax;
              new_pushed_after := SeederConfig.pushedAfter config;
              new_refresh_every_days := refreshEveryDays;
              new_status := ready |} ],
       skipped).

(** The outer loop body: all bands of one window. *)
Definition seed_window (config : SeederConfig.t) (refreshEveryDays : Z)
    (existingKeys : list task_key) (acc : list new_task * Z) (w : window)
    : list new_task * Z :=
  foldl (seed_band config refreshEveryDays existingKeys w) acc DEFAULT_STAR_BANDS.

(** The row the table holds for an inserted task: the sequence gives the
    id, the column defaults give [page = 1] and null timestamps. *)
Definition row_of_new_task (id : Z) (n : new_task) : Task.t :=
  {| Task.id := id;
     Task.created_from := new_created_from n;
     Task.created_to := new_created_to n;
     Task.stars_min := new_stars_min n;
     Task.stars_max := new_stars_max n;
     Task.pushed_after := new_pushed_after n;
     Task.status := new_status n;
     Task.page := Some 1;
     Task.refresh_every_days := Some (new_refresh_every_days n);
     Task.last_started_at := None;
     Task.last_completed_at := None;
     Task.last_error := None |}.

(** [.from("github_search_tasks").insert(batch)] *)
Fixpoint insert_rows (batch : list new_task) (s : store) : store :=
  match batch with
  | [] => s
  | n :: rest =>
      let id := github_search_tasks_id_seq s + 1 in
      insert_rows rest
        (set_tasks (github_search_tasks s ++ [row_of_new_task id n])
           (set_tasks_id_seq id s))
  end.

Definition insert_tasks (batch : list new_task) (s : store) : store :=
  insert_rows batch (sent (InsertTasks (length batch)) s).

Definition batchSize : nat := 500.

(** The batch loop: [i] advances by [batchSize] over [tasksToInsert]. *)
Fixpoint insert_batches (fuel : nat) (pending : list new_task)
    (created : Z) (s : store) : Z * store :=
  match pending, fuel with
  | [], _ => (created, s)
  | _, O => (created, s)
  | _, S fuel' =>
      let batch := take batchSize pending in
      insert_batches fuel' (drop batchSize pending)
        (created + Z.of_nat (length batch)) (insert_tasks batch s)
  end.

(** [seedTasks(config)]: returns [(created, skipped)] and the store after. *)
Definition seedTasks (clk : clock) (config : SeederConfig.t) (s : store)
    : (Z * Z) * store :=
  let windows :=
    generateMonthlyWindows (today clk) (SeederConfig.createdFrom config) in
  let refreshEveryDays :=
    default 7 (num_or_null (SeederConfig.refreshEveryDays config)) in
  let s1 := sent SelectTaskKeys s in
  let existingKeys := key_of_row <$> github_search_tasks s1 in
  let '(tasksToInsert, skipped) :=
    foldl (seed_window config refreshEveryDays existingKeys) ([], 0) windows in
  let '(created, s2) :=
    insert_batches (length tasksToInsert) tasksToInsert 0 s1 in
  ((created, skipped), s2).

(** [getDefaultSeederConfig()] *)
Definition getDefaultSeederConfig (env : environment) : SeederConfig.t :=
  {| SeederConfig.createdFrom :=
       default (mkDate 2020 1 1) (DISCOVERY_CREATED_FROM env);
     SeederConfig.pushedAfter := DISCOVERY_PUSHED_AFTER env;
     SeederConfig.starsMin := default 100 (DISCOVERY_STARS_MIN env);
     SeederConfig.refreshEveryDays := Some 7 |}.

(** ** Discovery driver (app/api/cron/github-discover/route.ts) *)

(** [.upsert(row, { onConflict })]: the row that conflicts on the key is
    replaced, otherwise the row is added. *)
Fixpoint upsert {A : Type} (conflicts : A → bool) (row : A) (tbl : list A)
    : list A :=
  match tbl with
  | [] => [row]
  | r :: rest =>
      if conflicts r then row :: rest else r :: upsert conflicts row rest
  end.

(** Whether another repository of the table holds the [full_name] of
    [repo]. *)
Definition full_name_clash (repo : GitHubRepo.t) (repos : list Repo.t) : bool :=
  existsb (λ r, negb (Repo.repo_id r =? GitHubRepo.id repo)
                && String.eqb (Repo.full_name r) (GitHubRepo.full_name repo))
    repos.

(** The message of PostgreSQL's error for a row that the unique index on
    [full_name] refuses ([full_name TEXT NOT NULL UNIQUE]). *)
Definition full_name_taken : string :=
  "duplicate key value violates unique constraint "
  +:+ quoted "github_repos_full_name_key".

(** [upsertRepo(repo)]: the message of the error it throws, if it throws,
    and the store after. The upsert resolves a conflict on [repo_id] only:
    the row of the repository is replaced, or the row is added, unless the
    new row carries the [full_name] of another repository; then the store
    refuses it, the table stays as it was and [upsertRepo] throws. *)
Definition upsertRepo (clk : clock) (repo : GitHubRepo.t) (s : store)
    : option string * store :=
  let s := sent (UpsertRepo (GitHubRepo.id repo)) s in
  if full_name_clash repo (github_repos s) then
    (Some ("Failed to upsert repo " +:+ GitHubRepo.full_name repo +:+ ": "
           +:+ full_name_taken), s)
  else
    (None,
     set_repos
       (upsert (λ r, Repo.repo_id r =? GitHubRepo.id repo)
          {| Repo.repo_id := GitHubRepo.id repo;
             Repo.full_name := GitHubRepo.full_name repo;
             Repo.last_seen_at := now_ms clk |}
          (github_repos s)) s).

(** [upsertSnapshot(repoId, stars, forks, openIssues)], with the default
    [source = "search"]. *)
Definition upsertSnapshot (clk : clock) (repoId stars forks openIssues : Z)
    (s : store) : store :=
  let capturedDate := now_ms clk / ms_per_day in
  let s := sent (UpsertSnapshot repoId) s in
  set_snapshots
    (upsert (λ r, (Snapshot.repo_id r =? repoId)
                  && (Snapshot.captured_date r =? capturedDate))
       {| Snapshot.repo_id := repoId;
          Snapshot.captured_at := now_ms clk;
          Snapshot.captured_date := capturedDate;
          Snapshot.stars_count := stars;
          Snapshot.forks_count := Some forks;
          Snapshot.open_issues_count := Some openIssues;
          Snapshot.source := "search" |}
       (github_repo_snapshots s)) s.

(** The local variables of [processTask], with the world they act on. *)
Record task_progress := mkProgress {
  progress_world : world;
  reposUpserted : Z;
  snapshotsUpserted : Z;
  needsSplit : bool;
  nextPage : option Z
}.

(** Assignments to [needsSplit] and [nextPage]. *)
Definition with_next (needsSplit : bool) (nextPage : option Z)
    (p : task_progress) : task_progress :=
  mkProgress (progress_world p) (reposUpserted p) (snapshotsUpserted p)
    needsSplit nextPage.

(** The progress [p] with the store replaced. *)
Definition with_db (s : store) (p : task_progress) : task_progress :=
  mkProgress (mkWorld s (searches (progress_world p))) (reposUpserted p)
    (snapshotsUpserted p) (needsSplit p) (nextPage p).

(** [for (const repo of response.items) { ... }]; an exception of
    [upsertRepo] leaves the loop with its message and the progress made so
    far. *)
Fixpoint upsert_items (clk : clock) (repos : list GitHubRepo.t)
    (p : task_progress) : option string * task_progress :=
  match repos with
  | [] => (None, p)
  | repo :: rest =>
      match upsertRepo clk repo (db (progress_world p)) with
      | (Some message, s1) => (Some message, with_db s1 p)
      | (None, s1) =>
          let s2 := upsertSnapshot clk (GitHubRepo.id repo)
                      (GitHubRepo.stargazers_count repo)
                      (GitHubRepo.forks_count repo)
                      (GitHubRepo.open_issues_count repo) s1 in
          upsert_items clk rest
            (mkProgress (mkWorld s2 (searches (progress_world p)))
               (reposUpserted p + 1) (snapshotsUpserted p + 1)
               (needsSplit p) (nextPage p))
      end
  end.

(** The search parameters of [task] at [page]. *)
Definition task_params (task : Task.t) (page : Z) : GitHubSearchParams :=
  {| createdFrom := Task.created_from task;
     createdTo := Task.created_to task;
     starsMin := Task.stars_min task;
     starsMax := num_or_null (Task.stars_max task);
     pushedAfter := Task.pushed_after task;
     page := Some page;
     perPage := Some 100 |}.

(** The page loop of [processTask]: [remaining] iterations are left and the
    next one fetches [page = currentPage + pageOffset]. An exception leaves
    the loop with its message and the progress made so far. *)
Fixpoint process_pages (env : environment) (github : github_api) (clk : clock)
    (task : Task.t) (remaining : nat) (page : Z) (p : task_progress)
    : option string * task_progress :=
  match remaining with
  | O => (None, p)
  | S remaining' =>
      let params := task_params task page in
      let p := mkProgress (searched params (progress_world p))
                 (reposUpserted p) (snapshotsUpserted p)
                 (needsSplit p) (nextPage p) in
      match (searchRepositories env github params).1 with
      | Err message => (Some message, p)
      | Ok response =>
          match upsert_items clk (items response) p with
          | (Some message, p) => (Some message, p)
          | (None, p) =>
              let count := Z.of_nat (length (items response)) in
              let isLastPage := count <? 100 in
              let isPage10 := 10 <=? page in
              if isLastPage then
                (None, with_next (needsSplit p) None p)
              else if isPage10 && (count =? 100) then
                (None, with_next true None p)
              else
                process_pages env github clk task remaining' (page + 1)
                  (with_next (needsSplit p) (Some (page + 1)) p)
          end
      end
  end.

(** [processTask(task, token)]: [currentPage = task.page], and a null page
    counts as 0 in [currentPage + pageOffset]. *)
Definition processTask (env : environment) (github : github_api) (clk : clock)
    (task : Task.t) (w : world) : option string * task_progress :=
  process_pages env github clk task
    (Z.to_nat (MAX_PAGES_PER_TASK env)) (default 0 (Task.page task))
    (mkProgress w 0 0 false None).

(** The row after [.update(update)] of [updateTaskStatus]. *)
Definition updated_task (clk : clock) (status : task_status)
    (nextPage : option Z) (error : option string) (t : Task.t) : Task.t :=
  {| Task.id := Task.id t;
     Task.created_from := Task.created_from t;
     Task.created_to := Task.created_to t;
     Task.stars_min := Task.stars_min t;
     Task.stars_max := Task.stars_max t;
     Task.pushed_after := Task.pushed_after t;
     Task.status := status;
     Task.page := match nextPage with
                  | Some next => Some next
                  | None => match status with
                            | done => Some 1
                            | _ => Task.page t
                            end
                  end;
     Task.refresh_every_days := Task.refresh_every_days t;
     Task.last_started_at := Task.last_started_at t;
     Task.last_completed_at := match status with
                               | done => Some (now_ms clk)
                               | _ => None
                               end;
     Task.last_error := str_or_null error |}.

(** [updateTaskStatus(taskId, status, nextPage, error)] *)
Definition updateTaskStatus (clk : clock) (taskId : Z) (status : task_status)
    (nextPage : option Z) (error : option string) (s : store) : store :=
  let s := sent (UpdateTask taskId) s in
  set_tasks
    ((λ t, if Task.id t =? taskId
           then updated_task clk status nextPage error t else t)
       <$> github_search_tasks s) s.

(** The counters of the discovery handler. *)
Record discovery_totals := mkTotals {
  tasksProcessed : Z;
  totalReposUpserted : Z;
  totalSnapshotsUpserted : Z;
  errors : list string
}.

(** The status written after a task was processed without exception. *)
Definition newStatus (p : task_progress) : task_status :=
  if needsSplit p then needs_split
  else match nextPage p with
       | None => done
       | Some _ => in_progress
       end.

(** The body of [for (const task of claimedTasks)], with its try/catch. *)
Definition discover_task (env : environment) (github : github_api)
    (clk : clock) (acc : discovery_totals * world) (task : Task.t)
    : discovery_totals * world :=
  let '(totals, w) := acc in
  match processTask env github clk task w with
  | (None, p) =>
      (mkTotals (tasksProcessed totals + 1)
         (totalReposUpserted totals + reposUpserted p)
         (totalSnapshotsUpserted totals + snapshotsUpserted p)
         (errors totals),
       on_db (updateTaskStatus clk (Task.id task) (newStatus p) (nextPage p) None)
         (progress_world p))
  | (Some message, p) =>
      (mkTotals (tasksProcessed totals) (totalReposUpserted totals)
         (totalSnapshotsUpserted totals)
         (errors totals ++
            ["Task " +:+ pretty (Task.id task) +:+ " failed: " +:+ message]),
       on_db (updateTaskStatus clk (Task.id task) in_progress (Task.page task)
                (Some message))
         (progress_world p))
  end.

(** A JSON response: the status and the fields of the body. *)
Record http_response := mkResponse {
  http_status : Z;
  message : option string;
  error : option string;
  counters : list (string * Z)
}.

Definition unauthorized : http_response :=
  mkResponse 401 None (Some "Unauthorized") [].

(** [errors.join("; ")] *)
Definition join_errors (errors : list string) : string :=
  String.concat "; " errors.

(** The run-log row of the discovery handler. *)
Definition discovery_run (clk : clock) (totals : discovery_totals)
    (errors_count : Z) (error_message : option string) : Run.t :=
  {| Run.endpoint := "github-discover";
     Run.completed_at := now_ms clk;
     Run.tasks_processed := tasksProcessed totals;
     Run.repos_upserted := totalReposUpserted totals;
     Run.snapshots_upserted := totalSnapshotsUpserted totals;
     Run.errors_count := errors_count;
     Run.error_message := error_message |}.

Definition insert_run (run : Run.t) (s : store) : store :=
  let s := sent (InsertRun (Run.endpoint run)) s in
  set_runs (github_runs s ++ [run]) s.

(** The outer [catch] of the discovery handler. *)
Definition discovery_failed (clk : clock) (totals : discovery_totals)
    (message : string) (w : world) : http_response * world :=
  (mkResponse 500 None (Some message)
     [("tasksProcessed", tasksProcessed totals);
      ("reposUpserted", totalReposUpserted totals);
      ("snapshotsUpserted", totalSnapshotsUpserted totals)],
   on_db (insert_run (discovery_run clk totals 1 (Some message))) w).

(** The auth check shared by both handlers:
    [!expectedSecret || secret !== expectedSecret]. *)
Definition auth_fails (env : environment) (secret : option string) : bool :=
  js_not_str (CRON_SECRET env) || negb (bool_decide (secret = CRON_SECRET env)).

(** [GET] of the discovery endpoint; [secret] is the query parameter. *)
Definition discover_GET (env : environment) (github : github_api)
    (clk : clock) (secret : option string) (w : world)
    : http_response * world :=
  if auth_fails env secret then (unauthorized, w)
  else
    let totals := mkTotals 0 0 0 [] in
    let w := on_db (sent SelectTasksLimit1) w in
    let existingTasks := take 1 (github_search_tasks (db w)) in
    let w := match existingTasks with
             | [] => on_db (λ s, (seedTasks clk (getDefaultSeederConfig env) s).2) w
             | _ => w
             end in
    let w := on_db (sent (RpcClaimTasks (MAX_TASKS_PER_RUN env))) w in
    match claim_github_tasks (now_ms clk) ∅ (Some (MAX_TASKS_PER_RUN env))
            (github_search_tasks (db w)) with
    | Err claimError =>
        discovery_failed clk totals ("Failed to claim tasks: " +:+ claimError) w
    | Ok (claimedTasks, tasks') =>
        let w := on_db (set_tasks tasks') w in
        match claimedTasks with
        | [] =>
            (mkResponse 200 (Some "No tasks available") None
               [("tasksProcessed", 0); ("reposUpserted", 0);
                ("snapshotsUpserted", 0)], w)
        | _ =>
            match requireGitHubToken env with
            | Err message => discovery_failed clk totals message w
            | Ok token =>
                let '(totals, w) :=
                  foldl (discover_task env github clk) (totals, w) claimedTasks in
                let errors_count := Z.of_nat (length (errors totals)) in
                (mkResponse 200 (Some "Discovery completed") None
                   [("tasksProcessed", tasksProcessed totals);
                    ("reposUpserted", totalReposUpserted totals);
                    ("snapshotsUpserted", totalSnapshotsUpserted totals);
                    ("errors", errors_count)],
                 on_db (insert_run
                          (discovery_run clk totals errors_count
                             (match errors totals with
                              | [] => None
                              | _ => Some (join_errors (errors totals))
                              end))) w)
            end
        end
    end.

(** ** Batch pairing: compute_repo_trends_14d (003_create_compute_trends_rpc.sql) *)

(** [ORDER BY captured_at DESC] and keep the first row: the row with the
    greatest [captured_at] (the first such row in scan order on a tie). *)
Definition newer (best : option Snapshot.t) (r : Snapshot.t)
    : option Snapshot.t :=
  match best with
  | None => Some r
  | Some b =>
      if Snapshot.captured_at b <? Snapshot.captured_at r then Some r else Some b
  end.

Definition most_recent (rows : list Snapshot.t) : option Snapshot.t :=
  foldl newer None rows.

(** One row of the [latest_snapshots] CTE. *)
Definition latest_snapshot (repo_id : Z) (snapshots : list Snapshot.t)
    : option Snapshot.t :=
  most_recent (filter (λ s, Snapshot.repo_id s = repo_id) snapshots).

(** One row of the [prev_snapshots] CTE:
    [WHERE s.captured_at <= ls.captured_at - INTERVAL '14 days']. *)
Definition prev_snapshot (repo_id : Z) (ls : Snapshot.t)
    (snapshots : list Snapshot.t) : option Snapshot.t :=
  most_recent
    (filter (λ s, Snapshot.repo_id s = repo_id
                  ∧ Snapshot.captured_at s
                    ≤ Snapshot.captured_at ls - 14 * ms_per_day)
       snapshots).

(** The select list of the final SELECT for one joined row: [ls] with its
    [ps], if the LEFT JOIN found one. *)
Definition paired (repo_id : Z) (ls : Snapshot.t) (ps : option Snapshot.t)
    : TrendPair.t :=
  {| TrendPair.repo_id := repo_id;
     TrendPair.stars_now := Snapshot.stars_count ls;
     TrendPair.stars_prev := Snapshot.stars_count <$> ps;
     TrendPair.prev_captured_at := Snapshot.captured_at <$> ps |}.

(** The final SELECT: [latest_snapshots ls LEFT JOIN prev_snapshots ps], one
    row per repository that has a snapshot (listed by first appearance). *)
Definition compute_repo_trends_14d (snapshots : list Snapshot.t)
    : list TrendPair.t :=
  omap (λ repo_id,
          match latest_snapshot repo_id snapshots with
          | None => None
          | Some ls =>
              Some (paired repo_id ls (prev_snapshot repo_id ls snapshots))
          end)
       (remove_dups (Snapshot.repo_id <$> snapshots)).

(** The function around the query. [compute_repo_trends_14d] is written in
    PL/pgSQL, where the columns of [RETURNS TABLE] are variables of the
    function body. A name that the query writes without a qualifier and
    that is both such a variable and a column of a table in scope can mean
    either; PL/pgSQL then refuses the query with an error when the function
    is called ([plpgsql.variable_conflict] is [error] unless the function or
    the server sets it otherwise, which nothing in the repository does). *)

(** The columns of [RETURNS TABLE]. *)
Definition returns_table : list string :=
  ["repo_id"; "stars_now"; "stars_prev"; "prev_captured_at"].

(** The columns of [github_repo_snapshots], the table in scope where the
    query writes names without a qualifier. *)
Definition snapshot_columns : list string :=
  ["id"; "repo_id"; "captured_at"; "captured_date"; "stars_count";
   "forks_count"; "open_issues_count"; "source"].

(** The names the query writes without a qualifier, in the order written;
    all of them are in the [latest_snapshots] CTE. *)
Definition unqualified_names : list string :=
  ["repo_id"; "repo_id"; "captured_at"; "stars_count"; "repo_id";
   "captured_at"].

(** The names PL/pgSQL cannot resolve. *)
Definition ambiguous_names : list string :=
  filter (λ name, name ∈ returns_table ∧ name ∈ snapshot_columns)
    unqualified_names.

(** The message of the error PostgreSQL raises for an ambiguous name. *)
Definition ambiguous_column (name : string) : string :=
  "column reference " +:+ quoted name +:+ " is ambiguous".

(** A call of the function: the error for the first name that cannot be
    resolved, the rows of the query when every name can. *)
Definition call_compute_repo_trends_14d (snapshots : list Snapshot.t)
    : result (list TrendPair.t) :=
  match ambiguous_names with
  | name :: _ => Err (ambiguous_column name)
  | [] => Ok (compute_repo_trends_14d snapshots)
  end.

(** ** Scoring driver (app/api/cron/github-score/route.ts) *)

(** [computeScore(absGrowth, pctGrowth)] *)
Definition computeScore (absGrowth pctGrowth : R) : R :=
  if Rle_dec absGrowth 0 then 0%R
  else (absGrowth * ln (1 + Rmax pctGrowth 0))%R.

(** The counters of the scoring handler. *)
Record scoring_totals := mkScoring {
  reposProcessed : Z;
  reposWithGrowth : Z;
  newRepos : Z
}.

(** [absGrowth], [pctGrowth] and [score] once the growth branch is taken. *)
Definition growth_of (starsNow starsPrev : Z) : Z * R * R :=
  let absGrowth := starsNow - starsPrev in
  let pctGrowth := (IZR absGrowth / IZR (Z.max starsPrev 1))%R in
  (absGrowth, pctGrowth, computeScore (IZR absGrowth) pctGrowth).

(** The payload upserted by the RPC-result loop for one [trend] row.
    [isNew = !starsPrev]; the growth branch needs [!isNew]. *)
Definition batch_trend (clk : clock) (trend : TrendPair.t) : Trend.t :=
  let starsNow := TrendPair.stars_now trend in
  let starsPrev := TrendPair.stars_prev trend in
  let isNew := js_not_num starsPrev in
  let growth :=
    match starsPrev with
    | Some prev => if negb isNew then Some (growth_of starsNow prev) else None
    | None => None
    end in
  {| Trend.repo_id := TrendPair.repo_id trend;
     Trend.computed_at := now_ms clk;
     Trend.stars_now := starsNow;
     Trend.stars_prev := num_or_null starsPrev;
     Trend.prev_captured_at := TrendPair.prev_captured_at trend;
     Trend.abs_growth_14d := (λ g, g.1.1) <$> growth;
     Trend.pct_growth_14d := (λ g, g.1.2) <$> growth;
     Trend.score := (λ g, g.2) <$> growth;
     Trend.is_new := isNew |}.

(** The payload upserted by the fallback loop for one repository whose
    latest snapshot is [nowSnapshot]. [isNew = !prevSnapshot], and
    [starsPrev = prevSnapshot?.stars_count] is defined exactly when there is
    a previous snapshot. *)
Definition fallback_trend (clk : clock) (repo_id : Z) (nowSnapshot : Snapshot.t)
    (prevSnapshot : option Snapshot.t) : Trend.t :=
  let starsNow := Snapshot.stars_count nowSnapshot in
  let starsPrev := Snapshot.stars_count <$> prevSnapshot in
  let isNew := match prevSnapshot with None => true | Some _ => false end in
  let growth :=
    match starsPrev with
    | Some prev => if negb isNew then Some (growth_of starsNow prev) else None
    | None => None
    end in
  {| Trend.repo_id := repo_id;
     Trend.computed_at := now_ms clk;
     Trend.stars_now := starsNow;
     Trend.stars_prev := num_or_null starsPrev;
     Trend.prev_captured_at := Snapshot.captured_at <$> prevSnapshot;
     Trend.abs_growth_14d := (λ g, g.1.1) <$> growth;
     Trend.pct_growth_14d := (λ g, g.1.2) <$> growth;
     Trend.score := (λ g, g.2) <$> growth;
     Trend.is_new := isNew |}.

(** [.from("github_repo_trends").upsert(row, { onConflict: "repo_id" })] *)
Definition upsertTrend (row : Trend.t) (s : store) : store :=
  let s := sent (UpsertTrend (Trend.repo_id row)) s in
  set_trends
    (upsert (λ r, Trend.repo_id r =? Trend.repo_id row) row (github_repo_trends s))
    s.

(** The counters after a payload was upserted. *)
Definition counted (row : Trend.t) (totals : scoring_totals) : scoring_totals :=
  match Trend.abs_growth_14d row with
  | Some _ =>
      mkScoring (reposProcessed totals + 1) (reposWithGrowth totals + 1)
        (newRepos totals)
  | None =>
      mkScoring (reposProcessed totals + 1) (reposWithGrowth totals)
        (newRepos totals + 1)
  end.

(** The body of [for (const trend of trends)]. *)
Definition score_trend (clk : clock) (acc : scoring_totals * store)
    (trend : TrendPair.t) : scoring_totals * store :=
  let row := batch_trend clk trend in
  (counted row acc.1, upsertTrend row acc.2).

(** The 14-days-earlier bound of the fallback:
    [setDate(getDate() - 14)] on the latest [captured_at]. *)
Definition fourteenDaysAgo (nowSnapshot : Snapshot.t) : Z :=
  Snapshot.captured_at nowSnapshot - 14 * ms_per_day.

(** The fallback's second query: [.lte("captured_at", fourteenDaysAgo)],
    newest first, one row. *)
Definition select_previous (repo_id : Z) (bound : Z)
    (snapshots : list Snapshot.t) : option Snapshot.t :=
  most_recent
    (filter (λ s, Snapshot.repo_id s = repo_id ∧ Snapshot.captured_at s ≤ bound)
       snapshots).

(** The body of [for (const repo of repos)]. *)
Definition score_repo (clk : clock) (acc : scoring_totals * store)
    (repo : Repo.t) : scoring_totals * store :=
  let '(totals, s) := acc in
  let repo_id := Repo.repo_id repo in
  let s := sent (SelectLatestSnapshot repo_id) s in
  match latest_snapshot repo_id (github_repo_snapshots s) with
  | None => (totals, s)
  | Some nowSnapshot =>
      let s := sent (SelectPreviousSnapshot repo_id) s in
      let prevSnapshot :=
        select_previous repo_id (fourteenDaysAgo nowSnapshot)
          (github_repo_snapshots s) in
      let row := fallback_trend clk repo_id nowSnapshot prevSnapshot in
      (counted row totals, upsertTrend row s)
  end.

(** The run-log row of the scoring handler. *)
Definition scoring_run (clk : clock) (totals : scoring_totals)
    (errors_count : Z) (error_message : option string) : Run.t :=
  {| Run.endpoint := "github-score";
     Run.completed_at := now_ms clk;
     Run.tasks_processed := 0;
     Run.repos_upserted := reposProcessed totals;
     Run.snapshots_upserted := 0;
     Run.errors_count := errors_count;
     Run.error_message := error_message |}.

(** The message of PostgreSQL's error for a call of a function that is not
    there. *)
Definition function_missing : string :=
  "function public.compute_repo_trends_14d() does not exist".

(** [supabaseServer.rpc("compute_repo_trends_14d")]: [data], or the message
    of [error]. *)
Definition rpc_compute_repo_trends_14d (s : store)
    : result (list TrendPair.t) :=
  match compute_repo_trends_rpc s with
  | RpcInstalled => call_compute_repo_trends_14d (github_repo_snapshots s)
  | RpcMissing => Err function_missing
  | RpcFailing message => Err message
  end.

(** [haystack.includes(needle)] *)
Fixpoint includes (needle haystack : string) : bool :=
  String.prefix needle haystack
  || match haystack with
     | EmptyString => false
     | String _ rest => includes needle rest
     end.

(** The handler's test for a missing RPC:
    [message.includes("function") && message.includes("does not exist")]. *)
Definition rpc_does_not_exist (queryError : string) : bool :=
  includes "function" queryError && includes "does not exist" queryError.

(** [GET] of the scoring endpoint; [secret] is the query parameter. *)
Definition score_GET (env : environment) (clk : clock)
    (secret : option string) (w : world) : http_response * world :=
  if auth_fails env secret then (unauthorized, w)
  else
    let s := sent RpcComputeTrends (db w) in
    let finish (acc : scoring_totals * store) : http_response * world :=
      (mkResponse 200 (Some "Scoring completed") None
         [("reposProcessed", reposProcessed acc.1);
          ("reposWithGrowth", reposWithGrowth acc.1);
          ("newRepos", newRepos acc.1);
          ("errors", 0)],
       mkWorld (insert_run (scoring_run clk acc.1 0 None) acc.2) (searches w)) in
    match rpc_compute_repo_trends_14d s with
    | Err queryError =>
        if rpc_does_not_exist queryError then
          (* [repos] is null only when the select fails *)
          let s := sent SelectRepos s in
          finish (foldl (score_repo clk) (mkScoring 0 0 0, s) (github_repos s))
        else
          (mkResponse 500 None (Some queryError)
             [("reposProcessed", 0); ("reposWithGrowth", 0); ("newRepos", 0)],
           mkWorld
             (insert_run (scoring_run clk (mkScoring 0 0 0) 1 (Some queryError)) s)
             (searches w))
    | Ok trends =>
        finish (foldl (score_trend clk) (mkScoring 0 0 0, s) trends)
    end.

(** ** Crawling a partition over several runs *)

(** The row of task [id], as a query by primary key finds it. *)
Fixpoint find_task (id : Z) (tbl : list Task.t) : option Task.t :=
  match tbl with
  | [] => None
  | t :: rest => if Task.id t =? id then Some t else find_task id rest
  end.

(** Task [id] is processed by one run of the driver after another, each run
    starting from the row the previous one left, for as long as that row is
    ['in_progress']. How the row comes to be handed to the next run is not
    part of this definition. *)
Fixpoint crawl (runs : nat) (env : environment) (github : github_api)
    (clk : clock) (id : Z) (w : world) : world :=
  match runs with
  | O => w
  | S runs' =>
      match find_task id (github_search_tasks (db w)) with
      | Some task =>
          match Task.status task with
          | in_progress =>
              crawl runs' env github clk id
                (discover_task env github clk (mkTotals 0 0 0 [], w) task).2
          | _ => w
          end
      | None => w
      end
  end.

(** ** Remote partitions and sample data *)

(** The [i]-th repository of a partition. *)
Definition nth_repo (i : Z) : GitHubRepo.t :=
  {| GitHubRepo.id := i;
     GitHubRepo.full_name := "owner/repo-" +:+ pretty i;
     GitHubRepo.stargazers_count := 150;
     GitHubRepo.forks_count := 3;
     GitHubRepo.open_issues_count := 1 |}.

(** The items of page [page] of a result list of [k] repositories, [perPage]
    to the page. *)
Definition page_items (k page perPage : Z) : list GitHubRepo.t :=
  (λ j, nth_repo (perPage * (page - 1) + 1 + Z.of_nat j))
    <$> seq 0 (Z.to_nat (Z.min perPage (k - perPage * (page - 1)))).

(** A remote whose partition holds exactly [k] repositories and which
    answers every request at once: a page is full while results remain. *)
Definition partition_of (k : Z) : github_api :=
  λ params _,
    Response 200 None "ok"
      (Ok {| total_count := k;
             incomplete_results := false;
             items := page_items k (default 1 (page params))
                        (default 100 (perPage params)) |}).

(** What [response.json()] throws for the body [boom]. *)
Definition not_json : string := "Unexpected token b in JSON at position 0".

(** A remote that answers the first request with a server error and every
    later one with an empty result. *)
Definition failing_once : github_api :=
  λ params n,
    match n with
    | O => Response 500 None "boom" (Err not_json)
    | S _ => Response 200 None "ok"
               (Ok {| total_count := 0; incomplete_results := false;
                      items := [] |})
    end.

Definition sample_env : environment :=
  {| CRON_SECRET := Some "s3cret";
     GITHUB_TOKEN := Some "ghp_token";
     GITHUB_SEARCH_DELAY_MS := None;
     DISCOVERY_MAX_TASKS_PER_RUN := None;
     DISCOVERY_MAX_PAGES_PER_TASK := None;
     DISCOVERY_CREATED_FROM := Some (mkDate 2026 11 1);
     DISCOVERY_PUSHED_AFTER := None;
     DISCOVERY_STARS_MIN := None |}.

(** The same deployment without [CRON_SECRET]. *)
Definition env_without_secret : environment :=
  {| CRON_SECRET := None;
     GITHUB_TOKEN := Some "ghp_token";
     GITHUB_SEARCH_DELAY_MS := None;
     DISCOVERY_MAX_TASKS_PER_RUN := None;
     DISCOVERY_MAX_PAGES_PER_TASK := None;
     DISCOVERY_CREATED_FROM := Some (mkDate 2026 11 1);
     DISCOVERY_PUSHED_AFTER := None;
     DISCOVERY_STARS_MIN := None |}.

(** 2026-11-02T00:00:00Z and the day after. *)
Definition nov_2 : clock := mkClock 1793577600000 (mkDate 2026 11 2).
Definition nov_3 : clock := mkClock 1793664000000 (mkDate 2026 11 3).

Definition sample_config : SeederConfig.t :=
  {| SeederConfig.createdFrom := mkDate 2026 11 1;
     SeederConfig.pushedAfter := None;
     SeederConfig.starsMin := 100;
     SeederConfig.refreshEveryDays := None |}.

Definition sample_task (id : Z) (status : task_status) (page : option Z)
    (last_completed_at : option Z) : Task.t :=
  {| Task.id := id;
     Task.created_from := mkDate 2026 10 1;
     Task.created_to := mkDate 2026 10 31;
     Task.stars_min := 100;
     Task.stars_max := Some 200;
     Task.pushed_after := None;
     Task.status := status;
     Task.page := page;
     Task.refresh_every_days := Some 7;
     Task.last_started_at := None;
     Task.last_completed_at := last_completed_at;
     Task.last_error := None |}.

(** A queue with a fresh task, a task finished ten days ago with its cursor
    left at 4, a task finished yesterday, and a task being processed. *)
Definition sample_tasks : list Task.t :=
  [ sample_task 1 ready (Some 3) None;
    sample_task 2 done (Some 4) (Some (now_ms nov_2 - 10 * ms_per_day));
    sample_task 3 done (Some 1) (Some (now_ms nov_2 - 1 * ms_per_day));
    sample_task 4 in_progress (Some 2) None ].

Definition empty_store : store :=
  mkStore [] [] [] 0 [] [] RpcInstalled [].

Definition store_with (tasks : list Task.t) (snapshots : list Snapshot.t)
    (rpc : rpc_state) : store :=
  mkStore [] snapshots tasks 0 [] [] rpc [].

Definition world_with (tasks : list Task.t) : world :=
  mkWorld (store_with tasks [] RpcInstalled) [].

(** A queue whose only task has just been claimed at page 1. *)
Definition claimed_at_page_1 : world :=
  world_with [sample_task 1 in_progress (Some 1) None].

Definition sample_snapshot (repo_id captured_at stars : Z) : Snapshot.t :=
  {| Snapshot.repo_id := repo_id;
     Snapshot.captured_at := captured_at;
     Snapshot.captured_date := captured_at / ms_per_day;
     Snapshot.stars_count := stars;
     Snapshot.forks_count := Some 0;
     Snapshot.open_issues_count := Some 0;
     Snapshot.source := "search" |}.

(** Repository 7 had no stars twenty days ago and has five now. *)
Definition from_zero_stars : list Snapshot.t :=
  [ sample_snapshot 7 (now_ms nov_2 - 20 * ms_per_day) 0;
    sample_snapshot 7 (now_ms nov_2) 5 ].

(** A store that knows repository 7 and its two snapshots, with the batch
    RPC in the given state. *)
Definition from_zero_world (rpc : rpc_state) : world :=
  mkWorld
    (mkStore [ {| Repo.repo_id := 7; Repo.full_name := "owner/repo-7";
                  Repo.last_seen_at := now_ms nov_2 |} ]
       from_zero_stars [] 0 [] [] rpc [])
    [].

(** ** Invariants used in the proofs *)

(** The signature of an element of [tasksToInsert], as [seedTasks] will read
    it back from the table, and of a (window, band) candidate. *)
Definition key_of_new (n : new_task) : task_key :=
  (new_created_from n, new_created_to n, new_stars_min n,
   num_or_null (new_stars_max n), new_pushed_after n).

Definition band_skipped (config : SeederConfig.t) (band : Z * option Z) : bool :=
  match band.2 with
  | Some band_max => band_max <? SeederConfig.starsMin config
  | None => false
  end.

Definition candidate_key (config : SeederConfig.t) (w : window)
    (band : Z * option Z) : task_key :=
  (from w, to w, Z.max (SeederConfig.starsMin config) band.1,
   num_or_null (num_or_null band.2), SeederConfig.pushedAfter config).

(** [n] consecutive pages starting at page [p]. *)
Definition pages_from (p : Z) (n : nat) : list Z :=
  (λ i, p + Z.of_nat i) <$> seq 0 n.

(** The page at which the crawl of a partition of [k] results stops: the
    first page that is not full, or page 10. *)
Definition last_page (k : Z) : Z :=
  if k <? 1000 then k / 100 + 1 else 10.

(** What a scoring pass maintains: the snapshots are not touched, and every
    Trend row has a previous star count that is null or positive. *)
Definition scoring_invariant (snapshots : list Snapshot.t) (s : store) : Prop :=
  github_repo_snapshots s = snapshots ∧
  ∀ row, row ∈ github_repo_trends s →
    match Trend.stars_prev row with
    | None => True
    | Some p => 0 < p
    end.

(** What every interleaving of claim transactions maintains:
    - a transaction in flight holds the lock of every row it selected;
    - the rows selected by a committed transaction are ['in_progress'];
    - no row is selected by two transactions;
    - a result set holds only rows its transaction selected. *)
Definition claims_invariant (st : system) : Prop :=
  (∀ i tx rid, st.2 !! i = Some tx → tx_result tx = None →
     rid ∈ tx_claimed tx → db_locks st.1 !! rid = Some i) ∧
  (∀ i tx rid row, st.2 !! i = Some tx → is_Some (tx_result tx) →
     rid ∈ tx_claimed tx → row ∈ db_tasks st.1 → Task.id row = rid →
     Task.status row = in_progress) ∧
  (∀ i j txi txj rid, i ≠ j → st.2 !! i = Some txi → st.2 !! j = Some txj →
     rid ∈ tx_claimed txi → rid ∉ tx_claimed txj) ∧
  (∀ i tx rows r, st.2 !! i = Some tx → tx_result tx = Some rows →
     r ∈ rows → Task.id r ∈ tx_claimed tx).

(** The steps transaction [i] still has to take: one per row left to scan
    and one to commit. *)
Definition steps_left (st : system) (i : nat) : nat :=
  match st.2 !! i with
  | Some tx =>
      match tx_result tx with
      | Some _ => O
      | None => S (length (db_tasks st.1) - tx_pos tx)
      end
  | None => O
  end.

(** How often the schedule lets transaction [i] move. *)
Definition turns (i : nat) (schedule : list nat) : nat :=
  length (filter (λ j, j = i) schedule).

(** No repository of the store holds the name of another repository of the
    sample partitions. *)
Definition agrees_with_partition (s : store) : Prop :=
  ∀ r i, r ∈ github_repos s →
    Repo.full_name r = GitHubRepo.full_name (nth_repo i) → Repo.repo_id r = i.

(** ** Notions used in the further properties *)

(** The data of a response that the loop returns: a success status with a
    body that parses. *)
Definition success (o : fetch_outcome) : option GitHubSearchResponse :=
  match o with
  | Response status _ _ (Ok data) =>
      if response_ok status then Some data else None
  | _ => None
  end.

(** The task the inner loop collects for a band of a window. *)
Definition task_of_band (config : SeederConfig.t) (refreshEveryDays : Z)
    (w : window) (band : Z * option Z) : new_task :=
  {| new_created_from := from w;
     new_created_to := to w;
     new_stars_min := Z.max (SeederConfig.starsMin config) band.1;
     new_stars_max := num_or_null band.2;
     new_pushed_after := SeederConfig.pushedAfter config;
     new_refresh_every_days := refreshEveryDays;
     new_status := ready |}.

(** The bands a run considers: those not wholly below the star floor. *)
Definition bands_of (config : SeederConfig.t) : list (Z * option Z) :=
  filter (λ band, band_skipped config band = false) DEFAULT_STAR_BANDS.

(** The tasks a run collects over its windows, given the signatures in the
    table, and the number of candidates it skips. *)
Definition fresh_tasks (config : SeederConfig.t) (refreshEveryDays : Z)
    (existingKeys : list task_key) (windows : list window) : list new_task :=
  windows ≫= λ w,
    task_of_band config refreshEveryDays w <$>
      filter (λ band, candidate_key config w band ∉ existingKeys)
        (bands_of config).

Definition stale_candidates (config : SeederConfig.t)
    (existingKeys : list task_key) (windows : list window)
    : list (window * (Z * option Z)) :=
  windows ≫= λ w,
    pair w <$>
      filter (λ band, candidate_key config w band ∈ existingKeys)
        (bands_of config).

(** The rows a batch insert adds: ids come from the sequence, in order. *)
Definition rows_of (seq : Z) (batch : list new_task) : list Task.t :=
  zip_with row_of_new_task (seqZ (seq + 1) (Z.of_nat (length batch))) batch.

(** The columns of [idx_github_repo_snapshots_repo_date]. *)
Definition snapshot_key (r : Snapshot.t) : Z * Z :=
  (Snapshot.repo_id r, Snapshot.captured_date r).

(** The constraints of the schema the handlers write under: the primary
    keys of the four tables and the unique index on snapshots, ids issued by
    the task sequence, and the two foreign keys to [github_repos]. *)
Definition schema_constraints (s : store) : Prop :=
  NoDup (Repo.repo_id <$> github_repos s) ∧
  NoDup (snapshot_key <$> github_repo_snapshots s) ∧
  NoDup (Task.id <$> github_search_tasks s) ∧
  (∀ id, id ∈ Task.id <$> github_search_tasks s →
         id <= github_search_tasks_id_seq s) ∧
  NoDup (Trend.repo_id <$> github_repo_trends s) ∧
  (∀ id, id ∈ Snapshot.repo_id <$> github_repo_snapshots s →
         id ∈ Repo.repo_id <$> github_repos s) ∧
  (∀ id, id ∈ Trend.repo_id <$> github_repo_trends s →
         id ∈ Repo.repo_id <$> github_repos s).

(** The tables a scoring pass reads and leaves as they are. *)
Definition scoring_frame (s0 s : store) : Prop :=
  github_repos s = github_repos s0 ∧
  github_repo_snapshots s = github_repo_snapshots s0 ∧
  github_search_tasks s = github_search_tasks s0.

(** Every lock is held by a call that has not committed yet. *)
Definition locks_held_by_running (st : system) : Prop :=
  ∀ rid i, db_locks st.1 !! rid = Some i →
    ∃ tx, st.2 !! i = Some tx ∧ tx_result tx = None.

(** The repositories received in the successful searches of a log. *)
Definition fetched (env : environment) (github : github_api)
    (log : list GitHubSearchParams) : list GitHubRepo.t :=
  log ≫= λ params,
    match (searchRepositories env github params).1 with
    | Ok response => items response
    | Err _ => []
    end.

(** Every received repository has its row, and a snapshot for the day of
    [clk] that carries the star count of a received item of that id. *)
Definition stored_today (clk : clock) (received : list GitHubRepo.t)
    (s : store) : Prop :=
  ∀ repo, repo ∈ received →
    (∃ r, r ∈ github_repos s ∧ Repo.repo_id r = GitHubRepo.id repo) ∧
    ∃ sn repo',
      sn ∈ github_repo_snapshots s ∧
      Snapshot.repo_id sn = GitHubRepo.id repo ∧
      Snapshot.captured_date sn = now_ms clk / ms_per_day ∧
      repo' ∈ received ∧ GitHubRepo.id repo' = GitHubRepo.id repo ∧
      Snapshot.stars_count sn = GitHubRepo.stargazers_count repo'.

(** The two unique indexes of [github_repos]: the primary key and
    [full_name]. *)
Definition repos_unique (s : store) : Prop :=
  NoDup (Repo.repo_id <$> github_repos s) ∧
  NoDup (Repo.full_name <$> github_repos s).

(** The repositories a search can receive. *)
Definition receivable (env : environment) (github : github_api)
    (repo : GitHubRepo.t) : Prop :=
  ∃ params response,
    (searchRepositories env github params).1 = Ok response ∧
    repo ∈ items response.

(** A full name stands for one repository id, among the repositories the
    remote returns and between them and the rows of [github_repos]: no
    upsert of a received repository meets its name under another id. *)
Definition names_agree (env : environment) (github : github_api)
    (s : store) : Prop :=
  (∀ a b, receivable env github a → receivable env github b →
     GitHubRepo.full_name a = GitHubRepo.full_name b →
     GitHubRepo.id a = GitHubRepo.id b) ∧
  (∀ r a, r ∈ github_repos s → receivable env github a →
     Repo.full_name r = GitHubRepo.full_name a →
     Repo.repo_id r = GitHubRepo.id a).

(** The searches a world has seen beyond the first [n0], with what they
    received stored. *)
Definition stores_fetched (env : environment) (github : github_api)
    (clk : clock) (n0 : nat) (w : world) : Prop :=
  (n0 ≤ length (searches w))%nat ∧
  stored_today clk (fetched env github (drop n0 (searches w))) (db w).

(** ** Further sample data *)

(** The same deployment without [GITHUB_TOKEN]. *)
Definition env_without_token : environment :=
  {| CRON_SECRET := Some "s3cret";
     GITHUB_TOKEN := None;
     GITHUB_SEARCH_DELAY_MS := None;
     DISCOVERY_MAX_TASKS_PER_RUN := None;
     DISCOVERY_MAX_PAGES_PER_TASK := None;
     DISCOVERY_CREATED_FROM := Some (mkDate 2026 11 1);
     DISCOVERY_PUSHED_AFTER := None;
     DISCOVERY_STARS_MIN := None |}.

(** The same deployment with [DISCOVERY_MAX_PAGES_PER_TASK=0]. *)
Definition env_without_page_budget : environment :=
  {| CRON_SECRET := Some "s3cret";
     GITHUB_TOKEN := Some "ghp_token";
     GITHUB_SEARCH_DELAY_MS := None;
     DISCOVERY_MAX_TASKS_PER_RUN := None;
     DISCOVERY_MAX_PAGES_PER_TASK := Some 0;
     DISCOVERY_CREATED_FROM := Some (mkDate 2026 11 1);
     DISCOVERY_PUSHED_AFTER := None;
     DISCOVERY_STARS_MIN := None |}.

(** Repository 7 had three stars twenty days ago and has five now. *)
Definition from_three_stars : list Snapshot.t :=
  [ sample_snapshot 7 (now_ms nov_2 - 20 * ms_per_day) 3;
    sample_snapshot 7 (now_ms nov_2) 5 ].

(** A store that knows repository 7 and these two snapshots. *)
Definition from_three_world (rpc : rpc_state) : world :=
  mkWorld
    (mkStore [ {| Repo.repo_id := 7; Repo.full_name := "owner/repo-7";
                  Repo.last_seen_at := now_ms nov_2 |} ]
       from_three_stars [] 0 [] [] rpc [])
    [].

(** A store in which the name of the second repository of the sample
    partitions belongs to repository 900, with one task ready at page 1. *)
Definition name_taken_world : world :=
  mkWorld
    (mkStore [ {| Repo.repo_id := 900; Repo.full_name := "owner/repo-2";
                  Repo.last_seen_at := 0 |} ]
       [] [sample_task 1 ready (Some 1) None] 1 [] [] RpcMissing [])
    [].

(** A remote that cannot be reached. *)
Definition unreachable : github_api :=
  λ _ _, NetworkError "connect ECONNREFUSED".

(** * Properties *)

(** ** The claim operation, one caller *)

(** The scan selects at most [n] rows, and only rows that pass the WHERE
    clause and are not locked. *)
Lemma select_claimed_length now locked n tbl :
  (length (select_claimed now locked n tbl) <= n)%nat.
Proof.
  revert n. induction tbl as [|t rest IH]; intros n; simpl; [lia|].
  destruct n as [|n']; simpl; [lia|].
  destruct (eligible now t && negb (bool_decide (Task.id t ∈ locked))); simpl.
  - specialize (IH n'). lia.
  - apply IH.
Qed.

Lemma select_claimed_elem now locked n tbl i :
  i ∈ select_claimed now locked n tbl →
  ∃ t, t ∈ tbl ∧ Task.id t = i ∧ eligible now t = true ∧ i ∉ locked.
Proof.
  revert n. induction tbl as [|t rest IH]; intros n; simpl.
  - intros H. by apply elem_of_nil in H.
  - destruct n as [|n']; [intros H; by apply elem_of_nil in H|].
    destruct (eligible now t) eqn:He; simpl.
    + case_bool_decide as Hl; simpl.
      * intros H. destruct (IH _ H) as (t' & ? & ? & ? & ?).
        exists t'. split_and!; auto. apply elem_of_cons; by right.
      * intros [->|H]%elem_of_cons.
        -- exists t. split_and!; auto. apply elem_of_cons; by left.
        -- destruct (IH _ H) as (t' & ? & ? & ? & ?).
           exists t'. split_and!; auto. apply elem_of_cons; by right.
    + intros H. destruct (IH _ H) as (t' & ? & ? & ? & ?).
      exists t'. split_and!; auto. apply elem_of_cons; by right.
Qed.

(** With a unique primary key, the UPDATE returns at most one row per
    selected id. *)
Lemma returning_claimed_length now claimed tbl :
  NoDup (Task.id <$> tbl) →
  (length (returning_claimed now claimed tbl) <= length claimed)%nat.
Proof.
  intros Hnd. unfold returning_claimed. rewrite length_fmap.
  rewrite <- (length_fmap Task.id (filter _ tbl)).
  apply submseteq_length, NoDup_submseteq.
  - induction tbl as [|t rest IH]; [constructor|].
    apply NoDup_cons in Hnd as [Hn Hnd].
    rewrite filter_cons. case_decide; [|by apply IH].
    rewrite fmap_cons. apply NoDup_cons. split; [|by apply IH].
    intros (t' & Heq & Hin)%list_elem_of_fmap. apply Hn.
    apply list_elem_of_fmap. exists t'. split; [done|].
    by apply list_elem_of_filter in Hin as [_ ?].
  - intros i (t & -> & Hin)%list_elem_of_fmap.
    by apply list_elem_of_filter in Hin as [? _].
Qed.

Lemma eligible_prior now o :
  eligible now o = true →
  Task.status o = ready ∨
  (Task.status o = done ∧
   (Task.last_completed_at o = None ∨
    ∃ completed days,
      Task.last_completed_at o = Some completed ∧
      Task.refresh_every_days o = Some days ∧
      completed < now - days * ms_per_day)).
Proof.
  unfold eligible, due. destruct (Task.status o); try discriminate; auto.
  intros H. right. split; [done|].
  destruct (Task.last_completed_at o) as [c|]; [|by left].
  destruct (Task.refresh_every_days o) as [d|]; [|discriminate].
  right. exists c, d. split_and!; auto. by apply Z.ltb_lt.
Qed.

(** C1. A claim by a single caller (no row locked by anyone else) returns at
    most [p_limit] rows; every returned row is in the table afterwards and
    stems from a row that was ['ready'], or ['done'] with
    [last_completed_at] null or older than [refresh_every_days] days before
    [now]; it is ['in_progress'], [last_started_at] is [now], [last_error]
    is null, and [page] is 1 if the row was ['done'] and the stored page if
    it was ['ready']. *)
Theorem claim_github_tasks_single_caller now (p_limit : Z) tbl rows tbl' :
  NoDup (Task.id <$> tbl) →
  claim_github_tasks now ∅ (Some p_limit) tbl = Ok (rows, tbl') →
  Z.of_nat (length rows) ≤ p_limit ∧
  ∀ r, r ∈ rows →
    r ∈ tbl' ∧
    ∃ o, o ∈ tbl ∧ Task.id o = Task.id r ∧
      (Task.status o = ready ∨
       (Task.status o = done ∧
        (Task.last_completed_at o = None ∨
         ∃ completed days,
           Task.last_completed_at o = Some completed ∧
           Task.refresh_every_days o = Some days ∧
           completed < now - days * ms_per_day))) ∧
      Task.status r = in_progress ∧
      Task.last_started_at r = Some now ∧
      Task.last_error r = None ∧
      (Task.status o = done → Task.page r = Some 1) ∧
      (Task.status o = ready → Task.page r = Task.page o).
Proof.
  intros Hnd. unfold claim_github_tasks, limit_rows.
  destruct (p_limit <? 0) eqn:Hneg; [discriminate|].
  apply Z.ltb_ge in Hneg. intros [= <- <-]. split.
  - pose proof (returning_claimed_length now
      (select_claimed now ∅ (Z.to_nat p_limit) tbl) tbl Hnd).
    pose proof (select_claimed_length now ∅ (Z.to_nat p_limit) tbl). lia.
  - intros r (o & -> & Hin)%list_elem_of_fmap.
    apply list_elem_of_filter in Hin as [Hc Ho]. split.
    + apply list_elem_of_fmap. exists o. split; [|done].
      by rewrite bool_decide_eq_true_2.
    + exists o. destruct (select_claimed_elem _ _ _ _ _ Hc)
        as (t & Ht & Hid & Hel & _).
      assert (t = o) as ->.
      { clear -Hnd Ht Ho Hid. induction tbl as [|a rest IH];
          [by apply elem_of_nil in Ht|].
        apply NoDup_cons in Hnd as [Ha Hnd].
        apply elem_of_cons in Ht as [->|Ht];
          apply elem_of_cons in Ho as [->|Ho]; auto.
        - exfalso. apply Ha, list_elem_of_fmap. by exists o.
        - exfalso. apply Ha, list_elem_of_fmap. by exists t. }
      split_and!; try done.
      * by apply eligible_prior.
      * simpl. by intros ->.
      * simpl. by intros ->.
Qed.

Lemma claim_github_tasks_single_caller_witness :
  let rows := returning_claimed (now_ms nov_2) [1; 2] sample_tasks in
  let tbl' := update_claimed (now_ms nov_2) [1; 2] sample_tasks in
  Z.of_nat (length rows) ≤ 3 ∧
  ∀ r, r ∈ rows →
    r ∈ tbl' ∧
    ∃ o, o ∈ sample_tasks ∧ Task.id o = Task.id r ∧
      (Task.status o = ready ∨
       (Task.status o = done ∧
        (Task.last_completed_at o = None ∨
         ∃ completed days,
           Task.last_completed_at o = Some completed ∧
           Task.refresh_every_days o = Some days ∧
           completed < now_ms nov_2 - days * ms_per_day))) ∧
      Task.status r = in_progress ∧
      Task.last_started_at r = Some (now_ms nov_2) ∧
      Task.last_error r = None ∧
      (Task.status o = done → Task.page r = Some 1) ∧
      (Task.status o = ready → Task.page r = Task.page o).
Proof.
  apply (claim_github_tasks_single_caller (now_ms nov_2) 3 sample_tasks).
  - apply (bool_decide_unpack _). vm_compute. exact I.
  - reflexivity.
Defined.

(** The finished-and-due task of the sample queue comes back with its
    cursor at 1, the fresh one with its stored cursor, and the others are
    left alone. *)
Example claim_sample_queue :
  ∃ tbl',
    claim_github_tasks (now_ms nov_2) ∅ (Some 3) sample_tasks
    = Ok ([ claim_row (now_ms nov_2) (sample_task 1 ready (Some 3) None);
            claim_row (now_ms nov_2)
              (sample_task 2 done (Some 4)
                 (Some (now_ms nov_2 - 10 * ms_per_day))) ], tbl')
    ∧ Task.page <$> tbl' = [Some 3; Some 1; Some 1; Some 2]
    ∧ Task.status <$> tbl' = [in_progress; in_progress; done; in_progress].
Proof. eexists. split; [reflexivity|]. split; reflexivity. Qed.

(** ** Claims that overlap in time *)

Lemma returning_claimed_elem now claimed tbl r :
  r ∈ returning_claimed now claimed tbl → Task.id r ∈ claimed.
Proof.
  unfold returning_claimed. intros (t & -> & Ht)%list_elem_of_fmap.
  by apply list_elem_of_filter in Ht as [? _].
Qed.

Lemma eligible_not_in_progress now row :
  eligible now row = true → Task.status row ≠ in_progress.
Proof. unfold eligible. by destruct (Task.status row). Qed.

(** The invariant holds before any call has moved. *)
Lemma initial_invariant tbl txs :
  (∀ tx, tx ∈ txs → tx_claimed tx = [] ∧ tx_result tx = None) →
  claims_invariant (initial tbl txs).
Proof.
  intros Hfresh. unfold claims_invariant, initial. cbn [fst snd].
  assert (∀ i tx rid, txs !! i = Some tx → rid ∈ tx_claimed tx → False) as Hno.
  { intros i tx rid Hi Hrid. apply list_elem_of_lookup_2 in Hi.
    destruct (Hfresh tx Hi) as [Hc _].
    rewrite Hc in Hrid. by apply elem_of_nil in Hrid. }
  split_and!.
  - intros i tx rid Hi _ Hrid. destruct (Hno i tx rid Hi Hrid).
  - intros i tx rid row Hi _ Hrid. destruct (Hno i tx rid Hi Hrid).
  - intros i j txi txj rid _ Hi _ Hrid. destruct (Hno i txi rid Hi Hrid).
  - intros i tx rows r Hi Hres Hr.
    apply list_elem_of_lookup_2 in Hi. destruct (Hfresh tx Hi) as [_ Hn].
    congruence.
Qed.

Lemma update_claimed_elem now claimed tbl row :
  row ∈ update_claimed now claimed tbl →
  ∃ t, t ∈ tbl ∧ Task.id t = Task.id row ∧
    ((row = t ∧ Task.id t ∉ claimed)
     ∨ (Task.id t ∈ claimed ∧ Task.status row = in_progress)).
Proof.
  unfold update_claimed. intros (t & -> & Ht)%list_elem_of_fmap.
  exists t. split; [done|]. case_bool_decide; simpl; auto.
Qed.

(** It survives the UPDATE-and-commit of a call: the rows the call selected
    become ['in_progress'] as its locks go. *)
Lemma commit_invariant d txs i tx :
  claims_invariant (d, txs) → txs !! i = Some tx → tx_result tx = None →
  claims_invariant ((commit_claim i tx d).1, <[i := (commit_claim i tx d).2]> txs).
Proof.
  intros (Hlock & Hdone & Hdisj & Hres) Hi Hrun. cbn [fst snd] in *.
  unfold claims_invariant, commit_claim. cbn [fst snd db_tasks db_locks].
  split_and!.
  - intros j txj rid Hj Hrunj Hrid.
    apply list_lookup_insert_Some in Hj as [(<- & <- & _)|[Hne Hj]];
      [discriminate|].
    apply map_lookup_filter_Some. split; [by eapply Hlock|]. simpl. congruence.
  - intros j txj rid row Hj Hfin Hrid Hrow Hid.
    apply update_claimed_elem in Hrow as (t & Ht & Hidt & [[-> Hnot]|[_ ?]]);
      [|done].
    apply list_lookup_insert_Some in Hj as [(<- & <- & _)|[Hne Hj]].
    + cbn [tx_claimed] in Hrid. congruence.
    + by eapply (Hdone j txj rid t).
  - intros j k txj txk rid Hne Hj Hk.
    assert (∀ l txl, <[i:=mkTx (tx_now tx) (tx_limit tx) (tx_pos tx) (tx_claimed tx)
                 (Some (returning_claimed (tx_now tx) (tx_claimed tx) (db_tasks d)))]>
              txs !! l = Some txl →
            ∃ txl', txs !! l = Some txl' ∧ tx_claimed txl = tx_claimed txl') as Hold.
    { intros l txl [(<- & <- & _)|[_ Hl]]%list_lookup_insert_Some; eauto. }
    apply Hold in Hj as (txj' & Hj & ->). apply Hold in Hk as (txk' & Hk & ->).
    by eapply Hdisj.
  - intros j txj rows r Hj Hrows Hr.
    apply list_lookup_insert_Some in Hj as [(<- & <- & _)|[Hne Hj]].
    + cbn [tx_result tx_claimed] in *. injection Hrows as <-.
      by eapply returning_claimed_elem.
    + by eapply Hres.
Qed.

(** Moving the scan on without selecting the row changes nothing that the
    invariant speaks of. *)
Lemma pass_invariant d txs i tx :
  claims_invariant (d, txs) → txs !! i = Some tx → tx_result tx = None →
  claims_invariant
    (d, <[i := mkTx (tx_now tx) (tx_limit tx) (S (tx_pos tx)) (tx_claimed tx) None]> txs).
Proof.
  intros (Hlock & Hdone & Hdisj & Hres) Hi Hrun. cbn [fst snd] in *.
  assert (∀ l txl,
            <[i := mkTx (tx_now tx) (tx_limit tx) (S (tx_pos tx)) (tx_claimed tx) None]>
              txs !! l = Some txl →
            ∃ txl', txs !! l = Some txl' ∧ tx_claimed txl = tx_claimed txl'
                    ∧ tx_result txl = tx_result txl') as Hold.
  { intros l txl [(<- & <- & _)|[_ Hl]]%list_lookup_insert_Some; eauto. }
  unfold claims_invariant. cbn [fst snd]. split_and!.
  - intros j txj rid (txj' & Hj & -> & ->)%Hold. by apply (Hlock j txj').
  - intros j txj rid row (txj' & Hj & -> & ->)%Hold. by apply (Hdone j txj').
  - intros j k txj txk rid Hne (txj' & Hj & -> & _)%Hold (txk' & Hk & -> & _)%Hold.
    by apply (Hdisj j k txj' txk').
  - intros j txj rows r (txj' & Hj & -> & ->)%Hold. by apply (Hres j txj').
Qed.

(** It survives a look at a row: a row that passes the WHERE clause and is
    not locked has been selected by nobody, in flight or committed. *)
Lemma scan_invariant d txs i tx row :
  claims_invariant (d, txs) → txs !! i = Some tx → tx_result tx = None →
  row ∈ db_tasks d →
  claims_invariant ((scan_row i tx row d).1, <[i := (scan_row i tx row d).2]> txs).
Proof.
  intros Hinv Hi Hrun Hrow. unfold scan_row.
  destruct (eligible (tx_now tx) row) eqn:Hel;
    [|by apply pass_invariant].
  destruct (db_locks d !! Task.id row) as [owner|] eqn:Hfree;
    [by apply pass_invariant|].
  destruct Hinv as (Hlock & Hdone & Hdisj & Hres). cbn [fst snd] in *.
  (* nobody else has selected this row *)
  assert (∀ j txj, j ≠ i → txs !! j = Some txj → Task.id row ∉ tx_claimed txj)
    as Hfresh.
  { intros j txj Hne Hj Hin. destruct (tx_result txj) as [rows|] eqn:Hresj.
    - apply (eligible_not_in_progress _ _ Hel).
      by apply (Hdone j txj (Task.id row) row).
    - rewrite (Hlock j txj (Task.id row) Hj Hresj Hin) in Hfree. discriminate. }
  unfold claims_invariant. cbn [fst snd db_tasks db_locks]. split_and!.
  - intros j txj rid Hj Hrunj Hrid.
    apply list_lookup_insert_Some in Hj as [(<- & <- & _)|[Hne Hj]].
    + cbn [tx_claimed] in Hrid.
      apply elem_of_app in Hrid as [Hrid| ->%list_elem_of_singleton].
      * destruct (decide (rid = Task.id row)) as [->|Hr].
        -- apply lookup_insert_eq.
        -- rewrite lookup_insert_ne by done. by apply (Hlock i tx).
      * apply lookup_insert_eq.
    + rewrite lookup_insert_ne.
      * by apply (Hlock j txj).
      * intros <-. by apply (Hfresh j txj).
  - intros j txj rid row' Hj Hfin Hrid Hrow' Hid.
    apply list_lookup_insert_Some in Hj as [(<- & <- & _)|[Hne Hj]].
    + by destruct Hfin.
    + by apply (Hdone j txj rid row').
  - intros j k txj txk rid Hne Hj Hk Hrid Hrid'.
    apply list_lookup_insert_Some in Hj as [(<- & <- & _)|[Hnej Hj]];
      apply list_lookup_insert_Some in Hk as [(<- & <- & _)|[Hnek Hk]];
      cbn [tx_claimed] in *.
    + done.
    + apply elem_of_app in Hrid as [Hrid| ->%list_elem_of_singleton].
      * by apply (Hdisj i k tx txk rid).
      * by apply (Hfresh k txk).
    + apply elem_of_app in Hrid' as [Hrid'| ->%list_elem_of_singleton].
      * by apply (Hdisj j i txj tx rid).
      * by apply (Hfresh j txj).
    + by apply (Hdisj j k txj txk rid).
  - intros j txj rows r Hj Hrows Hr.
    apply list_lookup_insert_Some in Hj as [(<- & <- & _)|[Hne Hj]].
    + discriminate.
    + by apply (Hres j txj rows).
Qed.

(** So it holds in every state that any schedule reaches. *)
Lemma schedule_step_invariant st i :
  claims_invariant st → claims_invariant (schedule_step st i).
Proof.
  intros Hinv. destruct st as [d txs]. unfold schedule_step. cbn [fst snd].
  destruct (txs !! i) as [tx|] eqn:Hi; [|done].
  destruct (tx_result tx) as [rows|] eqn:Hrun; [done|].
  unfold claim_step. case_decide.
  - destruct (db_tasks d !! tx_pos tx) as [row|] eqn:Hrow.
    + pose proof (scan_invariant d txs i tx row Hinv Hi Hrun
                    (list_elem_of_lookup_2 _ _ _ Hrow)) as H'.
      by destruct (scan_row i tx row d).
    + pose proof (commit_invariant d txs i tx Hinv Hi Hrun) as H'.
      by destruct (commit_claim i tx d).
  - pose proof (commit_invariant d txs i tx Hinv Hi Hrun) as H'.
    by destruct (commit_claim i tx d).
Qed.

Lemma run_invariant schedule st :
  claims_invariant st → claims_invariant (run schedule st).
Proof.
  revert st. induction schedule as [|i schedule IH]; intros st Hinv; [done|].
  apply IH. by apply schedule_step_invariant.
Qed.

Lemma claim_step_tasks_length i tx d :
  length (db_tasks (claim_step i tx d).1) = length (db_tasks d).
Proof.
  unfold claim_step, scan_row, commit_claim, update_claimed.
  repeat case_match; cbn [fst db_tasks]; by rewrite ?length_fmap.
Qed.

Lemma schedule_step_lengths st i :
  length (schedule_step st i).2 = length st.2 ∧
  length (db_tasks (schedule_step st i).1) = length (db_tasks st.1).
Proof.
  destruct st as [d txs]. unfold schedule_step. cbn [fst snd].
  destruct (txs !! i) as [tx|]; [|done].
  destruct (tx_result tx); [done|].
  pose proof (claim_step_tasks_length i tx d).
  destruct (claim_step i tx d) as [d' tx']. cbn [fst snd] in *.
  by rewrite length_insert.
Qed.

Lemma run_length schedule st : length (run schedule st).2 = length st.2.
Proof.
  revert st. induction schedule as [|i schedule IH]; intros st; [done|].
  simpl. rewrite IH. apply schedule_step_lengths.
Qed.

(** A step of another transaction does not hold [i] up, and a step of [i]
    itself always makes progress: no step waits. *)
Lemma schedule_step_steps_left st i j :
  (steps_left (schedule_step st j) i
   <= steps_left st i - (if decide (j = i) then 1 else 0))%nat.
Proof.
  pose proof (schedule_step_lengths st j) as [_ Hlen].
  destruct st as [d txs]. unfold steps_left, schedule_step in *.
  cbn [fst snd] in *.
  destruct (txs !! j) as [txj|] eqn:Hj; cbn [fst snd] in *.
  2:{ case_decide; [subst; rewrite Hj|]; lia. }
  destruct (tx_result txj) as [rows|] eqn:Hrun; cbn [fst snd] in *.
  { case_decide; [subst; rewrite Hj, Hrun|]; lia. }
  destruct (claim_step j txj d) as [d' tx'] eqn:Hstep. cbn [fst snd] in *.
  case_decide as Hji.
  - subst j. rewrite Hj, Hrun.
    rewrite list_lookup_insert_eq by (by eapply lookup_lt_Some).
    unfold claim_step in Hstep.
    assert (tx_result tx' = None →
            db_tasks d !! tx_pos txj ≠ None ∧ tx_pos tx' = S (tx_pos txj)) as Hscan.
    { revert Hstep. unfold scan_row, commit_claim.
      repeat case_match; intros [= <- <-]; cbn [tx_result tx_pos];
        try discriminate; intros _; split; congruence. }
    destruct (tx_result tx'); [lia|].
    destruct (Hscan eq_refl) as [Hrow ->].
    destruct (db_tasks d !! tx_pos txj) eqn:Hlook; [|done].
    apply lookup_lt_Some in Hlook. lia.
  - rewrite list_lookup_insert_ne by done.
    destruct (txs !! i) as [txi|]; [|lia].
    destruct (tx_result txi); lia.
Qed.

Lemma turns_cons i j schedule :
  turns i (j :: schedule)
  = ((if decide (j = i) then 1 else 0) + turns i schedule)%nat.
Proof. unfold turns. rewrite filter_cons. by case_decide. Qed.

Lemma run_steps_left schedule st i :
  (steps_left (run schedule st) i <= steps_left st i - turns i schedule)%nat.
Proof.
  revert st. induction schedule as [|j schedule IH]; intros st.
  - unfold run, turns. cbn [foldl filter list_filter length]. lia.
  - rewrite turns_cons. unfold run in *. cbn [foldl].
    specialize (IH (schedule_step st j)).
    pose proof (schedule_step_steps_left st i j). lia.
Qed.

Lemma select_claimed_zero now locked tbl : select_claimed now locked 0 tbl = [].
Proof. by destruct tbl. Qed.

Lemma run_cons i schedule st :
  run (i :: schedule) st = run schedule (schedule_step st i).
Proof. reflexivity. Qed.

Lemma schedule_step_alone d tx :
  tx_result tx = None →
  schedule_step (d, [tx]) 0 = ((claim_step 0 tx d).1, [(claim_step 0 tx d).2]).
Proof.
  intros Hrun. unfold schedule_step. cbn [fst snd lookup list_lookup].
  rewrite Hrun. by destruct (claim_step 0 tx d).
Qed.

Lemma run_finished k d tx rows :
  tx_result tx = Some rows →
  run (replicate k 0%nat) (d, [tx]) = (d, [tx]).
Proof.
  intros Hres. induction k as [|k IH]; [done|].
  cbn [replicate]. rewrite run_cons. unfold schedule_step at 1.
  cbn [fst snd lookup list_lookup]. by rewrite Hres.
Qed.

(** A claim that runs alone, resumed at row [p] with [c] selected so far,
    ends with the rows [select_claimed] picks from the rest of the table. *)
Lemma run_alone_from now limit tbl k :
  ∀ p c locks,
    (∀ rid, is_Some (locks !! rid) → rid ∈ c) →
    (∀ row, row ∈ drop p tbl → Task.id row ∉ c) →
    NoDup (Task.id <$> drop p tbl) →
    (length tbl - p < k)%nat →
    let claimed :=
      c ++ select_claimed now ∅ (limit - length c) (drop p tbl) in
    ∃ p' locks',
      run (replicate k 0%nat) (mkDatabase tbl locks, [mkTx now limit p c None])
      = (mkDatabase (update_claimed now claimed tbl) locks',
         [mkTx now limit p' claimed (Some (returning_claimed now claimed tbl))]).
Proof.
  induction k as [|k IH]; intros p c locks Hlocks Hrest Hnd Hk; [lia|].
  cbn [replicate]. rewrite run_cons, schedule_step_alone by done.
  unfold claim_step. cbn [tx_claimed tx_limit tx_pos db_tasks].
  case_decide as Hlim.
  - destruct (tbl !! p) as [row|] eqn:Hrow.
    + pose proof (lookup_lt_Some _ _ _ Hrow) as Hp.
      rewrite (drop_S _ _ _ Hrow) in *. rewrite fmap_cons in Hnd.
      apply NoDup_cons in Hnd as [Hfresh Hnd].
      destruct (limit - length c)%nat as [|n] eqn:Hn; [lia|].
      cbn [select_claimed]. unfold scan_row. cbn [tx_now tx_limit tx_pos tx_claimed].
      destruct (eligible now row) eqn:Hel; cbn [andb].
      * assert (locks !! Task.id row = None) as Hfree.
        { destruct (locks !! Task.id row) eqn:Hl; [|done].
          exfalso. apply (Hrest row); [apply elem_of_cons; by left|].
          apply Hlocks. by rewrite Hl. }
        cbn [db_locks]. rewrite Hfree.
        rewrite bool_decide_eq_false_2 by set_solver. cbn [negb].
        cbn [fst snd].
        destruct (IH (S p) (c ++ [Task.id row]) (<[Task.id row := 0%nat]> locks))
          as (p' & locks' & Hrun).
        -- intros rid [o Ho]. apply elem_of_app.
           destruct (decide (rid = Task.id row)) as [->|Hne].
           ++ right. by apply list_elem_of_singleton.
           ++ left. apply Hlocks. rewrite lookup_insert_ne in Ho by done. by eexists.
        -- intros r Hr [Hc|Heq%list_elem_of_singleton]%elem_of_app.
           ++ apply (Hrest r); [apply elem_of_cons; by right|done].
           ++ apply Hfresh. rewrite <- Heq. by apply list_elem_of_fmap_2.
        -- done.
        -- lia.
        -- exists p', locks'. rewrite length_app in Hrun. cbn [length] in Hrun.
           replace (limit - (length c + 1))%nat with n in Hrun by lia.
           rewrite <- app_assoc in Hrun. exact Hrun.
      * cbn [fst snd].
        destruct (IH (S p) c locks) as (p' & locks' & Hrun).
        -- done.
        -- intros r Hr. apply Hrest. apply elem_of_cons. by right.
        -- done.
        -- lia.
        -- exists p', locks'. rewrite Hn in Hrun. exact Hrun.
    + apply lookup_ge_None in Hrow. rewrite (drop_ge _ _ Hrow).
      replace (select_claimed now ∅ (limit - length c) []) with (@nil Z)
        by (by destruct (limit - length c)%nat).
      rewrite app_nil_r. unfold commit_claim.
      cbn [fst snd tx_now tx_limit tx_pos tx_claimed db_tasks db_locks].
      eexists _, _. by eapply run_finished.
  - replace (limit - length c)%nat with 0%nat by lia.
    rewrite select_claimed_zero, app_nil_r. unfold commit_claim.
    cbn [fst snd tx_now tx_limit tx_pos tx_claimed db_tasks db_locks].
    eexists _, _. by eapply run_finished.
Qed.

(** X1. A call that runs alone in the interleaving model, with one turn per
    row and one more, commits exactly the result set and the table that
    [claim_github_tasks] computes, given a unique primary key. *)
Lemma claim_alone now limit tbl :
  NoDup (Task.id <$> tbl) →
  ∃ p locks rows tbl',
    claim_github_tasks now ∅ (Some (Z.of_nat limit)) tbl = Ok (rows, tbl') ∧
    run (replicate (S (length tbl)) 0%nat) (initial tbl [start_claim now limit])
    = (mkDatabase tbl' locks,
       [mkTx now limit p (select_claimed now ∅ limit tbl) (Some rows)]).
Proof.
  intros Hnd.
  destruct (run_alone_from now limit tbl (S (length tbl)) 0%nat [] ∅)
    as (p & locks & Hrun).
  - intros rid [o Ho]. by rewrite lookup_empty in Ho.
  - intros row _ []%elem_of_nil.
  - done.
  - lia.
  - exists p, locks. eexists _, _. split.
    + unfold claim_github_tasks, limit_rows.
      replace (Z.of_nat limit <? 0) with false by (symmetry; apply Z.ltb_ge; lia).
      rewrite Nat2Z.id. reflexivity.
    + cbn in Hrun. rewrite Nat.sub_0_r in Hrun. exact Hrun.
Qed.

Lemma claim_alone_witness :
  ∃ p locks rows tbl',
    claim_github_tasks (now_ms nov_2) ∅ (Some (Z.of_nat 3)) sample_tasks
    = Ok (rows, tbl') ∧
    run (replicate (S (length sample_tasks)) 0%nat)
      (initial sample_tasks [start_claim (now_ms nov_2) 3])
    = (mkDatabase tbl' locks,
       [mkTx (now_ms nov_2) 3 p (select_claimed (now_ms nov_2) ∅ 3 sample_tasks)
          (Some rows)]).
Proof.
  apply (claim_alone (now_ms nov_2) 3 sample_tasks).
  apply (bool_decide_unpack _). vm_compute. exact I.
Defined.

(** Two claims over the sample queue, taking turns: the first, limited to
    one row, gets task 1; the second finds task 1 locked, passes it and gets
    task 2. *)
Example interleaved_claims_of_sample_queue :
  let st := run [0; 1; 0; 1; 0; 1; 0; 1; 0; 1]%nat
              (initial sample_tasks
                 [start_claim (now_ms nov_2) 1; start_claim (now_ms nov_2) 3]) in
  (λ tx, Task.id <$> default [] (tx_result tx)) <$> st.2 = [[1]; [2]] ∧
  Task.status <$> db_tasks st.1 = [in_progress; in_progress; done; in_progress].
Proof. vm_compute. split; reflexivity. Qed.

(** C2. Two claims that overlap in time, interleaved in any way from a
    table with no lock held: at every moment no task id is selected by
    both, so the two result sets share no task id; each claim finishes once
    it has had one turn per row and one more, whatever the other does; and
    a claim that finds a row locked passes it within that same step. *)
Theorem concurrent_claims_never_share_a_task tbl nowA limitA nowB limitB schedule :
  let st := run schedule
              (initial tbl [start_claim nowA limitA; start_claim nowB limitB]) in
  ∃ a b, st.2 = [a; b] ∧
    (∀ rid, rid ∈ tx_claimed a → rid ∉ tx_claimed b) ∧
    (∀ rows_a rows_b r r',
       tx_result a = Some rows_a → tx_result b = Some rows_b →
       r ∈ rows_a → r' ∈ rows_b → Task.id r ≠ Task.id r') ∧
    ((length tbl < turns 0 schedule)%nat → is_Some (tx_result a)) ∧
    ((length tbl < turns 1 schedule)%nat → is_Some (tx_result b)) ∧
    (∀ i tx row d owner,
       db_locks d !! Task.id row = Some owner →
       scan_row i tx row d
       = (d, mkTx (tx_now tx) (tx_limit tx) (S (tx_pos tx)) (tx_claimed tx) None)).
Proof.
  intros st.
  assert (claims_invariant st) as (_ & _ & Hdisj & Hres).
  { apply run_invariant, initial_invariant.
    intros tx [->|[->|[]%elem_of_nil]%elem_of_cons]%elem_of_cons; done. }
  pose proof (run_length schedule
                (initial tbl [start_claim nowA limitA; start_claim nowB limitB]))
    as Hlen.
  pose proof (run_steps_left schedule
                (initial tbl [start_claim nowA limitA; start_claim nowB limitB])
                0%nat) as HleftA.
  pose proof (run_steps_left schedule
                (initial tbl [start_claim nowA limitA; start_claim nowB limitB])
                1%nat) as HleftB.
  change (run schedule _) with st in Hlen, HleftA, HleftB.
  unfold steps_left in HleftA, HleftB. cbn in Hlen, HleftA, HleftB.
  clearbody st. destruct st as [d txs]. cbn [fst snd] in *.
  destruct txs as [|a [|b [|c rest]]]; cbn [length] in Hlen; try lia.
  exists a, b. split; [done|]. split_and!.
  - intros rid. by apply (Hdisj 0%nat 1%nat a b rid).
  - intros rows_a rows_b r r' Ha Hb Hr Hr' Heq.
    apply (Hdisj 0%nat 1%nat a b (Task.id r)); [done..| |].
    + by apply (Hres 0%nat a rows_a).
    + rewrite Heq. by apply (Hres 1%nat b rows_b).
  - intros Hturns. cbn in HleftA. destruct (tx_result a); [done|]. lia.
  - intros Hturns. cbn in HleftB. destruct (tx_result b); [done|]. lia.
  - intros i tx row d' owner Hlocked. unfold scan_row. rewrite Hlocked.
    by destruct (eligible (tx_now tx) row).
Qed.

(** ** The search client *)

Lemma requests_of_app (xs ys : list client_event) :
  requests_of (xs ++ ys) = (requests_of xs + requests_of ys)%nat.
Proof.
  induction xs as [|[a|ms] xs IH]; simpl; [done| |done]. by rewrite IH.
Qed.

(** A call never issues more requests than the attempt ceiling. *)
Lemma retry_loop_requests delay api remaining :
  (requests_of (retry_loop delay api remaining).2 <= remaining)%nat.
Proof.
  induction remaining as [|n IH]; [simpl; lia|].
  cbn [retry_loop].
  generalize dependent (retry_loop delay api n). intros next IH.
  generalize (maxAttempts - Z.of_nat (S n)). intros attempt.
  assert (requests_of (if 0 <? attempt then [Sleep delay] else []) = O) as Hb
    by (by case_match).
  assert (∀ message, requests_of (on_catch attempt message next).2 <= n)%nat
    as Hcatch.
  { intros message. unfold on_catch.
    destruct (attempt =? maxAttempts - 1); simpl; lia. }
  destruct (api (Z.to_nat attempt)) as [msg|status ra text json].
  - specialize (Hcatch msg). destruct (on_catch attempt msg next) as [o ev].
    cbn [snd] in *. rewrite requests_of_app, Hb. simpl. lia.
  - destruct ((status =? 403) || (status =? 429)).
    { cbn [snd]. rewrite requests_of_app, Hb. simpl. lia. }
    destruct (negb (response_ok status)).
    { match goal with |- context [on_catch attempt ?m next] =>
        specialize (Hcatch m); destruct (on_catch attempt m next) as [o ev] end.
      cbn [snd] in *. rewrite requests_of_app, Hb. simpl. lia. }
    destruct json as [data|parse_error].
    + cbn [snd]. rewrite requests_of_app, Hb. simpl.
      destruct (attempt =? 0); simpl; lia.
    + match goal with |- context [on_catch attempt ?m next] =>
        specialize (Hcatch m); destruct (on_catch attempt m next) as [o ev] end.
      cbn [snd] in *. rewrite requests_of_app, Hb. simpl. lia.
Qed.

Lemma searchRepositories_requests env github params :
  (requests_of (searchRepositories env github params).2 <= 5)%nat.
Proof. apply (retry_loop_requests _ _ 5). Qed.

(** One iteration of the loop. *)
Lemma retry_loop_iteration delay api remaining :
  retry_loop delay api (S remaining)
  = let attempt := maxAttempts - Z.of_nat (S remaining) in
    let next := retry_loop delay api remaining in
    let handled :=
      match api (Z.to_nat attempt) with
      | NetworkError message => on_catch attempt message next
      | Response status retry_after text json =>
          if (status =? 403) || (status =? 429) then
            (next.1, Sleep (default (2 ^ attempt * 2) retry_after * 1000) :: next.2)
          else if negb (response_ok status) then
            on_catch attempt
              ("GitHub API error " +:+ pretty status +:+ ": " +:+ text) next
          else
            match json with
            | Err message => on_catch attempt message next
            | Ok data => (Ok data, if attempt =? 0 then [Sleep delay] else [])
            end
      end in
    (handled.1,
     (if 0 <? attempt then [Sleep delay] else []) ++ Request attempt :: handled.2).
Proof.
  cbv zeta. cbn [retry_loop].
  by destruct (match api _ with NetworkError _ => _ | Response _ _ _ _ => _ end).
Qed.

(** Every iteration of the loop sends a request. *)
Lemma retry_loop_sends delay api remaining :
  (1 <= requests_of (retry_loop delay api (S remaining)).2)%nat.
Proof.
  rewrite retry_loop_iteration. cbv zeta. cbn [snd].
  rewrite requests_of_app. cbn [requests_of]. lia.
Qed.

(** Any response that is neither a success nor a rate limit, given to the
    first request, is followed by a second request. *)
Lemma other_error_status_is_retried env github params status retry_after text json :
  github (url_params params) 0%nat = Response status retry_after text json →
  response_ok status = false → status ≠ 403 → status ≠ 429 →
  (2 <= requests_of (searchRepositories env github params).2)%nat.
Proof.
  intros Hfirst Hok H403 H429. unfold searchRepositories.
  change (Z.to_nat maxAttempts) with 5%nat. rewrite retry_loop_iteration.
  cbv zeta. change (maxAttempts - Z.of_nat 5) with 0.
  change (Z.to_nat 0) with 0%nat. rewrite Hfirst, Hok.
  replace (status =? 403) with false by (symmetry; by apply Z.eqb_neq).
  replace (status =? 429) with false by (symmetry; by apply Z.eqb_neq).
  cbn [orb negb]. unfold on_catch.
  change (0 =? maxAttempts - 1) with false. cbn iota. cbn [snd].
  pose proof (retry_loop_sends (DEFAULT_DELAY_MS env) (github (url_params params)) 3).
  rewrite requests_of_app. cbn [requests_of]. lia.
Qed.

(** C4. A response with status 500 is not fatal: the error thrown for it
    inside the [try] block is caught by the loop's own [catch], which backs
    off and sends the request again; here the second request succeeds and
    the call returns its data. *)
Theorem searchRepositories_retries_server_error :
  searchRepositories sample_env failing_once
    (task_params (sample_task 1 in_progress (Some 1) None) 1)
  = (Ok {| total_count := 0; incomplete_results := false; items := [] |},
     [Request 0; Sleep 2000; Sleep 2100; Request 1]).
Proof. reflexivity. Qed.

(** When the server error persists, the body reaches the caller only after
    the fifth request. *)
Lemma searchRepositories_persistent_server_error :
  let outcome :=
    searchRepositories sample_env (λ _ _, Response 500 None "boom" (Err not_json))
      (task_params (sample_task 1 in_progress (Some 1) None) 1) in
  outcome.1 = Err "GitHub API error 500: boom" ∧ requests_of outcome.2 = 5%nat.
Proof. split; reflexivity. Qed.

(** Rate-limit responses and transport failures end in an error after five
    requests. *)
Lemma searchRepositories_rate_limited_forever env params retry_after text json :
  let outcome :=
    searchRepositories env (λ _ _, Response 429 retry_after text json) params in
  outcome.1 = Err "Max retry attempts reached" ∧ requests_of outcome.2 = 5%nat.
Proof. split; reflexivity. Qed.

Lemma searchRepositories_network_down env params message :
  let outcome := searchRepositories env (λ _ _, NetworkError message) params in
  outcome.1 = Err message ∧ requests_of outcome.2 = 5%nat.
Proof. split; reflexivity. Qed.

(** ** The trigger's shared secret *)

(** C9. With [CRON_SECRET] unset, both endpoints answer 401 whatever
    [secret] the caller sends, and the world is left exactly as it was: no
    request has reached the store or the remote API. *)
Theorem unset_secret_is_unauthorized env github clk secret w :
  CRON_SECRET env = None →
  discover_GET env github clk secret w = (unauthorized, w) ∧
  score_GET env clk secret w = (unauthorized, w) ∧
  http_status unauthorized = 401.
Proof.
  intros Hunset. unfold discover_GET, score_GET, auth_fails.
  rewrite Hunset. simpl. done.
Qed.

Lemma unset_secret_is_unauthorized_witness :
  discover_GET env_without_secret (partition_of 350) nov_2 (Some "s3cret")
    (world_with sample_tasks) = (unauthorized, world_with sample_tasks) ∧
  score_GET env_without_secret nov_2 (Some "s3cret") (world_with sample_tasks)
    = (unauthorized, world_with sample_tasks) ∧
  http_status unauthorized = 401.
Proof.
  apply (unset_secret_is_unauthorized env_without_secret (partition_of 350)
           nov_2 (Some "s3cret") (world_with sample_tasks)).
  reflexivity.
Defined.

(** A request that passes the check does reach the store. *)
Example authorized_discovery_log :
  requests (db (discover_GET sample_env (partition_of 0) nov_2 (Some "s3cret")
                  (world_with sample_tasks)).2)
  = [SelectTasksLimit1; RpcClaimTasks 3; UpdateTask 1; UpdateTask 2;
     InsertRun "github-discover"].
Proof. vm_compute. reflexivity. Qed.

(** ** The seeder *)

Lemma key_of_inserted_row id n : key_of_row (row_of_new_task id n) = key_of_new n.
Proof. reflexivity. Qed.

Lemma insert_rows_keys batch s :
  key_of_row <$> github_search_tasks (insert_rows batch s)
  = (key_of_row <$> github_search_tasks s) ++ (key_of_new <$> batch).
Proof.
  revert s. induction batch as [|n rest IH]; intros s; simpl.
  - by rewrite app_nil_r.
  - rewrite IH. simpl. rewrite fmap_app. simpl. by rewrite <- app_assoc.
Qed.

Lemma insert_batches_keys fuel pending created s :
  (length pending <= fuel)%nat →
  key_of_row <$> github_search_tasks (insert_batches fuel pending created s).2
  = (key_of_row <$> github_search_tasks s) ++ (key_of_new <$> pending).
Proof.
  revert pending created s.
  induction fuel as [|fuel IH]; intros pending created s Hlen.
  - destruct pending; [|simpl in Hlen; lia]. simpl. by rewrite app_nil_r.
  - destruct pending as [|n rest]; [simpl; by rewrite app_nil_r|].
    cbn [insert_batches]. rewrite IH.
    + unfold insert_tasks. rewrite insert_rows_keys. cbn [github_search_tasks sent].
      rewrite <- app_assoc, <- fmap_app, take_drop. done.
    + rewrite length_drop. unfold batchSize. simpl in *. lia.
Qed.

(** One band of one window, by cases. *)
Lemma seed_band_cases config refresh existingKeys w acc band :
  seed_band config refresh existingKeys w acc band
  = if band_skipped config band then acc
    else if bool_decide (candidate_key config w band ∈ existingKeys)
         then (acc.1, acc.2 + 1)
         else (acc.1 ++
                 [ {| new_created_from := from w;
                      new_created_to := to w;
                      new_stars_min := Z.max (SeederConfig.starsMin config) band.1;
                      new_stars_max := num_or_null band.2;
                      new_pushed_after := SeederConfig.pushedAfter config;
                      new_refresh_every_days := refresh;
                      new_status := ready |} ],
               acc.2).
Proof. destruct acc as [tasks skipped]. reflexivity. Qed.

(** When every candidate is an existing signature, nothing is collected. *)
Lemma seed_window_nothing_new config refresh existingKeys w bands acc :
  (∀ band, band ∈ bands → band_skipped config band = false →
     candidate_key config w band ∈ existingKeys) →
  (foldl (seed_band config refresh existingKeys w) acc bands).1 = acc.1.
Proof.
  revert acc. induction bands as [|band bands IH]; intros acc Hall; [done|].
  simpl. rewrite IH.
  - rewrite seed_band_cases. destruct (band_skipped config band) eqn:Hs; [done|].
    rewrite bool_decide_eq_true_2; [done|].
    apply Hall; [apply elem_of_cons; by left|done].
  - intros b Hb. apply Hall. apply elem_of_cons. by right.
Qed.

Lemma seed_windows_nothing_new config refresh existingKeys windows acc :
  (∀ w band, w ∈ windows → band ∈ DEFAULT_STAR_BANDS →
     band_skipped config band = false →
     candidate_key config w band ∈ existingKeys) →
  (foldl (seed_window config refresh existingKeys) acc windows).1 = acc.1.
Proof.
  revert acc. induction windows as [|w windows IH]; intros acc Hall; [done|].
  simpl. rewrite IH.
  - unfold seed_window. apply seed_window_nothing_new.
    intros band Hb. apply Hall; [apply elem_of_cons; by left|done].
  - intros w' band Hw'. apply Hall. apply elem_of_cons. by right.
Qed.

Lemma seed_band_keeps config refresh existingKeys w acc band key :
  key ∈ key_of_new <$> acc.1 →
  key ∈ key_of_new <$> (seed_band config refresh existingKeys w acc band).1.
Proof.
  intros Hin. rewrite seed_band_cases.
  destruct (band_skipped config band); [done|].
  case_bool_decide; [done|]. cbn [fst]. rewrite fmap_app.
  apply elem_of_app. by left.
Qed.

Lemma seed_band_covers config refresh existingKeys w acc band :
  band_skipped config band = false →
  candidate_key config w band ∈ existingKeys
  ∨ candidate_key config w band
      ∈ key_of_new <$> (seed_band config refresh existingKeys w acc band).1.
Proof.
  intros Hs. rewrite seed_band_cases, Hs.
  case_bool_decide; [by left|]. right. cbn [fst]. rewrite fmap_app.
  apply elem_of_app. right. apply list_elem_of_singleton. reflexivity.
Qed.

Lemma seed_bands_cover config refresh existingKeys w bands acc key :
  key ∈ key_of_new <$> acc.1
  ∨ (∃ band, band ∈ bands ∧ band_skipped config band = false
             ∧ key = candidate_key config w band) →
  key ∈ existingKeys
  ∨ key ∈ key_of_new <$> (foldl (seed_band config refresh existingKeys w) acc bands).1.
Proof.
  revert acc. induction bands as [|band bands IH]; intros acc; simpl.
  - intros [?|(b & Hb & _)]; [by right|]. by apply elem_of_nil in Hb.
  - intros [Hin|(b & Hb & Hs & ->)].
    + apply IH. left. by apply seed_band_keeps.
    + apply elem_of_cons in Hb as [->|Hb].
      * destruct (seed_band_covers config refresh existingKeys w acc band Hs)
          as [?|?]; [by left|].
        apply IH. by left.
      * apply IH. right. by exists b.
Qed.

Lemma seed_windows_cover config refresh existingKeys windows acc key :
  key ∈ key_of_new <$> acc.1
  ∨ (∃ w band, w ∈ windows ∧ band ∈ DEFAULT_STAR_BANDS
               ∧ band_skipped config band = false
               ∧ key = candidate_key config w band) →
  key ∈ existingKeys
  ∨ key ∈ key_of_new <$> (foldl (seed_window config refresh existingKeys) acc windows).1.
Proof.
  revert acc. induction windows as [|w windows IH]; intros acc; simpl.
  - intros [?|(w & b & Hw & _)]; [by right|]. by apply elem_of_nil in Hw.
  - intros [Hin|(w' & b & Hw & Hb & Hs & ->)].
    + destruct (seed_bands_cover config refresh existingKeys w DEFAULT_STAR_BANDS
                  acc key (or_introl Hin)) as [?|?]; [by left|].
      apply IH. by left.
    + apply elem_of_cons in Hw as [->|Hw].
      * destruct (seed_bands_cover config refresh existingKeys w DEFAULT_STAR_BANDS
                    acc (candidate_key config w b)) as [?|?]; [|by left|].
        { right. by exists b. }
        apply IH. by left.
      * apply IH. right. by exists w', b.
Qed.

(** After a run, every candidate of that run is a signature in the table. *)
Lemma seedTasks_covers clk config s w band :
  w ∈ generateMonthlyWindows (today clk) (SeederConfig.createdFrom config) →
  band ∈ DEFAULT_STAR_BANDS →
  band_skipped config band = false →
  candidate_key config w band
    ∈ key_of_row <$> github_search_tasks (seedTasks clk config s).2.
Proof.
  intros Hw Hb Hs. unfold seedTasks.
  set (refresh := default 7 _).
  set (existingKeys := key_of_row <$> github_search_tasks (sent SelectTaskKeys s)).
  pose proof (seed_windows_cover config refresh existingKeys
                (generateMonthlyWindows (today clk) (SeederConfig.createdFrom config))
                ([], 0) (candidate_key config w band)) as Hcover.
  destruct (foldl _ _ _) as [tasksToInsert skipped].
  pose proof (insert_batches_keys (length tasksToInsert) tasksToInsert 0
                (sent SelectTaskKeys s) (le_n _)) as Hkeys.
  destruct (insert_batches _ _ _ _) as [created s2]. cbn [snd fst] in *.
  rewrite Hkeys. apply elem_of_app.
  destruct Hcover as [?|?]; [|by left|by right].
  right. by exists w, band.
Qed.

(** C8 (amended). A second run with the same configuration on the same
    calendar day, against the store the first run left, inserts nothing: it
    reports zero created tasks and leaves the task table as it was. *)
Theorem seedTasks_twice_same_day clk1 clk2 config s :
  today clk1 = today clk2 →
  let s1 := (seedTasks clk1 config s).2 in
  (seedTasks clk2 config s1).1.1 = 0 ∧
  github_search_tasks (seedTasks clk2 config s1).2 = github_search_tasks s1.
Proof.
  intros Hday s1. unfold seedTasks at 1 2.
  set (refresh := default 7 _).
  set (existingKeys := key_of_row <$> github_search_tasks (sent SelectTaskKeys s1)).
  pose proof (seed_windows_nothing_new config refresh existingKeys
                (generateMonthlyWindows (today clk2) (SeederConfig.createdFrom config))
                ([], 0)) as Hnone.
  destruct (foldl _ _ _) as [tasksToInsert skipped]. cbn [fst] in Hnone.
  rewrite Hnone.
  - simpl. done.
  - intros w band Hw Hb Hs. unfold existingKeys. cbn [github_search_tasks sent].
    unfold s1. apply seedTasks_covers; [by rewrite Hday|done|done].
Qed.

Lemma seedTasks_twice_same_day_witness :
  let s1 := (seedTasks nov_2 sample_config empty_store).2 in
  (seedTasks nov_2 sample_config s1).1.1 = 0 ∧
  github_search_tasks (seedTasks nov_2 sample_config s1).2 = github_search_tasks s1.
Proof.
  apply (seedTasks_twice_same_day nov_2 nov_2 sample_config empty_store).
  reflexivity.
Defined.

(** C8 as stated fails when the day changes between the runs: the window
    of the current month ends today, so the next day's candidates for that
    month have new signatures, and the second run inserts six tasks. *)
Lemma seedTasks_next_day_inserts_again :
  let s1 := (seedTasks nov_2 sample_config empty_store).2 in
  let second := seedTasks nov_3 sample_config s1 in
  second.1.1 = 6 ∧ second.1.1 ≠ 0 ∧
  length (github_search_tasks s1) = 6%nat ∧
  length (github_search_tasks second.2) = 12%nat.
Proof. vm_compute. split_and!; [reflexivity|discriminate|reflexivity|reflexivity]. Qed.

(** The first run on an empty table reports what it inserted. *)
Example seedTasks_first_run :
  (seedTasks nov_2 sample_config empty_store).1 = (6, 0) ∧
  (seedTasks nov_2 sample_config (seedTasks nov_2 sample_config empty_store).2).1
  = (0, 6).
Proof. split; reflexivity. Qed.

(** ** The page budget and the claim predicate *)

Lemma in_progress_not_eligible now t :
  Task.status t = in_progress → eligible now t = false.
Proof. unfold eligible. by intros ->. Qed.

Lemma select_claimed_none now locked n tbl :
  (∀ t, t ∈ tbl → eligible now t = false) →
  select_claimed now locked n tbl = [].
Proof.
  revert n. induction tbl as [|t rest IH]; intros n Hno; [done|].
  destruct n as [|n']; [done|]. simpl.
  rewrite (Hno t) by (apply elem_of_cons; by left). simpl.
  apply IH. intros t' Ht'. apply Hno, elem_of_cons. by right.
Qed.

(** Whenever the page loop ends with a next page, the row is written back
    as ['in_progress'], and such a row fails the claim predicate. *)
Lemma newStatus_with_next_page p next :
  needsSplit p = false → nextPage p = Some next → newStatus p = in_progress.
Proof. unfold newStatus. by intros -> ->. Qed.

Lemma advanced_cursor_row_not_eligible clk next error t now :
  eligible now (updated_task clk in_progress (Some next) error t) = false.
Proof. reflexivity. Qed.

(** C3. A ready task at page 1 of a partition with 350 results is claimed
    and processed under the default budget of three pages: pages 1 to 3 are
    fetched and the cursor is stored as 4, but the row is written back as
    ['in_progress']. That row fails the claim predicate at every later time,
    so no later claim returns it. *)
Theorem exhausted_budget_task_is_never_reclaimed :
  let w0 := world_with [sample_task 1 ready (Some 1) None] in
  let w1 := (discover_GET sample_env (partition_of 350) nov_2 (Some "s3cret") w0).2 in
  page <$> searches w1 = [Some 1; Some 2; Some 3] ∧
  ∃ t, github_search_tasks (db w1) = [t] ∧
    Task.status t = in_progress ∧
    Task.page t = Some 4 ∧
    Task.last_error t = None ∧
    ∀ now, eligible now t = false ∧
      ∀ p_limit rows tbl',
        claim_github_tasks now ∅ p_limit (github_search_tasks (db w1))
        = Ok (rows, tbl') → rows = [].
Proof.
  intros w0 w1.
  assert (github_search_tasks (db w1)
          = [updated_task nov_2 in_progress (Some 4) None
               (claim_row (now_ms nov_2) (sample_task 1 ready (Some 1) None))])
    as Htasks by (vm_compute; reflexivity).
  split; [vm_compute; reflexivity|].
  eexists. split; [exact Htasks|]. split_and!; try reflexivity.
  intros now. split; [reflexivity|].
  intros p_limit rows tbl'. rewrite Htasks. unfold claim_github_tasks.
  destruct (limit_rows p_limit _) as [n|e]; [|discriminate].
  rewrite select_claimed_none.
  - by intros [= <- <-].
  - intros t ->%list_elem_of_singleton. reflexivity.
Qed.

(** ** Crawling a partition *)

Lemma page_items_length k p :
  Z.of_nat (length (page_items k p 100)) = Z.max 0 (Z.min 100 (k - 100 * (p - 1))).
Proof. unfold page_items. rewrite length_fmap, length_seq. lia. Qed.

Lemma search_partition env k task p :
  1 ≤ p →
  (searchRepositories env (partition_of k) (task_params task p)).1
  = Ok {| total_count := k; incomplete_results := false;
          items := page_items k p 100 |}.
Proof.
  intros Hp. unfold searchRepositories, url_params, partition_of. simpl.
  destruct p; try lia. reflexivity.
Qed.

Lemma upsert_elem {A} (conflicts : A → bool) (row : A) (tbl : list A) x :
  x ∈ upsert conflicts row tbl → x = row ∨ x ∈ tbl.
Proof.
  induction tbl as [|r rest IH]; simpl.
  - intros ->%list_elem_of_singleton. by left.
  - destruct (conflicts r).
    + intros [->|H]%elem_of_cons; [by left|]. right. apply elem_of_cons. by right.
    + intros [->|H]%elem_of_cons.
      * right. apply elem_of_cons. by left.
      * destruct (IH H) as [->|?]; [by left|]. right. apply elem_of_cons. by right.
Qed.

Lemma upsert_items_world clk repos p :
  searches (progress_world (upsert_items clk repos p).2)
  = searches (progress_world p)
  ∧ github_search_tasks (db (progress_world (upsert_items clk repos p).2))
    = github_search_tasks (db (progress_world p))
  ∧ needsSplit (upsert_items clk repos p).2 = needsSplit p
  ∧ nextPage (upsert_items clk repos p).2 = nextPage p.
Proof.
  revert p. induction repos as [|repo rest IH]; intros p; [done|].
  cbn [upsert_items]. unfold upsertRepo.
  destruct (full_name_clash repo _); [done|].
  destruct (IH (mkProgress
                  (mkWorld
                     (upsertSnapshot clk (GitHubRepo.id repo)
                        (GitHubRepo.stargazers_count repo)
                        (GitHubRepo.forks_count repo)
                        (GitHubRepo.open_issues_count repo)
                        (set_repos
                           (upsert (λ r, Repo.repo_id r =? GitHubRepo.id repo)
                              {| Repo.repo_id := GitHubRepo.id repo;
                                 Repo.full_name := GitHubRepo.full_name repo;
                                 Repo.last_seen_at := now_ms clk |}
                              (github_repos
                                 (sent (UpsertRepo (GitHubRepo.id repo))
                                    (db (progress_world p)))))
                           (sent (UpsertRepo (GitHubRepo.id repo))
                              (db (progress_world p)))))
                     (searches (progress_world p)))
                  (reposUpserted p + 1) (snapshotsUpserted p + 1)
                  (needsSplit p) (nextPage p))) as (-> & -> & -> & ->).
  done.
Qed.

(** The repositories of the sample partitions have names of their own. *)
Lemma nth_repo_name_inj i j :
  GitHubRepo.full_name (nth_repo i) = GitHubRepo.full_name (nth_repo j) → i = j.
Proof.
  unfold nth_repo. cbn [GitHubRepo.full_name]. intros H.
  apply (inj (String.app "owner/repo-")) in H. by apply (inj pretty) in H.
Qed.

Lemma full_name_clash_false repo repos :
  (∀ r, r ∈ repos → Repo.full_name r = GitHubRepo.full_name repo →
        Repo.repo_id r = GitHubRepo.id repo) →
  full_name_clash repo repos = false.
Proof.
  intros Hfree. unfold full_name_clash.
  apply not_true_is_false. intros (r & Hr & Hclash)%existsb_exists.
  apply andb_prop in Hclash as [Hid Hname].
  apply negb_true_iff, Z.eqb_neq in Hid. apply String.eqb_eq in Hname.
  apply Hid, Hfree; [|done]. by apply list_elem_of_In.
Qed.

(** A repository of a sample partition is upserted without error into a
    store that agrees with the partitions on names, and the store goes on
    agreeing. *)
Lemma upsertRepo_partition clk i s :
  agrees_with_partition s →
  (upsertRepo clk (nth_repo i) s).1 = None ∧
  agrees_with_partition (upsertRepo clk (nth_repo i) s).2.
Proof.
  intros Hag. unfold upsertRepo.
  rewrite full_name_clash_false.
  - split; [done|]. intros r j Hr Hname.
    cbn [snd github_repos set_repos sent] in Hr.
    apply upsert_elem in Hr as [->|Hr]; [|by apply (Hag r)].
    cbn [Repo.full_name Repo.repo_id] in *. by apply nth_repo_name_inj.
  - intros r Hr Hname. cbn [github_repos sent] in Hr. by apply (Hag r).
Qed.

Lemma upsert_items_partition clk ids p :
  agrees_with_partition (db (progress_world p)) →
  (upsert_items clk (nth_repo <$> ids) p).1 = None ∧
  agrees_with_partition
    (db (progress_world (upsert_items clk (nth_repo <$> ids) p).2)).
Proof.
  revert p. induction ids as [|i ids IH]; intros p Hag; [done|].
  cbn [fmap list_fmap upsert_items].
  destruct (upsertRepo_partition clk i (db (progress_world p)) Hag) as [He Hag'].
  destruct (upsertRepo clk (nth_repo i) (db (progress_world p))) as [e s1].
  cbn [fst snd] in He, Hag'. subst e. apply IH. exact Hag'.
Qed.

Lemma page_items_partition k p perPage :
  ∃ ids, page_items k p perPage = nth_repo <$> ids.
Proof.
  unfold page_items.
  exists ((λ j, perPage * (p - 1) + 1 + Z.of_nat j)
            <$> seq 0 (Z.to_nat (Z.min perPage (k - perPage * (p - 1))))).
  by rewrite <- list_fmap_compose.
Qed.

(** One iteration of the page loop against a partition of [k] results. *)
Lemma process_pages_step env k clk task n p prog :
  1 ≤ p →
  agrees_with_partition (db (progress_world prog)) →
  process_pages env (partition_of k) clk task (S n) p prog
  = let fetched :=
      (upsert_items clk (page_items k p 100)
         (mkProgress (searched (task_params task p) (progress_world prog))
            (reposUpserted prog) (snapshotsUpserted prog)
            (needsSplit prog) (nextPage prog))).2 in
    if k <? 100 * p then (None, with_next (needsSplit fetched) None fetched)
    else if 10 <=? p then (None, with_next true None fetched)
    else process_pages env (partition_of k) clk task n (p + 1)
           (with_next (needsSplit fetched) (Some (p + 1)) fetched).
Proof.
  intros Hp Hag. cbn [process_pages]. rewrite search_partition by done.
  cbn [items]. pose proof (page_items_length k p) as Hlen.
  destruct (page_items_partition k p 100) as [ids Hids].
  destruct (upsert_items_partition clk ids
              (mkProgress (searched (task_params task p) (progress_world prog))
                 (reposUpserted prog) (snapshotsUpserted prog)
                 (needsSplit prog) (nextPage prog)) Hag) as [He _].
  rewrite <- Hids in He.
  destruct (upsert_items clk (page_items k p 100) _) as [e fetched].
  cbn [fst snd] in *. subst e.
  destruct (k <? 100 * p) eqn:Hk.
  - apply Z.ltb_lt in Hk.
    replace (Z.of_nat (length (page_items k p 100)) <? 100) with true
      by (symmetry; apply Z.ltb_lt; lia).
    reflexivity.
  - apply Z.ltb_ge in Hk.
    replace (Z.of_nat (length (page_items k p 100)) <? 100) with false
      by (symmetry; apply Z.ltb_ge; lia).
    replace (Z.of_nat (length (page_items k p 100)) =? 100) with true
      by (symmetry; apply Z.eqb_eq; lia).
    rewrite andb_true_r. reflexivity.
Qed.

Lemma pages_from_cons p n : pages_from p (S n) = p :: pages_from (p + 1) n.
Proof.
  unfold pages_from. cbn [seq fmap list_fmap]. f_equal; [lia|].
  rewrite <- fmap_S_seq, <- list_fmap_compose.
  apply list_fmap_ext. intros _ i _. simpl. lia.
Qed.

(** [k / 100] is the number of full pages: the facts [lia] needs. *)
Ltac full_pages k :=
  pose proof (Z.mul_div_le k 100 ltac:(lia));
  pose proof (Z.mul_succ_div_gt k 100 ltac:(lia)).

Lemma last_page_bounds k : 0 ≤ k → 1 ≤ last_page k ≤ 10.
Proof.
  intros Hk. unfold last_page. full_pages k.
  destruct (Z.ltb_spec k 1000); lia.
Qed.

Ltac simpl_progress :=
  cbn [fst snd process_pages with_next progress_world needsSplit nextPage].

(** The page loop against a partition of [k] results, started at page [p]
    with [S n] iterations in its budget: it either runs out of budget
    before the last page and leaves the cursor behind the pages fetched, or
    it stops at the last page. *)
Lemma process_pages_partition env k clk task n p prog :
  0 ≤ k → 1 ≤ p ≤ last_page k →
  agrees_with_partition (db (progress_world prog)) →
  let r := process_pages env (partition_of k) clk task (S n) p prog in
  r.1 = None ∧
  agrees_with_partition (db (progress_world r.2)) ∧
  github_search_tasks (db (progress_world r.2))
  = github_search_tasks (db (progress_world prog)) ∧
  if decide (p + Z.of_nat n < last_page k) then
    searches (progress_world r.2)
    = searches (progress_world prog) ++ (task_params task <$> pages_from p (S n)) ∧
    nextPage r.2 = Some (p + Z.of_nat n + 1) ∧
    needsSplit r.2 = needsSplit prog
  else
    searches (progress_world r.2)
    = searches (progress_world prog)
      ++ (task_params task <$> pages_from p (Z.to_nat (last_page k - p + 1))) ∧
    nextPage r.2 = None ∧
    needsSplit r.2 = (if 1000 <=? k then true else needsSplit prog).
Proof.
  intros Hk. revert p prog.
  induction n as [|n IH]; intros p prog Hp Hag r; subst r;
    full_pages k; (rewrite process_pages_step; [|lia|done]); cbv zeta;
    set (fetched := (upsert_items clk _ _).2);
    destruct (upsert_items_world clk (page_items k p 100)
                (mkProgress (searched (task_params task p) (progress_world prog))
                   (reposUpserted prog) (snapshotsUpserted prog)
                   (needsSplit prog) (nextPage prog)))
      as (Hs & Ht & Hn & Hx);
    fold fetched in Hs, Ht, Hn, Hx; cbn in Hs, Ht, Hn, Hx;
    assert (agrees_with_partition (db (progress_world fetched))) as Hfetched
      by (destruct (page_items_partition k p 100) as [ids Hids];
          unfold fetched; rewrite Hids; by apply upsert_items_partition);
    unfold last_page in *.
  - destruct (k <? 100 * p) eqn:H1; [apply Z.ltb_lt in H1|apply Z.ltb_ge in H1].
    { destruct (k <? 1000) eqn:H2;
        [apply Z.ltb_lt in H2|apply Z.ltb_ge in H2; lia].
      assert (p = k / 100 + 1) as Hlast by lia.
      rewrite decide_False by lia. simpl_progress.
      replace (k / 100 + 1 - p + 1) with 1 by lia.
      replace (1000 <=? k) with false by (symmetry; apply Z.leb_gt; lia).
      rewrite Hs, Ht, Hn. split_and!; try done.
      change (Z.to_nat 1) with 1%nat. rewrite pages_from_cons. done. }
    destruct (10 <=? p) eqn:H3; [apply Z.leb_le in H3|apply Z.leb_gt in H3].
    { destruct (k <? 1000) eqn:H2;
        [apply Z.ltb_lt in H2; lia|apply Z.ltb_ge in H2].
      rewrite decide_False by lia. simpl_progress.
      replace (10 - p + 1) with 1 by lia.
      replace (1000 <=? k) with true by (symmetry; apply Z.leb_le; lia).
      rewrite Hs, Ht. split_and!; try done.
      change (Z.to_nat 1) with 1%nat. rewrite pages_from_cons. done. }
    assert (p + 0 < (if k <? 1000 then k / 100 + 1 else 10)) as Hlt.
    { destruct (k <? 1000) eqn:H2; [apply Z.ltb_lt in H2|]; lia. }
    rewrite decide_True by (simpl; lia). simpl_progress.
    rewrite Hs, Ht, Hn. split_and!; try done.
    + rewrite pages_from_cons. done.
    + f_equal. lia.
  - destruct (k <? 100 * p) eqn:H1; [apply Z.ltb_lt in H1|apply Z.ltb_ge in H1].
    { destruct (k <? 1000) eqn:H2;
        [apply Z.ltb_lt in H2|apply Z.ltb_ge in H2; lia].
      assert (p = k / 100 + 1) as Hlast by lia.
      rewrite decide_False by lia. simpl_progress.
      replace (k / 100 + 1 - p + 1) with 1 by lia.
      replace (1000 <=? k) with false by (symmetry; apply Z.leb_gt; lia).
      rewrite Hs, Ht, Hn. split_and!; try done.
      change (Z.to_nat 1) with 1%nat. rewrite pages_from_cons. done. }
    destruct (10 <=? p) eqn:H3; [apply Z.leb_le in H3|apply Z.leb_gt in H3].
    { destruct (k <? 1000) eqn:H2;
        [apply Z.ltb_lt in H2; lia|apply Z.ltb_ge in H2].
      rewrite decide_False by lia. simpl_progress.
      replace (10 - p + 1) with 1 by lia.
      replace (1000 <=? k) with true by (symmetry; apply Z.leb_le; lia).
      rewrite Hs, Ht. split_and!; try done.
      change (Z.to_nat 1) with 1%nat. rewrite pages_from_cons. done. }
    assert (p + 1 ≤ (if k <? 1000 then k / 100 + 1 else 10)) as Hlt.
    { destruct (k <? 1000) eqn:H2; [apply Z.ltb_lt in H2|]; lia. }
    specialize (IH (p + 1) (with_next (needsSplit fetched) (Some (p + 1)) fetched)).
    destruct IH as (He & Hag' & Ht' & Hrest); [lia|done|].
    split; [exact He|]. split; [exact Hag'|]. split; [by rewrite Ht', <- Ht|].
    cbn [with_next progress_world needsSplit nextPage] in Hrest.
    destruct (decide (p + 1 + Z.of_nat n < _)) as [Hd|Hd].
    + rewrite decide_True by lia.
      destruct Hrest as (Hs' & Hn' & Hx'). rewrite Hs', Hs, Hn', Hx', Hn.
      split_and!; try done.
      * rewrite (pages_from_cons p (S n)). rewrite fmap_cons.
        by rewrite <- app_assoc.
      * f_equal. lia.
    + rewrite decide_False by lia.
      destruct Hrest as (Hs' & Hn' & Hx'). rewrite Hs', Hs, Hn', Hx', Hn.
      split_and!; try done.
      replace (Z.to_nat ((if k <? 1000 then k / 100 + 1 else 10) - p + 1))
        with (S (Z.to_nat ((if k <? 1000 then k / 100 + 1 else 10) - (p + 1) + 1)))
        by lia.
      rewrite pages_from_cons, fmap_cons. by rewrite <- app_assoc.
Qed.

Lemma find_task_id id tbl t : find_task id tbl = Some t → Task.id t = id.
Proof.
  induction tbl as [|x rest IH]; simpl; [done|].
  destruct (Z.eqb_spec (Task.id x) id); [congruence|done].
Qed.

Lemma find_task_updated clk id status next error tbl t :
  find_task id tbl = Some t →
  find_task id
    ((λ t, if Task.id t =? id then updated_task clk status next error t else t)
       <$> tbl)
  = Some (updated_task clk status next error t).
Proof.
  induction tbl as [|x rest IH]; [done|].
  rewrite fmap_cons. cbn [find_task].
  destruct (Task.id x =? id) eqn:Heq.
  - intros [= ->]. cbn [updated_task Task.id]. by rewrite Heq.
  - intros H. rewrite Heq. by apply IH.
Qed.

Lemma task_params_updated clk status next error t p :
  task_params (updated_task clk status next error t) p = task_params t p.
Proof. reflexivity. Qed.

(** One run of the driver on a task of a partition of [k] results whose
    cursor is at [p]: the pages it fetches and the row it writes. *)
Lemma discover_task_partition env k clk totals w task p :
  0 ≤ k → 1 ≤ MAX_PAGES_PER_TASK env →
  Task.page task = Some p → 1 ≤ p ≤ last_page k →
  agrees_with_partition (db w) →
  let budget := MAX_PAGES_PER_TASK env in
  let w' := (discover_task env (partition_of k) clk (totals, w) task).2 in
  agrees_with_partition (db w') ∧
  if decide (p + budget - 1 < last_page k) then
    searches w'
    = searches w ++ (task_params task <$> pages_from p (Z.to_nat budget)) ∧
    github_search_tasks (db w')
    = (λ t, if Task.id t =? Task.id task
            then updated_task clk in_progress (Some (p + budget)) None t else t)
        <$> github_search_tasks (db w)
  else
    searches w'
    = searches w
      ++ (task_params task <$> pages_from p (Z.to_nat (last_page k - p + 1))) ∧
    github_search_tasks (db w')
    = (λ t, if Task.id t =? Task.id task
            then updated_task clk (if 1000 <=? k then needs_split else done)
                   None None t
            else t)
        <$> github_search_tasks (db w).
Proof.
  intros Hk Hb Hpage Hp Hag budget w'. subst w'.
  unfold discover_task, processTask.
  rewrite Hpage. cbn [default].
  destruct (Z.to_nat (MAX_PAGES_PER_TASK env)) as [|n] eqn:Hn; [lia|].
  pose proof (process_pages_partition env k clk task n p
                (mkProgress w 0 0 false None) Hk Hp Hag)
    as (He & Hag' & Ht & Hrest).
  destruct (process_pages _ _ _ _ _ _ _) as [e r]. cbn [fst snd] in *.
  subst e. cbn [progress_world needsSplit nextPage] in *.
  assert (budget = Z.of_nat n + 1) as Hbudget by (unfold budget; lia).
  split; [exact Hag'|].
  destruct (decide (p + Z.of_nat n < last_page k)) as [Hd|Hd].
  - rewrite decide_True by lia. destruct Hrest as (Hs & Hnext & Hsplit).
    cbn [snd on_db db searches updateTaskStatus set_tasks sent github_search_tasks].
    unfold newStatus. rewrite Hs, Ht, Hnext, Hsplit.
    replace (Z.to_nat budget) with (S n) by lia.
    replace (p + budget) with (p + Z.of_nat n + 1) by lia. done.
  - rewrite decide_False by lia. destruct Hrest as (Hs & Hnext & Hsplit).
    cbn [snd on_db db searches updateTaskStatus set_tasks sent github_search_tasks].
    unfold newStatus. rewrite Hs, Ht, Hnext, Hsplit.
    by destruct (1000 <=? k).
Qed.

(** Whatever the partition, a run whose budget ends before the last page
    writes back a row that holds the advanced cursor and fails the claim
    predicate. *)
Lemma budget_exhausted_row_not_eligible env k clk totals w task p now :
  0 ≤ k → 1 ≤ MAX_PAGES_PER_TASK env →
  find_task (Task.id task) (github_search_tasks (db w)) = Some task →
  Task.page task = Some p → 1 ≤ p ≤ last_page k →
  agrees_with_partition (db w) →
  p + MAX_PAGES_PER_TASK env - 1 < last_page k →
  let w' := (discover_task env (partition_of k) clk (totals, w) task).2 in
  ∃ t, find_task (Task.id task) (github_search_tasks (db w')) = Some t ∧
    Task.status t = in_progress ∧
    Task.page t = Some (p + MAX_PAGES_PER_TASK env) ∧
    eligible now t = false.
Proof.
  intros Hk Hb Hfind Hpage Hp Hag Hshort w'.
  pose proof (discover_task_partition env k clk totals w task p Hk Hb Hpage Hp
                Hag) as [_ Hrun].
  fold w' in Hrun. rewrite decide_True in Hrun by done.
  destruct Hrun as [_ Ht]. rewrite Ht.
  eexists. split; [by apply find_task_updated|]. by split_and!.
Qed.

Lemma pages_from_app p n m :
  pages_from p (n + m) = pages_from p n ++ pages_from (p + Z.of_nat n) m.
Proof.
  revert p. induction n as [|n IH]; intros p.
  - simpl. f_equal. lia.
  - cbn [Nat.add]. rewrite !pages_from_cons, IH. cbn [app]. do 3 f_equal. lia.
Qed.

(** Runs of the driver on a task of a partition of [k] results, from the
    cursor [p] on: with enough runs the crawl reaches the last page. *)
Lemma crawl_from env k clk id runs :
  0 ≤ k → 1 ≤ MAX_PAGES_PER_TASK env →
  ∀ p w task,
    find_task id (github_search_tasks (db w)) = Some task →
    Task.status task = in_progress →
    Task.page task = Some p → 1 ≤ p ≤ last_page k →
    agrees_with_partition (db w) →
    last_page k - p < Z.of_nat runs →
    let w' := crawl runs env (partition_of k) clk id w in
    searches w'
    = searches w
      ++ (task_params task <$> pages_from p (Z.to_nat (last_page k - p + 1))) ∧
    ∃ t, find_task id (github_search_tasks (db w')) = Some t ∧
      Task.status t = (if 1000 <=? k then needs_split else done) ∧
      (k < 1000 → Task.page t = Some 1).
Proof.
  intros Hk Hb. induction runs as [|runs IH];
    intros p w task Hfind Hstatus Hpage Hp Hag Hruns; [lia|].
  cbn [crawl]. rewrite Hfind, Hstatus.
  pose proof (find_task_id _ _ _ Hfind) as Hid.
  pose proof (discover_task_partition env k clk (mkTotals 0 0 0 []) w task p
                Hk Hb Hpage Hp Hag) as [Hag1 Hrun].
  cbv zeta in Hag1, Hrun.
  set (w1 := (discover_task env (partition_of k) clk (mkTotals 0 0 0 [], w) task).2)
    in *.
  destruct (decide (p + MAX_PAGES_PER_TASK env - 1 < last_page k)) as [Hd|Hd];
    destruct Hrun as [Hs Ht].
  - (* the budget ran out: the next run continues from the stored cursor *)
    set (task1 := updated_task clk in_progress
                    (Some (p + MAX_PAGES_PER_TASK env)) None task).
    assert (find_task id (github_search_tasks (db w1)) = Some task1) as Hfind1.
    { rewrite Ht, Hid. by apply find_task_updated. }
    destruct (IH (p + MAX_PAGES_PER_TASK env) w1 task1 Hfind1
                eq_refl eq_refl ltac:(lia) Hag1 ltac:(lia)) as [Hs' Hrest].
    split; [|exact Hrest].
    rewrite Hs', Hs, <- app_assoc. f_equal.
    unfold task1. rewrite <- fmap_app. f_equal.
    replace (Z.to_nat (last_page k - p + 1))
      with (Z.to_nat (MAX_PAGES_PER_TASK env)
            + Z.to_nat (last_page k - (p + MAX_PAGES_PER_TASK env) + 1))%nat
      by lia.
    rewrite pages_from_app. do 2 f_equal. lia.
  - (* the last page was reached: the row is final and later runs pass it *)
    set (task1 := updated_task clk (if 1000 <=? k then needs_split else done)
                    None None task).
    assert (find_task id (github_search_tasks (db w1)) = Some task1) as Hfind1.
    { rewrite Ht, Hid. by apply find_task_updated. }
    assert (crawl runs env (partition_of k) clk id w1 = w1) as ->.
    { destruct runs as [|runs']; [done|]. cbn [crawl]. rewrite Hfind1.
      unfold task1. cbn [updated_task Task.status]. by destruct (1000 <=? k). }
    split; [exact Hs|]. exists task1. split; [exact Hfind1|].
    split; [reflexivity|]. intros Hlt. unfold task1.
    replace (1000 <=? k) with false by (symmetry; apply Z.leb_gt; lia).
    reflexivity.
Qed.

Lemma pages_of_task_params task (pages : list Z) :
  page <$> (task_params task <$> pages) = Some <$> pages.
Proof. rewrite <- list_fmap_compose. by apply list_fmap_ext. Qed.

(** C5 (amended). A task claimed at page 1 of a partition of exactly [k]
    results, crawled to completion with any page budget of at least one
    page per run: if [k < 1000] the crawl fetches pages 1 to
    [k / 100 + 1] in order, which is [ceil(k/100)] pages when [k] is not a
    multiple of 100 and one more when it is, and leaves the task ['done']
    with its cursor at 1; if [k >= 1000] it fetches pages 1 to 10 and leaves
    the task ['needs_split']. Ten runs always suffice. The crawl is one in
    which no upsert is refused: the store holds none of the partition's
    repository names under another id. *)
Theorem crawl_partition_to_completion env clk k id w task runs :
  0 ≤ k → 1 ≤ MAX_PAGES_PER_TASK env →
  find_task id (github_search_tasks (db w)) = Some task →
  Task.status task = in_progress → Task.page task = Some 1 →
  (10 <= runs)%nat →
  (∀ r i, r ∈ github_repos (db w) →
     Repo.full_name r = GitHubRepo.full_name (nth_repo i) → Repo.repo_id r = i) →
  let w' := crawl runs env (partition_of k) clk id w in
  ∃ t, find_task id (github_search_tasks (db w')) = Some t ∧
    if k <? 1000 then
      page <$> searches w'
      = (page <$> searches w) ++ (Some <$> pages_from 1 (Z.to_nat (k / 100 + 1))) ∧
      Task.status t = done ∧ Task.page t = Some 1
    else
      page <$> searches w'
      = (page <$> searches w) ++ (Some <$> pages_from 1 10) ∧
      Task.status t = needs_split.
Proof.
  intros Hk Hb Hfind Hstatus Hpage Hruns Hnames w'.
  pose proof (last_page_bounds k Hk) as Hlast.
  destruct (crawl_from env k clk id runs Hk Hb 1 w task Hfind Hstatus Hpage
              ltac:(lia) Hnames ltac:(lia)) as (Hs & t & Ht & Hst & Hpg).
  exists t. split; [exact Ht|]. fold w' in Hs. rewrite Hs, fmap_app.
  rewrite pages_of_task_params. unfold last_page in *.
  destruct (Z.ltb_spec k 1000) as [Hlt|Hge].
  - replace (1000 <=? k) with false in Hst by (symmetry; apply Z.leb_gt; lia).
    replace (k / 100 + 1 - 1 + 1) with (k / 100 + 1) by lia. auto.
  - replace (1000 <=? k) with true in Hst by (symmetry; apply Z.leb_le; lia).
    auto.
Qed.

Lemma crawl_partition_to_completion_witness :
  let w' := crawl 10 sample_env (partition_of 250) nov_2 1 claimed_at_page_1 in
  ∃ t, find_task 1 (github_search_tasks (db w')) = Some t ∧
    if 250 <? 1000 then
      page <$> searches w'
      = (page <$> searches claimed_at_page_1)
        ++ (Some <$> pages_from 1 (Z.to_nat (250 / 100 + 1))) ∧
      Task.status t = done ∧ Task.page t = Some 1
    else
      page <$> searches w'
      = (page <$> searches claimed_at_page_1) ++ (Some <$> pages_from 1 10) ∧
      Task.status t = needs_split.
Proof.
  apply (crawl_partition_to_completion sample_env nov_2 250 1 claimed_at_page_1
           (sample_task 1 in_progress (Some 1) None) 10).
  - lia.
  - vm_compute. discriminate.
  - reflexivity.
  - reflexivity.
  - reflexivity.
  - lia.
  - intros r i Hr. by apply elem_of_nil in Hr.
Defined.

(** C5 as stated fails when [k] is a multiple of 100: a partition of
    exactly 100 results takes two requests, not [ceil(100/100) = 1], because
    the full first page does not tell the driver that it was the last. And
    a partition of exactly 1000 results ends ['needs_split'], not
    ['done']. *)
Lemma crawl_full_last_page_costs_a_request :
  let w100 := crawl 10 sample_env (partition_of 100) nov_2 1 claimed_at_page_1 in
  let w1000 := crawl 10 sample_env (partition_of 1000) nov_2 1 claimed_at_page_1 in
  page <$> searches w100 = [Some 1; Some 2] ∧
  Z.of_nat (length (searches w100)) ≠ (100 + 99) / 100 ∧
  Task.status <$> find_task 1 (github_search_tasks (db w100)) = Some done ∧
  Task.status <$> find_task 1 (github_search_tasks (db w1000)) = Some needs_split.
Proof. vm_compute. split_and!; [reflexivity|discriminate|reflexivity|reflexivity]. Qed.

(** ** Scoring *)

Lemma computeScore_nonpositive_growth absGrowth pctGrowth :
  (absGrowth <= 0)%R → computeScore absGrowth pctGrowth = 0%R.
Proof. intros H. unfold computeScore. by destruct (Rle_dec absGrowth 0). Qed.

Lemma computeScore_positive_growth absGrowth pctGrowth :
  (0 < absGrowth)%R →
  computeScore absGrowth pctGrowth
  = (absGrowth * ln (1 + Rmax pctGrowth 0))%R.
Proof.
  intros H. unfold computeScore. destruct (Rle_dec absGrowth 0); [lra|done].
Qed.

(** The score is never negative. *)
Lemma computeScore_nonneg absGrowth pctGrowth :
  (0 <= computeScore absGrowth pctGrowth)%R.
Proof.
  unfold computeScore. destruct (Rle_dec absGrowth 0) as [|Hpos]; [lra|].
  apply Rmult_le_pos; [lra|].
  pose proof (Rmax_r pctGrowth 0) as Hmax.
  destruct (Req_dec (Rmax pctGrowth 0) 0) as [->|Hne].
  - rewrite Rplus_0_r, ln_1. lra.
  - left. rewrite <- ln_1 at 1. apply ln_increasing; lra.
Qed.

(** The growth branch, as both loops compute it. *)
Lemma growth_of_fields starsNow starsPrev :
  growth_of starsNow starsPrev
  = (starsNow - starsPrev,
     (IZR (starsNow - starsPrev) / IZR (Z.max starsPrev 1))%R,
     computeScore (IZR (starsNow - starsPrev))
       (IZR (starsNow - starsPrev) / IZR (Z.max starsPrev 1))%R).
Proof. reflexivity. Qed.

(** The fallback loop handles a previous count of zero: five stars gained
    from none is a growth of 5.0. *)
Lemma fallback_scores_from_zero_stars clk now_at prev_at :
  let row := fallback_trend clk 7 (sample_snapshot 7 now_at 5)
               (Some (sample_snapshot 7 prev_at 0)) in
  Trend.is_new row = false ∧
  Trend.abs_growth_14d row = Some 5 ∧
  Trend.pct_growth_14d row = Some 5%R ∧
  Trend.score row = Some (5 * ln (1 + 5))%R.
Proof.
  simpl. split_and!; try reflexivity.
  - f_equal. unfold growth_of. simpl.
    change (5 - 0) with 5. change (0 `max` 1) with 1. lra.
  - f_equal. unfold growth_of. simpl.
    change (5 - 0) with 5. change (0 `max` 1) with 1.
    replace (5 / 1)%R with 5%R by lra.
    rewrite computeScore_positive_growth by lra.
    rewrite Rmax_left by lra. done.
Qed.

(** In the loop over the RPC's rows a previous count of zero reads as "no
    previous snapshot". *)
Lemma batch_trend_zero_previous clk repo_id stars_now prev_at :
  let row := batch_trend clk
               {| TrendPair.repo_id := repo_id;
                  TrendPair.stars_now := stars_now;
                  TrendPair.stars_prev := Some 0;
                  TrendPair.prev_captured_at := prev_at |} in
  Trend.is_new row = true ∧
  Trend.abs_growth_14d row = None ∧
  Trend.pct_growth_14d row = None ∧
  Trend.score row = None.
Proof. by split_and!. Qed.

(** The two ways of finding the previous snapshot select the same row. *)
Lemma prev_snapshot_select_previous repo_id ls snapshots :
  prev_snapshot repo_id ls snapshots
  = select_previous repo_id (fourteenDaysAgo ls) snapshots.
Proof. reflexivity. Qed.

(** The two loops build the same payload as long as the previous snapshot,
    if there is one, has a star count other than zero. *)
Lemma batch_and_fallback_agree_unless_zero clk repo_id ls ps :
  (∀ p, ps = Some p → Snapshot.stars_count p ≠ 0) →
  batch_trend clk (paired repo_id ls ps) = fallback_trend clk repo_id ls ps.
Proof.
  intros Hnz. destruct ps as [p|]; [|reflexivity].
  specialize (Hnz p eq_refl). unfold batch_trend, fallback_trend, paired.
  simpl. destruct (Snapshot.stars_count p); done.
Qed.

(** The function of migration 003 raises on every call: [repo_id] in the
    first CTE is both a column of [RETURNS TABLE] and a column of
    [github_repo_snapshots]. *)
Lemma call_compute_repo_trends_14d_raises snapshots :
  call_compute_repo_trends_14d snapshots = Err (ambiguous_column "repo_id").
Proof. reflexivity. Qed.

(** So the call of the RPC hands the handler an error in every state. *)
Lemma rpc_compute_repo_trends_14d_error s :
  ∃ queryError, rpc_compute_repo_trends_14d s = Err queryError.
Proof.
  unfold rpc_compute_repo_trends_14d.
  destruct (compute_repo_trends_rpc s); by eexists.
Qed.

(** The ambiguity error is not the error the handler falls back on; the
    error for a missing function is. *)
Lemma ambiguous_column_is_rethrown :
  rpc_does_not_exist (ambiguous_column "repo_id") = false.
Proof. reflexivity. Qed.

Lemma function_missing_falls_back : rpc_does_not_exist function_missing = true.
Proof. reflexivity. Qed.

(** Rows reach the handler only from the query of the function. *)
Lemma rpc_rows s trends :
  rpc_compute_repo_trends_14d s = Ok trends →
  trends = compute_repo_trends_14d (github_repo_snapshots s).
Proof.
  unfold rpc_compute_repo_trends_14d, call_compute_repo_trends_14d.
  destruct (compute_repo_trends_rpc s); [|done..].
  destruct ambiguous_names; [|done]. by intros [= <-].
Qed.

(** A pass that answers 200 went through the fallback loop. *)
Lemma score_GET_completed env clk secret w :
  http_status (score_GET env clk secret w).1 = 200 →
  (score_GET env clk secret w).2
  = let acc := foldl (score_repo clk)
                 (mkScoring 0 0 0, sent SelectRepos (sent RpcComputeTrends (db w)))
                 (github_repos (db w)) in
    mkWorld (insert_run (scoring_run clk acc.1 0 None) acc.2) (searches w).
Proof.
  unfold score_GET. destruct (auth_fails env secret); [discriminate|].
  cbv zeta.
  destruct (rpc_compute_repo_trends_14d_error (sent RpcComputeTrends (db w)))
    as [queryError ->].
  destruct (rpc_does_not_exist queryError); [done|discriminate].
Qed.

Lemma upsert_has_row {A} conflicts (row : A) (tbl : list A) :
  row ∈ upsert conflicts row tbl.
Proof.
  induction tbl as [|r rest IH]; cbn [upsert].
  - by apply list_elem_of_singleton.
  - destruct (conflicts r); apply elem_of_cons; [by left|by right].
Qed.

Lemma upsert_keeps_other {A} conflicts (row : A) (tbl : list A) x :
  x ∈ tbl → conflicts x = false → x ∈ upsert conflicts row tbl.
Proof.
  intros Hx Hc. induction tbl as [|r rest IH]; [by apply elem_of_nil in Hx|].
  cbn [upsert]. apply elem_of_cons in Hx as [->|Hx].
  - rewrite Hc. apply elem_of_cons. by left.
  - destruct (conflicts r); apply elem_of_cons; right; [done|by apply IH].
Qed.

Lemma score_repo_frame clk s0 acc repo :
  scoring_frame s0 acc.2 → scoring_frame s0 (score_repo clk acc repo).2.
Proof.
  destruct acc as [totals s]. intros Hs. unfold score_repo.
  by destruct (latest_snapshot _ _).
Qed.

Lemma upsertTrend_rows row s :
  row ∈ github_repo_trends (upsertTrend row s) ∧
  ∀ x, x ∈ github_repo_trends s → Trend.repo_id x ≠ Trend.repo_id row →
       x ∈ github_repo_trends (upsertTrend row s).
Proof.
  unfold upsertTrend. cbn [github_repo_trends set_trends sent]. split.
  - apply upsert_has_row.
  - intros x Hx Hne. apply upsert_keeps_other; [done|]. by apply Z.eqb_neq.
Qed.

Lemma score_repos_rows clk s0 repos acc :
  NoDup (Repo.repo_id <$> repos) →
  scoring_frame s0 acc.2 →
  (∀ repo ls, repo ∈ repos →
     latest_snapshot (Repo.repo_id repo) (github_repo_snapshots s0) = Some ls →
     fallback_trend clk (Repo.repo_id repo) ls
       (select_previous (Repo.repo_id repo) (fourteenDaysAgo ls)
          (github_repo_snapshots s0))
       ∈ github_repo_trends (foldl (score_repo clk) acc repos).2) ∧
  (∀ x, x ∈ github_repo_trends acc.2 →
     (Trend.repo_id x ∈ Repo.repo_id <$> repos →
      latest_snapshot (Trend.repo_id x) (github_repo_snapshots s0) = None) →
     x ∈ github_repo_trends (foldl (score_repo clk) acc repos).2).
Proof.
  revert acc. induction repos as [|repo rest IH]; intros acc Hnd Hframe.
  { split; [by intros r ls ?%elem_of_nil|done]. }
  cbn [fmap list_fmap] in Hnd. apply NoDup_cons in Hnd as [Hfresh Hnd].
  cbn [foldl].
  destruct (IH (score_repo clk acc repo) Hnd) as [Hrows Hold].
  { by apply score_repo_frame. }
  assert (∀ x, x ∈ github_repo_trends acc.2 →
               (Trend.repo_id x = Repo.repo_id repo →
                latest_snapshot (Trend.repo_id x) (github_repo_snapshots s0)
                = None) →
               x ∈ github_repo_trends (score_repo clk acc repo).2) as Hother.
  { intros x Hx Hkeep. destruct acc as [totals s].
    destruct Hframe as (_ & Hsnap & _).
    unfold score_repo. cbn [snd github_repo_snapshots sent] in *.
    rewrite Hsnap.
    destruct (latest_snapshot (Repo.repo_id repo) _) as [ls|] eqn:Hls; [|done].
    apply upsertTrend_rows; [done|].
    intros Heq. change (Trend.repo_id (fallback_trend _ _ _ _))
      with (Repo.repo_id repo) in Heq.
    specialize (Hkeep Heq). rewrite Heq in Hkeep. congruence. }
  split.
  - intros r ls [->|Hr]%elem_of_cons Hls; [|by apply Hrows].
    apply Hold; [|by intros Hin].
    destruct acc as [totals s]. destruct Hframe as (_ & Hsnap & _).
    unfold score_repo. cbn [snd github_repo_snapshots sent] in *.
    rewrite Hsnap, Hls. apply (proj1 (upsertTrend_rows _ _)).
  - intros x Hx Hkeep. apply Hold.
    + apply Hother; [done|]. intros Heq. apply Hkeep.
      cbn [fmap list_fmap]. apply elem_of_cons. by left.
    + intros Hin. apply Hkeep. cbn [fmap list_fmap]. apply elem_of_cons.
      by right.
Qed.



(** With migration 003 installed, a scoring request never reaches the loop
    over the RPC's rows: the call raises, the handler rethrows, answers 500
    and logs the failed run; no table of the pipeline is written. *)
Lemma score_GET_batch_rpc_raises env clk secret w :
  auth_fails env secret = false →
  compute_repo_trends_rpc (db w) = RpcInstalled →
  score_GET env clk secret w
  = (mkResponse 500 None (Some (ambiguous_column "repo_id"))
       [("reposProcessed", 0); ("reposWithGrowth", 0); ("newRepos", 0)],
     mkWorld
       (insert_run
          (scoring_run clk (mkScoring 0 0 0) 1
             (Some (ambiguous_column "repo_id")))
          (sent RpcComputeTrends (db w)))
       (searches w)).
Proof.
  intros Hauth Hrpc. unfold score_GET, rpc_compute_repo_trends_14d.
  rewrite Hauth. cbn [compute_repo_trends_rpc sent]. by rewrite Hrpc.
Qed.

(** C7. For the history in which repository 7 goes from 0 stars to 5 in
    twenty days, the batch path writes no Trend row at all: the call of
    [compute_repo_trends_14d] raises [column reference "repo_id" is
    ambiguous], which is not the error the handler falls back on, and the
    request ends in a 500. The fallback path, on the same tables, answers
    200 and writes the row of repository 7 with a growth of 5. *)
Theorem batch_path_raises_where_fallback_scores :
  let batch :=
    score_GET sample_env nov_2 (Some "s3cret") (from_zero_world RpcInstalled) in
  let fallback :=
    score_GET sample_env nov_2 (Some "s3cret") (from_zero_world RpcMissing) in
  http_status batch.1 = 500 ∧
  error batch.1 = Some (ambiguous_column "repo_id") ∧
  github_repo_trends (db batch.2) = [] ∧
  http_status fallback.1 = 200 ∧
  ∃ f, github_repo_trends (db fallback.2) = [f] ∧
    Trend.repo_id f = 7 ∧
    Trend.is_new f = false ∧
    Trend.abs_growth_14d f = Some 5 ∧
    Trend.pct_growth_14d f = Some 5%R.
Proof.
  intros batch fallback.
  split; [reflexivity|]. split; [reflexivity|]. split; [reflexivity|].
  split; [reflexivity|].
  exists (fallback_trend nov_2 7 (sample_snapshot 7 (now_ms nov_2) 5)
            (Some (sample_snapshot 7 (now_ms nov_2 - 20 * ms_per_day) 0))).
  split; [reflexivity|].
  pose proof (fallback_scores_from_zero_stars nov_2 (now_ms nov_2)
                (now_ms nov_2 - 20 * ms_per_day)) as (Hnew & Habs & Hpct & _).
  split_and!; try reflexivity; assumption.
Qed.

(** ** Stored previous star counts *)

Lemma num_or_null_positive (x : option Z) :
  (∀ p, x = Some p → 0 ≤ p) →
  match num_or_null x with
  | None => True
  | Some p => 0 < p
  end.
Proof.
  intros Hnn. destruct x as [p|]; [|done].
  specialize (Hnn p eq_refl). destruct p; simpl; lia.
Qed.

Lemma foldl_newer_elem rows acc r :
  foldl newer acc rows = Some r → r ∈ rows ∨ acc = Some r.
Proof.
  revert acc. induction rows as [|x rows IH]; intros acc; simpl; [auto|].
  intros [H|H]%IH.
  - left. apply elem_of_cons. by right.
  - unfold newer in H. destruct acc as [b|].
    + destruct (Snapshot.captured_at b <? Snapshot.captured_at x).
      * left. apply elem_of_cons. left. congruence.
      * by right.
    + left. apply elem_of_cons. left. congruence.
Qed.

Lemma most_recent_elem rows r :
  most_recent rows = Some r → r ∈ rows.
Proof.
  intros H. by destruct (foldl_newer_elem rows None r H).
Qed.

Lemma batch_trend_stars_prev clk repo_id ls ps :
  (∀ p, ps = Some p → 0 ≤ Snapshot.stars_count p) →
  match Trend.stars_prev (batch_trend clk (paired repo_id ls ps)) with
  | None => True
  | Some p => 0 < p
  end.
Proof.
  intros Hnn. apply num_or_null_positive.
  intros p. simpl. destruct ps as [s|]; [|done].
  intros [= <-]. by apply Hnn.
Qed.

Lemma fallback_trend_stars_prev clk repo_id ls ps :
  (∀ p, ps = Some p → 0 ≤ Snapshot.stars_count p) →
  match Trend.stars_prev (fallback_trend clk repo_id ls ps) with
  | None => True
  | Some p => 0 < p
  end.
Proof.
  intros Hnn. apply num_or_null_positive.
  intros p. simpl. destruct ps as [s|]; [|done].
  intros [= <-]. by apply Hnn.
Qed.

Lemma foldl_invariant {A B} (P : A → Prop) (f : A → B → A) (l : list B) a :
  P a → (∀ a b, b ∈ l → P a → P (f a b)) → P (foldl f a l).
Proof.
  revert a. induction l as [|x l IH]; intros a Ha Hstep; simpl; [done|].
  apply IH.
  - apply Hstep; [apply elem_of_cons; by left|done].
  - intros a' b Hb. apply Hstep. apply elem_of_cons. by right.
Qed.

Lemma compute_repo_trends_14d_elem snapshots trend :
  trend ∈ compute_repo_trends_14d snapshots →
  ∃ repo_id ls ps, trend = paired repo_id ls ps ∧
    ∀ p, ps = Some p → p ∈ snapshots.
Proof.
  unfold compute_repo_trends_14d.
  intros (repo_id & _ & Hrow)%list_elem_of_omap.
  destruct (latest_snapshot repo_id snapshots) as [ls|]; [|discriminate].
  injection Hrow as <-. exists repo_id, ls, (prev_snapshot repo_id ls snapshots).
  split; [done|]. intros p Hp%most_recent_elem.
  by apply list_elem_of_filter in Hp as [_ ?].
Qed.

Lemma upsertTrend_invariant snapshots row s :
  match Trend.stars_prev row with None => True | Some p => 0 < p end →
  scoring_invariant snapshots s →
  scoring_invariant snapshots (upsertTrend row s).
Proof.
  intros Hrow [Hsnap Hrows]. split; [done|].
  intros x [->|Hx]%upsert_elem; [done|]. by apply Hrows.
Qed.

Lemma score_trend_invariant clk snapshots acc trend :
  (∀ s, s ∈ snapshots → 0 ≤ Snapshot.stars_count s) →
  trend ∈ compute_repo_trends_14d snapshots →
  scoring_invariant snapshots acc.2 →
  scoring_invariant snapshots (score_trend clk acc trend).2.
Proof.
  intros Hnn (repo_id & ls & ps & -> & Hps)%compute_repo_trends_14d_elem Hinv.
  apply upsertTrend_invariant; [|done].
  apply batch_trend_stars_prev. intros p Hp. by apply Hnn, Hps.
Qed.

Lemma score_repo_invariant clk snapshots acc repo :
  (∀ s, s ∈ snapshots → 0 ≤ Snapshot.stars_count s) →
  scoring_invariant snapshots acc.2 →
  scoring_invariant snapshots (score_repo clk acc repo).2.
Proof.
  intros Hnn Hinv. destruct acc as [totals s]. unfold score_repo.
  destruct Hinv as [Hsnap Hrows]. simpl in Hsnap, Hrows.
  cbn [github_repo_snapshots sent].
  destruct (latest_snapshot _ _) as [nowSnapshot|]; [|by split].
  apply upsertTrend_invariant; [|by split].
  apply fallback_trend_stars_prev. intros p Hp%most_recent_elem.
  apply list_elem_of_filter in Hp as [_ Hp]. apply Hnn. by rewrite <- Hsnap.
Qed.

(** C10. A scoring pass over snapshots whose star counts are not negative
    keeps the Trend table free of a previous star count of zero: if every
    row had [stars_prev] null or positive before the pass, every row has
    after it, on the batch path and on the fallback path alike. *)
Theorem trend_rows_never_record_zero_stars env clk secret w :
  (∀ s, s ∈ github_repo_snapshots (db w) → 0 ≤ Snapshot.stars_count s) →
  (∀ row, row ∈ github_repo_trends (db w) →
     Trend.stars_prev row = None ∨ ∃ p, Trend.stars_prev row = Some p ∧ 0 < p) →
  ∀ row, row ∈ github_repo_trends (db (score_GET env clk secret w).2) →
    Trend.stars_prev row = None ∨ ∃ p, Trend.stars_prev row = Some p ∧ 0 < p.
Proof.
  intros Hnn Hold.
  assert (scoring_invariant (github_repo_snapshots (db w)) (db w)) as Hinv.
  { split; [done|]. intros row Hrow.
    destruct (Hold row Hrow) as [->|(p & -> & ?)]; done. }
  assert (scoring_invariant (github_repo_snapshots (db w))
            (db (score_GET env clk secret w).2)) as [_ Hnew].
  { unfold score_GET. destruct (auth_fails env secret); [done|].
    cbv zeta.
    destruct (rpc_compute_repo_trends_14d (sent RpcComputeTrends (db w)))
      as [trends|queryError] eqn:Hrpc; [|destruct (rpc_does_not_exist queryError)];
      cbn [snd db].
    - set (acc := foldl _ _ _).
      assert (scoring_invariant (github_repo_snapshots (db w)) acc.2) as [? ?].
      { apply (foldl_invariant
                 (λ acc, scoring_invariant (github_repo_snapshots (db w)) acc.2)).
        - done.
        - intros a trend Htrend Ha. apply score_trend_invariant; [done| |done].
          by rewrite (rpc_rows _ _ Hrpc) in Htrend. }
      by split.
    - set (acc := foldl _ _ _).
      assert (scoring_invariant (github_repo_snapshots (db w)) acc.2) as [? ?].
      { apply (foldl_invariant
                 (λ acc, scoring_invariant (github_repo_snapshots (db w)) acc.2)).
        - done.
        - intros a repo _ Ha. by apply score_repo_invariant. }
      by split.
    - done. }
  intros row Hrow. specialize (Hnew row Hrow).
  destruct (Trend.stars_prev row) as [p|]; [right; by exists p|by left].
Qed.

Lemma trend_rows_never_record_zero_stars_witness :
  let row := fallback_trend nov_2 7 (sample_snapshot 7 (now_ms nov_2) 5)
               (Some (sample_snapshot 7 (now_ms nov_2 - 20 * ms_per_day) 0)) in
  Trend.stars_prev row = None ∨ ∃ p, Trend.stars_prev row = Some p ∧ 0 < p.
Proof.
  apply (trend_rows_never_record_zero_stars sample_env nov_2 (Some "s3cret")
           (from_zero_world RpcMissing)).
  - intros s Hs. simpl in Hs.
    apply elem_of_cons in Hs as [->|Hs]; [simpl; lia|].
    apply elem_of_cons in Hs as [->|Hs]; [simpl; lia|].
    by apply elem_of_nil in Hs.
  - intros row Hrow. simpl in Hrow. by apply elem_of_nil in Hrow.
  - apply list_elem_of_singleton. reflexivity.
Defined.

(** Both loops store null for a previous count of zero. *)
Example zero_previous_stars_stored_as_null :
  Trend.stars_prev
    (batch_trend nov_2
       (paired 7 (sample_snapshot 7 (now_ms nov_2) 5)
          (Some (sample_snapshot 7 (now_ms nov_2 - 20 * ms_per_day) 0))))
  = None ∧
  Trend.stars_prev
    (fallback_trend nov_2 7 (sample_snapshot 7 (now_ms nov_2) 5)
       (Some (sample_snapshot 7 (now_ms nov_2 - 20 * ms_per_day) 0)))
  = None.
Proof. split; reflexivity. Qed.

(** Discovery never writes to the Trend table. *)
Lemma insert_rows_trends batch s :
  github_repo_trends (insert_rows batch s) = github_repo_trends s.
Proof.
  revert s. induction batch as [|n rest IH]; intros s; [done|].
  cbn [insert_rows]. by rewrite IH.
Qed.

Lemma insert_batches_trends fuel pending created s :
  github_repo_trends (insert_batches fuel pending created s).2
  = github_repo_trends s.
Proof.
  revert pending created s. induction fuel as [|fuel IH]; intros pending created s.
  - by destruct pending.
  - destruct pending as [|n rest]; [done|]. cbn [insert_batches].
    rewrite IH. unfold insert_tasks. by rewrite insert_rows_trends.
Qed.

Lemma seedTasks_trends clk config s :
  github_repo_trends (seedTasks clk config s).2 = github_repo_trends s.
Proof.
  unfold seedTasks. destruct (foldl _ _ _) as [tasksToInsert skipped].
  pose proof (insert_batches_trends (length tasksToInsert) tasksToInsert 0
                (sent SelectTaskKeys s)) as H.
  by destruct (insert_batches _ _ _ _).
Qed.

Lemma upsert_items_trends clk repos p :
  github_repo_trends (db (progress_world (upsert_items clk repos p).2))
  = github_repo_trends (db (progress_world p)).
Proof.
  revert p. induction repos as [|repo rest IH]; intros p; [done|].
  cbn [upsert_items]. unfold upsertRepo.
  destruct (full_name_clash repo _); [done|]. by rewrite IH.
Qed.

Lemma process_pages_trends env github clk task remaining page p :
  github_repo_trends
    (db (progress_world (process_pages env github clk task remaining page p).2))
  = github_repo_trends (db (progress_world p)).
Proof.
  revert page p. induction remaining as [|n IH]; intros page p; [done|].
  cbn [process_pages].
  destruct (searchRepositories env github (task_params task page)).1
    as [response|message]; [|done].
  set (q := mkProgress _ _ _ _ _).
  pose proof (upsert_items_trends clk (items response) q) as Hitems.
  destruct (upsert_items clk (items response) q) as [[message|] q'];
    cbn [snd] in Hitems; [exact Hitems|].
  repeat case_match; cbn [snd with_next progress_world];
    rewrite ?IH; cbn [with_next progress_world]; exact Hitems.
Qed.

Lemma discover_task_trends env github clk acc task :
  github_repo_trends (db (discover_task env github clk acc task).2)
  = github_repo_trends (db acc.2).
Proof.
  destruct acc as [totals w]. unfold discover_task, processTask.
  pose proof (process_pages_trends env github clk task
                (Z.to_nat (MAX_PAGES_PER_TASK env)) (default 0 (Task.page task))
                (mkProgress w 0 0 false None)) as H.
  by destruct (process_pages _ _ _ _ _ _ _) as [[message|] p].
Qed.

Lemma discover_GET_trends env github clk secret w :
  github_repo_trends (db (discover_GET env github clk secret w).2)
  = github_repo_trends (db w).
Proof.
  unfold discover_GET. destruct (auth_fails env secret); [done|].
  set (w1 := match take 1 _ with [] => _ | _ => _ end).
  assert (github_repo_trends (db w1) = github_repo_trends (db w)) as Hw1.
  { unfold w1. destruct (take 1 _); [|done].
    cbn [on_db db]. by rewrite seedTasks_trends. }
  destruct (claim_github_tasks _ _ _ _) as [[claimedTasks tasks']|e]; [|done].
  destruct claimedTasks as [|task rest]; [done|].
  destruct (requireGitHubToken env); [|done].
  set (start := (mkTotals 0 0 0 [], _)).
  assert (github_repo_trends (db (foldl (discover_task env github clk) start
                                    (task :: rest)).2)
          = github_repo_trends (db w)) as Hfold.
  { apply (foldl_invariant
             (λ acc, github_repo_trends (db acc.2) = github_repo_trends (db w))).
    - done.
    - intros acc t _ Hacc. by rewrite discover_task_trends. }
  by destruct (foldl _ _ _).
Qed.

(** * Further properties *)

(** ** The claim operation: rows it leaves alone, repeated claims, completeness *)

Lemma update_claimed_ids now claimed tbl :
  Task.id <$> update_claimed now claimed tbl = Task.id <$> tbl.
Proof.
  unfold update_claimed. rewrite <- list_fmap_compose.
  apply list_fmap_ext. intros i t _. simpl. by case_bool_decide.
Qed.

Lemma returning_claimed_ids_elem now claimed tbl t :
  t ∈ tbl → Task.id t ∈ claimed →
  Task.id t ∈ Task.id <$> returning_claimed now claimed tbl.
Proof.
  intros Ht Hc. unfold returning_claimed. rewrite <- list_fmap_compose.
  apply list_elem_of_fmap. exists t. split; [done|].
  by apply list_elem_of_filter.
Qed.

(** X2. A claim keeps every row of the table in its place with its id, and
    leaves every row whose id is not in the result set exactly as it was. *)
Theorem claim_github_tasks_leaves_other_rows now locked p_limit tbl rows tbl' :
  claim_github_tasks now locked p_limit tbl = Ok (rows, tbl') →
  Task.id <$> tbl' = Task.id <$> tbl ∧
  ∀ i t, tbl !! i = Some t → Task.id t ∉ Task.id <$> rows → tbl' !! i = Some t.
Proof.
  unfold claim_github_tasks. destruct (limit_rows p_limit tbl) as [n|e]; [|done].
  intros [= <- <-]. split; [apply update_claimed_ids|].
  intros i t Hi Hnot. unfold update_claimed. rewrite list_lookup_fmap, Hi. simpl.
  case_bool_decide as Hc; [|done]. exfalso. apply Hnot.
  apply returning_claimed_ids_elem; [by eapply list_elem_of_lookup_2|done].
Qed.

Lemma claim_github_tasks_leaves_other_rows_witness :
  let rows := returning_claimed (now_ms nov_2) [1; 2] sample_tasks in
  let tbl' := update_claimed (now_ms nov_2) [1; 2] sample_tasks in
  Task.id <$> tbl' = Task.id <$> sample_tasks ∧
  ∀ i t, sample_tasks !! i = Some t → Task.id t ∉ Task.id <$> rows →
         tbl' !! i = Some t.
Proof.
  apply (claim_github_tasks_leaves_other_rows (now_ms nov_2) ∅ (Some 3)
           sample_tasks).
  reflexivity.
Defined.

(** X3. A task returned by one claim is not returned by the next claim on the
    table the first one left, whatever the times, limits and foreign locks
    of the two calls: the first call left it ['in_progress'], which the
    WHERE clause excludes. *)
Theorem claimed_task_is_not_claimed_again now1 locked1 limit1 now2 locked2 limit2
    tbl rows1 tbl1 rows2 tbl2 :
  claim_github_tasks now1 locked1 limit1 tbl = Ok (rows1, tbl1) →
  claim_github_tasks now2 locked2 limit2 tbl1 = Ok (rows2, tbl2) →
  ∀ r1 r2, r1 ∈ rows1 → r2 ∈ rows2 → Task.id r1 ≠ Task.id r2.
Proof.
  unfold claim_github_tasks.
  destruct (limit_rows limit1 tbl) as [n1|e]; [|done]. intros [= <- <-].
  destruct (limit_rows limit2 _) as [n2|e]; [|done]. intros [= <- <-].
  intros r1 r2 Hr1%returning_claimed_elem Hr2%returning_claimed_elem Heq.
  apply select_claimed_elem in Hr2 as (t & Ht & Hid & Hel & _).
  apply update_claimed_elem in Ht as (o & Ho & Hido & [[-> Hnot]|[_ Hst]]).
  - apply Hnot. congruence.
  - by apply eligible_not_in_progress in Hel.
Qed.

Lemma claimed_task_is_not_claimed_again_witness :
  let r1 := claim_row (now_ms nov_2) (sample_task 1 ready (Some 3) None) in
  let r2 := claim_row (now_ms nov_3)
              (sample_task 2 done (Some 4)
                 (Some (now_ms nov_2 - 10 * ms_per_day))) in
  Task.id r1 ≠ Task.id r2.
Proof.
  apply (claimed_task_is_not_claimed_again (now_ms nov_2) ∅ (Some 1)
           (now_ms nov_3) ∅ (Some 3) sample_tasks
           (returning_claimed (now_ms nov_2) [1] sample_tasks)
           (update_claimed (now_ms nov_2) [1] sample_tasks)
           (returning_claimed (now_ms nov_3) [2]
              (update_claimed (now_ms nov_2) [1] sample_tasks))
           (update_claimed (now_ms nov_3) [2]
              (update_claimed (now_ms nov_2) [1] sample_tasks))).
  - reflexivity.
  - reflexivity.
  - apply list_elem_of_singleton. reflexivity.
  - apply list_elem_of_singleton. reflexivity.
Defined.

Lemma select_claimed_picked now locked n tbl :
  ∃ picked, picked `sublist_of` tbl ∧
    select_claimed now locked n tbl = Task.id <$> picked.
Proof.
  revert n. induction tbl as [|t rest IH]; intros n.
  - exists []. by split.
  - destruct n as [|n']; [exists []; split; [apply sublist_nil_l|done]|].
    cbn [select_claimed].
    destruct (eligible now t && negb (bool_decide (Task.id t ∈ locked))).
    + destruct (IH n') as (picked & Hsub & ->).
      exists (t :: picked). split; [by apply sublist_skip|done].
    + destruct (IH (S n')) as (picked & Hsub & ->).
      exists picked. split; [by apply sublist_cons|done].
Qed.

Lemma sublist_into_filter {A} (P : A → Prop) `{!∀ x, Decision (P x)}
    (picked l : list A) :
  picked `sublist_of` l → (∀ x, x ∈ picked → P x) →
  picked `sublist_of` filter P l.
Proof.
  induction 1 as [|x l1 l2 Hsub IH|x l1 l2 Hsub IH]; intros Hall.
  - done.
  - rewrite filter_cons_True by (apply Hall, elem_of_cons; by left).
    apply sublist_skip, IH. intros y Hy. apply Hall, elem_of_cons. by right.
  - rewrite filter_cons. case_decide; [apply sublist_cons|]; by apply IH.
Qed.

Lemma select_claimed_returned now locked n tbl :
  (length (select_claimed now locked n tbl)
   <= length (returning_claimed now (select_claimed now locked n tbl) tbl))%nat.
Proof.
  destruct (select_claimed_picked now locked n tbl) as (picked & Hsub & Hsel).
  unfold returning_claimed. rewrite length_fmap. rewrite Hsel at 1.
  rewrite length_fmap. apply sublist_length, sublist_into_filter; [done|].
  intros t Ht. rewrite Hsel. by apply list_elem_of_fmap_2.
Qed.

Lemma select_claimed_complete now locked n tbl t :
  (length (select_claimed now locked n tbl) < n)%nat →
  t ∈ tbl → eligible now t = true → Task.id t ∉ locked →
  Task.id t ∈ select_claimed now locked n tbl.
Proof.
  revert n. induction tbl as [|x rest IH]; intros n Hlen Ht Hel Hfree.
  - by apply elem_of_nil in Ht.
  - destruct n as [|n']; [simpl in Hlen; lia|]. cbn [select_claimed] in *.
    destruct (eligible now x && negb (bool_decide (Task.id x ∈ locked))) eqn:Hx.
    + cbn [length] in Hlen. apply elem_of_cons in Ht as [->|Ht].
      * apply elem_of_cons. by left.
      * apply elem_of_cons. right. apply IH; [lia|done..].
    + apply elem_of_cons in Ht as [->|Ht].
      * rewrite Hel, bool_decide_eq_false_2 in Hx by done. discriminate.
      * by apply IH.
Qed.

(** X4. A claim that returns fewer rows than its limit has returned every row
    that passes the WHERE clause and is not locked by another transaction. *)
Theorem claim_below_limit_takes_every_eligible_row now locked (p_limit : Z)
    tbl rows tbl' t :
  claim_github_tasks now locked (Some p_limit) tbl = Ok (rows, tbl') →
  Z.of_nat (length rows) < p_limit →
  t ∈ tbl → eligible now t = true → Task.id t ∉ locked →
  Task.id t ∈ Task.id <$> rows.
Proof.
  unfold claim_github_tasks, limit_rows.
  destruct (p_limit <? 0) eqn:Hneg; [done|]. apply Z.ltb_ge in Hneg.
  intros [= <- <-] Hlen Ht Hel Hfree.
  apply returning_claimed_ids_elem; [done|].
  apply select_claimed_complete; [|done..].
  pose proof (select_claimed_returned now locked (Z.to_nat p_limit) tbl). lia.
Qed.

Lemma claim_below_limit_takes_every_eligible_row_witness :
  let rows := returning_claimed (now_ms nov_2) [1; 2] sample_tasks in
  Task.id (sample_task 2 done (Some 4) (Some (now_ms nov_2 - 10 * ms_per_day)))
    ∈ Task.id <$> rows.
Proof.
  apply (claim_below_limit_takes_every_eligible_row (now_ms nov_2) ∅ 3
           sample_tasks _ (update_claimed (now_ms nov_2) [1; 2] sample_tasks)).
  - reflexivity.
  - vm_compute. reflexivity.
  - apply (list_elem_of_lookup_2 _ 1%nat). reflexivity.
  - reflexivity.
  - apply not_elem_of_empty.
Defined.

(** ** Row locks *)

Lemma schedule_step_locks st i :
  locks_held_by_running st → locks_held_by_running (schedule_step st i).
Proof.
  intros Hinv. destruct st as [d txs]. unfold schedule_step. cbn [fst snd].
  destruct (txs !! i) as [tx|] eqn:Hi; [|done].
  destruct (tx_result tx) as [rows|] eqn:Hrun; [done|].
  pose proof (lookup_lt_Some _ _ _ Hi) as Hlen.
  assert (∀ tx' rid j,
            tx_result tx' = None → db_locks d !! rid = Some j →
            ∃ txj, <[i := tx']> txs !! j = Some txj ∧ tx_result txj = None)
    as Hpass.
  { intros tx' rid j Hnone (txj & Hj & Hrunj)%Hinv.
    destruct (decide (j = i)) as [->|Hne].
    - exists tx'. by rewrite list_lookup_insert_eq.
    - exists txj. by rewrite list_lookup_insert_ne. }
  unfold claim_step. case_decide.
  - destruct (db_tasks d !! tx_pos tx) as [row|] eqn:Hrow.
    + unfold scan_row.
      destruct (eligible (tx_now tx) row);
        [|intros rid j; cbn [fst snd]; by apply Hpass].
      destruct (db_locks d !! Task.id row) as [owner|] eqn:Hfree;
        [intros rid j; cbn [fst snd]; by apply Hpass|].
      intros rid j. cbn [fst snd db_locks].
      destruct (decide (rid = Task.id row)) as [->|Hne].
      * rewrite lookup_insert_eq. intros [= <-].
        eexists. by rewrite list_lookup_insert_eq.
      * rewrite lookup_insert_ne by done. by apply Hpass.
    + intros rid j. unfold commit_claim. cbn [fst snd db_locks].
      intros [Hlock Hne]%map_lookup_filter_Some. cbn in Hne.
      destruct (Hinv rid j Hlock) as (txj & Hj & Hrunj).
      exists txj. by rewrite list_lookup_insert_ne.
  - intros rid j. unfold commit_claim. cbn [fst snd db_locks].
    intros [Hlock Hne]%map_lookup_filter_Some. cbn in Hne.
    destruct (Hinv rid j Hlock) as (txj & Hj & Hrunj).
    exists txj. by rewrite list_lookup_insert_ne.
Qed.

(** X5. In every interleaving of any number of claim calls started on a table
    with no lock held, no row lock is left once all calls have committed. *)
Theorem committed_claims_hold_no_lock tbl txs schedule :
  let st := run schedule (initial tbl txs) in
  (∀ tx, tx ∈ st.2 → is_Some (tx_result tx)) →
  db_locks st.1 = ∅.
Proof.
  intros st Hdone.
  assert (locks_held_by_running st) as Hinv.
  { apply (foldl_invariant locks_held_by_running).
    - intros rid i Hlock. cbn in Hlock. by rewrite lookup_empty in Hlock.
    - intros a j _. apply schedule_step_locks. }
  apply map_empty. intros rid.
  destruct (db_locks st.1 !! rid) as [i|] eqn:Hlock; [|done].
  destruct (Hinv rid i Hlock) as (tx & Hi & Hrun).
  apply list_elem_of_lookup_2, Hdone in Hi. rewrite Hrun in Hi.
  by destruct Hi.
Qed.

Lemma committed_claims_hold_no_lock_witness :
  db_locks
    (run [0; 1; 0; 1; 0; 1; 0; 1; 0; 1]%nat
       (initial sample_tasks
          [start_claim (now_ms nov_2) 1; start_claim (now_ms nov_2) 3])).1
  = ∅.
Proof.
  apply (committed_claims_hold_no_lock sample_tasks
           [start_claim (now_ms nov_2) 1; start_claim (now_ms nov_2) 3]
           [0; 1; 0; 1; 0; 1; 0; 1; 0; 1]%nat).
  apply Forall_forall.
  apply (bool_decide_unpack _). vm_compute. exact I.
Defined.

(** ** The search client: which response a call returns *)

Lemma response_ok_not_rate_limit status :
  response_ok status = true → (status =? 403) || (status =? 429) = false.
Proof.
  unfold response_ok. intros [H1 H2]%andb_prop.
  apply Z.leb_le in H1, H2.
  apply orb_false_intro; apply Z.eqb_neq; lia.
Qed.

(** An iteration whose request succeeds returns its data. *)
Lemma retry_loop_success delay api remaining data :
  success (api (Z.to_nat (maxAttempts - Z.of_nat (S remaining)))) = Some data →
  (retry_loop delay api (S remaining)).1 = Ok data ∧
  requests_of (retry_loop delay api (S remaining)).2 = 1%nat.
Proof.
  intros Hs. rewrite retry_loop_iteration. cbv zeta.
  destruct (api _) as [m|status ra text [d|]]; try discriminate.
  simpl in Hs. destruct (response_ok status) eqn:Hok; [|discriminate].
  injection Hs as ->. rewrite (response_ok_not_rate_limit _ Hok).
  cbn [negb fst snd]. split; [done|].
  rewrite requests_of_app. by repeat case_match.
Qed.

(** An iteration whose request does not succeed, and which is not the last,
    hands over to the next iteration. *)
Lemma retry_loop_failure delay api remaining :
  success (api (Z.to_nat (maxAttempts - Z.of_nat (S remaining)))) = None →
  maxAttempts - Z.of_nat (S remaining) ≠ maxAttempts - 1 →
  (retry_loop delay api (S remaining)).1 = (retry_loop delay api remaining).1 ∧
  requests_of (retry_loop delay api (S remaining)).2
  = S (requests_of (retry_loop delay api remaining).2).
Proof.
  intros Hs Hlast. rewrite retry_loop_iteration. cbv zeta.
  set (attempt := maxAttempts - Z.of_nat (S remaining)) in *.
  set (next := retry_loop delay api remaining).
  assert (∀ message, on_catch attempt message next
                     = (next.1, Sleep (2 ^ (attempt + 1) * 1000) :: next.2))
    as Hcatch.
  { intros message. unfold on_catch.
    by replace (attempt =? maxAttempts - 1) with false
      by (symmetry; by apply Z.eqb_neq). }
  assert (requests_of (if 0 <? attempt then [Sleep delay] else []) = 0%nat) as Hb
    by (by destruct (0 <? attempt)).
  destruct (api _) as [m|status ra text json].
  - rewrite Hcatch. cbn [fst snd]. by rewrite requests_of_app, Hb.
  - destruct ((status =? 403) || (status =? 429)) eqn:Hrl.
    { cbn [fst snd]. by rewrite requests_of_app, Hb. }
    destruct (response_ok status) eqn:Hok; cbn [negb].
    + destruct json as [d|]; [simpl in Hs; by rewrite Hok in Hs|].
      rewrite Hcatch. cbn [fst snd]. by rewrite requests_of_app, Hb.
    + rewrite Hcatch. cbn [fst snd]. by rewrite requests_of_app, Hb.
Qed.

(** The last iteration fails when its request does not succeed. *)
Lemma retry_loop_last_failure delay api :
  success (api 4%nat) = None →
  ∃ message, (retry_loop delay api 1).1 = Err message.
Proof.
  intros Hs. rewrite retry_loop_iteration. cbv zeta.
  change (maxAttempts - Z.of_nat 1) with 4. change (Z.to_nat 4) with 4%nat.
  unfold on_catch. change (4 =? maxAttempts - 1) with true. cbn iota.
  destruct (api 4%nat) as [m|status ra text json]; [by eexists|].
  destruct ((status =? 403) || (status =? 429)); [by eexists|].
  destruct (response_ok status) eqn:Hok; cbn [negb]; [|by eexists].
  destruct json as [d|]; [simpl in Hs; by rewrite Hok in Hs|by eexists].
Qed.

Lemma attempt_index remaining :
  (remaining < 5)%nat →
  Z.to_nat (maxAttempts - Z.of_nat (S remaining)) = (5 - S remaining)%nat.
Proof. unfold maxAttempts. lia. Qed.

Lemma retry_loop_first_success delay api remaining k data :
  (k < remaining ≤ 5)%nat →
  success (api (5 - remaining + k)%nat) = Some data →
  (∀ m, (m < k)%nat → success (api (5 - remaining + m)%nat) = None) →
  (retry_loop delay api remaining).1 = Ok data ∧
  requests_of (retry_loop delay api remaining).2 = S k.
Proof.
  revert k. induction remaining as [|r IH]; intros k Hk Hs Hfail; [lia|].
  destruct k as [|k].
  - apply retry_loop_success. rewrite attempt_index by lia.
    by rewrite Nat.add_0_r in Hs.
  - destruct (retry_loop_failure delay api r) as [-> ->].
    + rewrite attempt_index by lia.
      specialize (Hfail 0%nat). rewrite Nat.add_0_r in Hfail.
      apply Hfail. lia.
    + unfold maxAttempts. lia.
    + destruct (IH k) as [-> ->]; [lia| | |done].
      * by replace (5 - r + k)%nat with (5 - S r + S k)%nat by lia.
      * intros m Hm.
        replace (5 - r + m)%nat with (5 - S r + S m)%nat by lia.
        apply Hfail. lia.
Qed.

Lemma retry_loop_no_success delay api remaining :
  (remaining ≤ 5)%nat →
  (∀ m, (m < remaining)%nat → success (api (5 - remaining + m)%nat) = None) →
  (∃ message, (retry_loop delay api remaining).1 = Err message) ∧
  requests_of (retry_loop delay api remaining).2 = remaining.
Proof.
  induction remaining as [|r IH]; intros Hr Hfail.
  { split; [by eexists|done]. }
  destruct r as [|r].
  - split.
    + apply retry_loop_last_failure. apply (Hfail 0%nat). lia.
    + pose proof (retry_loop_requests delay api 1).
      pose proof (retry_loop_sends delay api 0). lia.
  - destruct (retry_loop_failure delay api (S r)) as [-> ->].
    + rewrite attempt_index by lia.
      specialize (Hfail 0%nat). rewrite Nat.add_0_r in Hfail.
      apply Hfail. lia.
    + unfold maxAttempts. lia.
    + destruct IH as [He ->]; [lia| |done].
      intros m Hm.
      replace (5 - S r + m)%nat with (5 - S (S r) + S m)%nat by lia.
      apply Hfail. lia.
Qed.

(** X6. A call returns the first success among its five requests: if
    request number [n] (counting from 0, [n < 5]) is the first to be
    answered with a success status and a body that parses, the call returns
    that body after exactly [n + 1] requests, whatever mix of transport
    failures, rate limits and error statuses came before; and if none of
    the five is, the call fails, after exactly five requests. *)
Theorem searchRepositories_returns_first_success env github params :
  (∀ n data,
     (n < 5)%nat →
     success (github (url_params params) n) = Some data →
     (∀ m, (m < n)%nat → success (github (url_params params) m) = None) →
     (searchRepositories env github params).1 = Ok data ∧
     requests_of (searchRepositories env github params).2 = S n) ∧
  ((∀ m, (m < 5)%nat → success (github (url_params params) m) = None) →
   (∃ message, (searchRepositories env github params).1 = Err message) ∧
   requests_of (searchRepositories env github params).2 = 5%nat).
Proof.
  split.
  - intros n data Hn Hs Hfail.
    apply (retry_loop_first_success _ _ 5 n); [lia|done|done].
  - intros Hfail. by apply (retry_loop_no_success _ _ 5).
Qed.

Lemma searchRepositories_returns_first_success_witness :
  let params := task_params (sample_task 1 in_progress (Some 1) None) 1 in
  let data := {| total_count := 0; incomplete_results := false; items := [] |} in
  ((searchRepositories sample_env failing_once params).1 = Ok data ∧
   requests_of (searchRepositories sample_env failing_once params).2 = 2%nat) ∧
  ((∃ message,
      (searchRepositories sample_env unreachable params).1 = Err message) ∧
   requests_of (searchRepositories sample_env unreachable params).2 = 5%nat).
Proof.
  split.
  - apply (proj1 (searchRepositories_returns_first_success sample_env
                    failing_once
                    (task_params (sample_task 1 in_progress (Some 1) None) 1))
             1%nat).
    + lia.
    + reflexivity.
    + intros m Hm. destruct m; [reflexivity|lia].
  - apply (proj2 (searchRepositories_returns_first_success sample_env
                    unreachable
                    (task_params (sample_task 1 in_progress (Some 1) None) 1))).
    intros m Hm. reflexivity.
Defined.

Lemma request_split (before pre post tail : list client_event) attempt a :
  requests_of before = 0%nat →
  before ++ Request attempt :: tail = pre ++ Request a :: post →
  (pre = before ∧ a = attempt ∧ post = tail) ∨
  ∃ pre', pre = before ++ Request attempt :: pre' ∧ tail = pre' ++ Request a :: post.
Proof.
  revert pre. induction before as [|e before IH]; intros pre Hb Heq.
  - destruct pre as [|e' pre]; simpl in Heq.
    + injection Heq as -> ->. by left.
    + injection Heq as <- ->. right. by eexists.
  - destruct e as [x|ms]; [done|]. simpl in Hb.
    destruct pre as [|e' pre]; simpl in Heq; [done|].
    injection Heq as <- Heq.
    destruct (IH pre Hb Heq) as [(-> & -> & ->)|(pre' & -> & ->)];
      [by left|right; by eexists].
Qed.

(** What follows the request of an iteration: nothing but sleeps when the
    iteration leaves the function, a sleep and the next iteration otherwise. *)
Lemma retry_loop_iteration_events delay api remaining :
  ∃ tail,
    (retry_loop delay api (S remaining)).2
    = (if 0 <? maxAttempts - Z.of_nat (S remaining) then [Sleep delay] else [])
      ++ Request (maxAttempts - Z.of_nat (S remaining)) :: tail ∧
    (requests_of tail = 0%nat ∨
     ∃ ms, tail = Sleep ms :: (retry_loop delay api remaining).2).
Proof.
  rewrite retry_loop_iteration. cbv zeta. cbn [snd].
  eexists. split; [done|]. unfold on_catch.
  destruct (api _) as [m|status ra text json];
    repeat (case_match; cbn [fst snd]); eauto.
Qed.

(** Requests are numbered from 0 in the order they are sent, and every
    request but the first comes straight after the inter-request delay. *)
Lemma retry_loop_spacing delay api remaining pre a post :
  (remaining ≤ 5)%nat →
  (retry_loop delay api remaining).2 = pre ++ Request a :: post →
  a = maxAttempts - Z.of_nat remaining + Z.of_nat (requests_of pre) ∧
  (pre = [] ∧ remaining = 5%nat ∨ ∃ pre', pre = pre' ++ [Sleep delay]).
Proof.
  revert pre. induction remaining as [|r IH]; intros pre Hr Heq.
  { destruct pre; discriminate Heq. }
  destruct (retry_loop_iteration_events delay api r) as (tail & Hev & Htail).
  rewrite Hev in Heq. clear Hev.
  set (attempt := maxAttempts - Z.of_nat (S r)) in *.
  set (before := if 0 <? attempt then [Sleep delay] else []) in *.
  assert (requests_of before = 0%nat) as Hb
    by (subst before; by destruct (0 <? attempt)).
  apply request_split in Heq; [|done].
  destruct Heq as [(-> & -> & ->)|(pre' & -> & Heq)].
  - rewrite Hb. split; [lia|].
    subst before. destruct (Z.ltb_spec 0 attempt).
    + right. by exists [].
    + left. split; [done|]. subst attempt. unfold maxAttempts in *. lia.
  - destruct Htail as [Hnone|[ms ->]].
    { rewrite Heq, requests_of_app in Hnone. simpl in Hnone. lia. }
    destruct pre' as [|e pre'']; [done|]. injection Heq as <- Hnext.
    apply IH in Hnext as [-> Hpre]; [|lia].
    rewrite !requests_of_app, Hb. cbn [requests_of].
    split; [subst attempt; lia|].
    right. destruct Hpre as [[-> ->]|[p ->]]; [lia|].
    exists (before ++ Request attempt :: Sleep ms :: p).
    by rewrite <- app_assoc.
Qed.

(** X7. The requests of a call are numbered 0, 1, 2, ... in the order they
    are sent, and every request but the first comes straight after a sleep
    of [DEFAULT_DELAY_MS]. *)
Theorem searchRepositories_spaces_its_requests env github params pre a post :
  (searchRepositories env github params).2 = pre ++ Request a :: post →
  a = Z.of_nat (requests_of pre) ∧
  (pre = [] ∨ ∃ pre', pre = pre' ++ [Sleep (DEFAULT_DELAY_MS env)]).
Proof.
  intros Heq. apply retry_loop_spacing in Heq as [-> Hpre]; [|done].
  split; [done|]. destruct Hpre as [[-> _]|?]; [by left|by right].
Qed.

Lemma searchRepositories_spaces_its_requests_witness :
  let pre := [Request 0; Sleep 2000; Sleep 2100] in
  1 = Z.of_nat (requests_of pre) ∧
  (pre = [] ∨ ∃ pre', pre = pre' ++ [Sleep (DEFAULT_DELAY_MS sample_env)]).
Proof.
  apply (searchRepositories_spaces_its_requests sample_env failing_once
           (task_params (sample_task 1 in_progress (Some 1) None) 1)
           [Request 0; Sleep 2000; Sleep 2100] 1 []).
  reflexivity.
Defined.

(** ** The seeder: monthly windows *)

Lemma days_in_month_bounds y m : 28 <= days_in_month y m <= 31.
Proof. unfold days_in_month. repeat case_match; lia. Qed.

Lemma full_year_id y : 100 <= y → full_year y = y.
Proof.
  intros Hy. unfold full_year.
  destruct (Z.leb_spec 0 y), (Z.leb_spec y 99); simpl; lia.
Qed.

Lemma full_year_bounds y : 0 <= y → 100 <= full_year y.
Proof.
  intros Hy. unfold full_year.
  destruct (Z.leb_spec 0 y), (Z.leb_spec y 99); simpl; lia.
Qed.

(** What [new Date(startDate)] accepts, and the month it lands in. *)
Lemma parse_start_Some startDate y m :
  parse_start startDate = Some (y, m) →
  y = year startDate ∧ 0 <= y <= 9999 ∧ 1 <= m <= 12 ∧
  ((m = month startDate ∧
    day startDate <= days_in_month (year startDate) (month startDate))
   ∨ (m = month startDate + 1 ∧
      days_in_month (year startDate) (month startDate) < day startDate)).
Proof.
  unfold parse_start.
  destruct (Z.leb_spec 0 (year startDate)); [|done].
  destruct (Z.leb_spec (year startDate) 9999); [|done].
  destruct (Z.leb_spec 1 (month startDate)); [|done].
  destruct (Z.leb_spec (month startDate) 12); [|done].
  destruct (Z.leb_spec 1 (day startDate)); [|done].
  destruct (Z.leb_spec (day startDate) 31); [|done].
  cbn [andb].
  destruct (Z.ltb_spec (days_in_month (year startDate) (month startDate))
              (day startDate)) as [Hover|Hin]; intros [= <- <-].
  - split_and!; try lia.
    unfold days_in_month in Hover.
    destruct (Z.eqb_spec (month startDate) 12) as [Heq|]; [|lia].
    rewrite Heq in Hover. simpl in Hover. lia.
  - split_and!; lia.
Qed.

Lemma windows_from_months today y m remaining :
  100 <= y → 1 <= m <= 12 →
  (month_index ∘ from) <$> windows_from today y m remaining
  = seqZ (y * 12 + (m - 1)) (Z.of_nat remaining).
Proof.
  revert y m. induction remaining as [|r IH]; intros y m Hy Hm; [done|].
  rewrite seqZ_cons by lia. cbn [windows_from fmap list_fmap].
  rewrite !full_year_id by done.
  f_equal.
  replace (Z.pred (Z.of_nat (S r))) with (Z.of_nat r) by lia.
  destruct (Z.eqb_spec m 12) as [->|Hne].
  - rewrite IH by lia. f_equal. lia.
  - rewrite IH by lia. f_equal. lia.
Qed.

(** X8. For a start date that is a day of the calendar, with a year from 100
    to 9999, there is exactly one window per calendar month from the start
    date's month through today's, in order (none when the start date lies
    in a later month). *)
Theorem generateMonthlyWindows_months today startDate :
  100 <= year startDate <= 9999 →
  1 <= month startDate <= 12 →
  1 <= day startDate <= days_in_month (year startDate) (month startDate) →
  (month_index ∘ from) <$> generateMonthlyWindows today startDate
  = seqZ (month_index startDate) (month_index today - month_index startDate + 1).
Proof.
  intros Hy Hm Hd. unfold generateMonthlyWindows.
  destruct (parse_start startDate) as [[y m]|] eqn:Hparse.
  - apply parse_start_Some in Hparse as (-> & _ & Hm' & [[-> _]|[_ ?]]); [|lia].
    cbv zeta. rewrite full_year_id by lia. cbn [year month].
    rewrite windows_from_months by lia. unfold seqZ, month_index.
    cbn [year month]. by rewrite Nat2Z.id.
  - exfalso. unfold parse_start in Hparse.
    pose proof (days_in_month_bounds (year startDate) (month startDate)).
    destruct (Z.leb_spec 0 (year startDate)); [|lia].
    destruct (Z.leb_spec (year startDate) 9999); [|lia].
    destruct (Z.leb_spec 1 (month startDate)); [|lia].
    destruct (Z.leb_spec (month startDate) 12); [|lia].
    destruct (Z.leb_spec 1 (day startDate)); [|lia].
    destruct (Z.leb_spec (day startDate) 31); [|lia].
    cbn [andb] in Hparse. by destruct (_ <? _).
Qed.

Lemma generateMonthlyWindows_months_witness :
  (month_index ∘ from) <$>
    generateMonthlyWindows (mkDate 2026 11 2) (mkDate 2026 9 15)
  = seqZ (month_index (mkDate 2026 9 15))
      (month_index (mkDate 2026 11 2) - month_index (mkDate 2026 9 15) + 1).
Proof.
  apply (generateMonthlyWindows_months (mkDate 2026 11 2) (mkDate 2026 9 15)).
  - simpl. lia.
  - simpl. lia.
  - change (1 <= 15 <= 30). lia.
Defined.

(** Where [new Date(startDate)] does not land in the month written: a day
    that February does not have starts the windows in March, a two-digit
    year starts them in the twentieth century, and a month that does not
    exist gives no window at all. *)
Example generateMonthlyWindows_day_overflow :
  from <$> generateMonthlyWindows (mkDate 2026 11 2) (mkDate 2026 2 30)
  = (λ m, mkDate 2026 m 1) <$> seqZ 3 9.
Proof. reflexivity. Qed.

Example generateMonthlyWindows_two_digit_year :
  head (generateMonthlyWindows (mkDate 2026 11 2) (mkDate 26 11 1))
  = Some (mkWindow (mkDate 1926 11 1) (mkDate 1926 11 30)).
Proof. reflexivity. Qed.

Example generateMonthlyWindows_invalid_date :
  generateMonthlyWindows (mkDate 2026 11 2) (mkDate 2026 13 1) = [].
Proof. reflexivity. Qed.

Lemma date_ltb_irrefl d : date_ltb d d = false.
Proof.
  unfold date_ltb. rewrite !Z.ltb_irrefl, !Z.eqb_refl. reflexivity.
Qed.

Lemma windows_from_shape today y m remaining w :
  100 <= y → 1 <= m <= 12 →
  w ∈ windows_from today y m remaining →
  ∃ y' m',
    1 <= m' <= 12 ∧
    y * 12 + m <= y' * 12 + m' < y * 12 + m + Z.of_nat remaining ∧
    from w = mkDate y' m' 1 ∧
    to w = if date_ltb today (mkDate y' m' (days_in_month y' m')) then today
           else mkDate y' m' (days_in_month y' m').
Proof.
  revert y m. induction remaining as [|r IH]; intros y m Hy Hm Hw.
  { by apply elem_of_nil in Hw. }
  cbn [windows_from] in Hw. rewrite !full_year_id in Hw by done.
  apply elem_of_cons in Hw as [->|Hw].
  { exists y, m. split_and!; (done || lia). }
  destruct (Z.eqb_spec m 12) as [->|Hne];
    apply IH in Hw as (y' & m' & ? & ? & ? & ?); try lia;
    exists y', m'; split_and!; (done || lia).
Qed.

(** X9. Every window starts on the first day of its month and ends in that
    month, on a day within the month and not before the start, and no
    window ends after today. *)
Theorem generateMonthlyWindows_within_today today startDate w :
  1 <= month startDate <= 12 →
  1 <= month today <= 12 →
  1 <= day today →
  w ∈ generateMonthlyWindows today startDate →
  day (from w) = 1 ∧
  year (to w) = year (from w) ∧ month (to w) = month (from w) ∧
  1 <= day (to w) <= days_in_month (year (from w)) (month (from w)) ∧
  date_ltb today (to w) = false.
Proof.
  intros Hs Ht Hd Hw. unfold generateMonthlyWindows in Hw.
  destruct (parse_start startDate) as [[y m]|] eqn:Hparse;
    [|by apply elem_of_nil in Hw].
  apply parse_start_Some in Hparse as (_ & Hyear & Hm & _).
  cbv zeta in Hw. cbn [year month] in Hw.
  apply windows_from_shape in Hw as (y' & m' & Hm' & Hidx & -> & ->);
    [|apply full_year_bounds; lia|done].
  pose proof (days_in_month_bounds y' m') as Hdim.
  cbn [day year month].
  destruct (date_ltb today (mkDate y' m' (days_in_month y' m'))) eqn:Hlt.
  - rewrite date_ltb_irrefl. unfold date_ltb, month_index in *.
    cbn [day year month] in *.
    destruct today as [ty tm td]. cbn [day year month] in *.
    apply orb_prop in Hlt as [Hlt|Hlt]; [apply Z.ltb_lt in Hlt; lia|].
    apply andb_prop in Hlt as [Hy Hlt]. apply Z.eqb_eq in Hy. subst ty.
    apply orb_prop in Hlt as [Hlt|Hlt]; [apply Z.ltb_lt in Hlt; lia|].
    apply andb_prop in Hlt as [Hmo Hlt]. apply Z.eqb_eq in Hmo. subst tm.
    apply Z.ltb_lt in Hlt. split_and!; (done || lia).
  - cbn [day year month]. split_and!; (done || lia).
Qed.

Lemma generateMonthlyWindows_within_today_witness :
  let w := mkWindow (mkDate 2026 11 1) (mkDate 2026 11 2) in
  day (from w) = 1 ∧
  year (to w) = year (from w) ∧ month (to w) = month (from w) ∧
  1 <= day (to w) <= days_in_month (year (from w)) (month (from w)) ∧
  date_ltb (mkDate 2026 11 2) (to w) = false.
Proof.
  apply (generateMonthlyWindows_within_today (mkDate 2026 11 2)
           (mkDate 2026 9 15)).
  - simpl. lia.
  - simpl. lia.
  - simpl. lia.
  - apply (list_elem_of_lookup_2 _ 2%nat). reflexivity.
Defined.

(** ** The seeder: what a run adds *)

Lemma seed_bands_collect config refresh existingKeys w bands acc :
  foldl (seed_band config refresh existingKeys w) acc bands
  = (acc.1 ++
       (task_of_band config refresh w <$>
          filter (λ band, candidate_key config w band ∉ existingKeys)
            (filter (λ band, band_skipped config band = false) bands)),
     acc.2 + Z.of_nat (length
       (filter (λ band, candidate_key config w band ∈ existingKeys)
          (filter (λ band, band_skipped config band = false) bands)))).
Proof.
  revert acc. induction bands as [|band bands IH]; intros acc.
  { destruct acc. simpl. f_equal; [by rewrite app_nil_r|lia]. }
  cbn [foldl]. rewrite IH, seed_band_cases.
  rewrite (filter_cons (λ band, band_skipped config band = false)).
  destruct (band_skipped config band) eqn:Hs.
  { rewrite decide_False by done. done. }
  rewrite decide_True by done.
  rewrite !filter_cons.
  case_bool_decide as Hin.
  - rewrite decide_False by (intros Hn; by apply Hn).
    rewrite decide_True by done. cbn [fst snd length]. f_equal. lia.
  - rewrite decide_True by done. rewrite decide_False by done.
    cbn [fst snd fmap list_fmap]. f_equal.
    rewrite <- app_assoc. reflexivity.
Qed.

Lemma seed_windows_collect config refresh existingKeys windows acc :
  foldl (seed_window config refresh existingKeys) acc windows
  = (acc.1 ++ fresh_tasks config refresh existingKeys windows,
     acc.2 + Z.of_nat (length (stale_candidates config existingKeys windows))).
Proof.
  revert acc. induction windows as [|w windows IH]; intros acc.
  { destruct acc. simpl. f_equal; [by rewrite app_nil_r|lia]. }
  cbn [foldl]. rewrite IH. unfold seed_window. rewrite seed_bands_collect.
  unfold fresh_tasks, stale_candidates, bands_of. rewrite !bind_cons.
  cbn [fst snd]. rewrite length_app, length_fmap, <- app_assoc.
  f_equal. lia.
Qed.

Lemma insert_rows_rows batch s :
  github_search_tasks (insert_rows batch s)
  = github_search_tasks s ++ rows_of (github_search_tasks_id_seq s) batch ∧
  github_search_tasks_id_seq (insert_rows batch s)
  = github_search_tasks_id_seq s + Z.of_nat (length batch).
Proof.
  revert s. induction batch as [|n rest IH]; intros s.
  { simpl. split; [by rewrite app_nil_r|lia]. }
  cbn [insert_rows]. destruct (IH (set_tasks
    (github_search_tasks s ++
       [row_of_new_task (github_search_tasks_id_seq s + 1) n])
    (set_tasks_id_seq (github_search_tasks_id_seq s + 1) s))) as [-> ->].
  cbn [github_search_tasks github_search_tasks_id_seq set_tasks set_tasks_id_seq].
  split; [|cbn [length]; lia].
  unfold rows_of. rewrite <- app_assoc. f_equal.
  rewrite (seqZ_cons _ (Z.of_nat (length (n :: rest)))) by (cbn [length]; lia).
  cbn [zip_with app]. do 3 f_equal. cbn [length]. lia.
Qed.

Lemma rows_of_app seq xs ys :
  rows_of seq (xs ++ ys)
  = rows_of seq xs ++ rows_of (seq + Z.of_nat (length xs)) ys.
Proof.
  unfold rows_of. rewrite length_app, Nat2Z.inj_add, seqZ_app by lia.
  rewrite zip_with_app by (by rewrite length_seqZ, Nat2Z.id).
  do 3 f_equal. lia.
Qed.

Lemma insert_batches_rows fuel pending created s :
  (length pending <= fuel)%nat →
  insert_batches fuel pending created s
  = (created + Z.of_nat (length pending),
     (insert_batches fuel pending created s).2) ∧
  github_search_tasks (insert_batches fuel pending created s).2
  = github_search_tasks s ++ rows_of (github_search_tasks_id_seq s) pending ∧
  github_search_tasks_id_seq (insert_batches fuel pending created s).2
  = github_search_tasks_id_seq s + Z.of_nat (length pending).
Proof.
  revert pending created s.
  induction fuel as [|fuel IH]; intros pending created s Hlen.
  { destruct pending; [|simpl in Hlen; lia]. simpl.
    split_and!; [f_equal; lia|by rewrite app_nil_r|lia]. }
  destruct pending as [|n rest].
  { simpl. split_and!; [f_equal; lia|by rewrite app_nil_r|lia]. }
  cbn [insert_batches].
  set (batch := take batchSize (n :: rest)).
  set (later := drop batchSize (n :: rest)).
  assert (batch ++ later = n :: rest) as Hsplit by apply take_drop.
  destruct (IH later (created + Z.of_nat (length batch)) (insert_tasks batch s))
    as (Hc & Ht & Hq).
  { subst later. rewrite length_drop. unfold batchSize. simpl in *. lia. }
  unfold insert_tasks in *.
  destruct (insert_rows_rows batch (sent (InsertTasks (length batch)) s))
    as [Htb Hqb].
  cbn [github_search_tasks github_search_tasks_id_seq sent] in Htb, Hqb.
  split_and!.
  - rewrite Hc at 1. cbn [snd]. f_equal.
    rewrite <- Hsplit, length_app. lia.
  - rewrite Ht, Htb, Hqb, <- app_assoc, <- rows_of_app, Hsplit. done.
  - rewrite Hq, Hqb, <- Hsplit, length_app. lia.
Qed.

(** A run, as what it adds to the table and what it reports. *)
Lemma seedTasks_run clk config s :
  let windows :=
    generateMonthlyWindows (today clk) (SeederConfig.createdFrom config) in
  let refresh := default 7 (num_or_null (SeederConfig.refreshEveryDays config)) in
  let existingKeys := key_of_row <$> github_search_tasks s in
  let tasks := fresh_tasks config refresh existingKeys windows in
  (seedTasks clk config s).1
  = (Z.of_nat (length tasks),
     Z.of_nat (length (stale_candidates config existingKeys windows))) ∧
  github_search_tasks (seedTasks clk config s).2
  = github_search_tasks s ++ rows_of (github_search_tasks_id_seq s) tasks ∧
  github_search_tasks_id_seq (seedTasks clk config s).2
  = github_search_tasks_id_seq s + Z.of_nat (length tasks).
Proof.
  intros windows refresh existingKeys tasks. unfold seedTasks.
  fold windows refresh.
  change (key_of_row <$> github_search_tasks (sent SelectTaskKeys s))
    with existingKeys.
  rewrite seed_windows_collect. cbn [fst snd app]. fold tasks.
  destruct (insert_batches_rows (length tasks) tasks 0 (sent SelectTaskKeys s))
    as (Hc & Ht & Hq); [done|].
  rewrite Hc. cbn [fst snd]. split_and!; [f_equal; lia|done|done].
Qed.

Lemma windows_from_later today y m remaining w :
  100 <= y →
  w ∈ windows_from today y m remaining →
  y < year (from w) ∨ (y = year (from w) ∧ m <= month (from w)).
Proof.
  revert y m. induction remaining as [|r IH]; intros y m Hy Hw.
  { by apply elem_of_nil in Hw. }
  cbn [windows_from] in Hw. rewrite !full_year_id in Hw by done.
  apply elem_of_cons in Hw as [->|Hw].
  { right. cbn [from year month]. lia. }
  destruct (Z.eqb_spec m 12) as [Heq|Hne]; apply IH in Hw; lia.
Qed.

Lemma windows_from_NoDup today y m remaining :
  100 <= y → NoDup (windows_from today y m remaining).
Proof.
  revert y m. induction remaining as [|r IH]; intros y m Hy; [constructor|].
  cbn [windows_from]. rewrite !full_year_id by done. constructor.
  - intros Hin.
    destruct (Z.eqb_spec m 12) as [Heq|Hne];
      apply windows_from_later in Hin; cbn [from year month] in Hin; lia.
  - destruct (m =? 12); apply IH; lia.
Qed.

Lemma generateMonthlyWindows_NoDup today startDate :
  NoDup (generateMonthlyWindows today startDate).
Proof.
  unfold generateMonthlyWindows.
  destruct (parse_start startDate) as [[y m]|] eqn:Hparse; [|constructor].
  apply parse_start_Some in Hparse as (_ & Hy & _).
  apply windows_from_NoDup. cbn [year]. apply full_year_bounds. lia.
Qed.

Lemma band_maxima_distinct b1 b2 :
  b1 ∈ DEFAULT_STAR_BANDS → b2 ∈ DEFAULT_STAR_BANDS →
  num_or_null (num_or_null b1.2) = num_or_null (num_or_null b2.2) → b1 = b2.
Proof.
  unfold DEFAULT_STAR_BANDS. intros H1 H2.
  repeat (apply elem_of_cons in H1 as [->|H1]);
    [..|by apply elem_of_nil in H1];
    repeat (apply elem_of_cons in H2 as [->|H2]);
    try (by apply elem_of_nil in H2); by (reflexivity || discriminate).
Qed.

Lemma DEFAULT_STAR_BANDS_NoDup : NoDup DEFAULT_STAR_BANDS.
Proof. by apply (bool_decide_unpack _). Qed.

Lemma fresh_tasks_elem config refresh existingKeys windows n :
  n ∈ fresh_tasks config refresh existingKeys windows ↔
  ∃ w band, w ∈ windows ∧ band ∈ DEFAULT_STAR_BANDS ∧
    band_skipped config band = false ∧
    (candidate_key config w band ∉ existingKeys) ∧
    n = task_of_band config refresh w band.
Proof.
  unfold fresh_tasks, bands_of. rewrite list_elem_of_bind. split.
  - intros (w & (band & -> & Hb)%list_elem_of_fmap & Hw).
    apply list_elem_of_filter in Hb as [Hnew Hb].
    apply list_elem_of_filter in Hb as [Hs Hb]. by exists w, band.
  - intros (w & band & Hw & Hb & Hs & Hnew & ->). exists w. split; [|done].
    apply list_elem_of_fmap. exists band. split; [done|].
    apply list_elem_of_filter. split; [done|].
    by apply list_elem_of_filter.
Qed.

Lemma fresh_tasks_keys_NoDup config refresh existingKeys windows :
  NoDup windows →
  NoDup (key_of_new <$> fresh_tasks config refresh existingKeys windows).
Proof.
  intros Hnd. apply NoDup_fmap_2_strong.
  - intros n1 n2 (w1 & b1 & _ & Hb1 & _ & _ & ->)%fresh_tasks_elem
      (w2 & b2 & _ & Hb2 & _ & _ & ->)%fresh_tasks_elem Hkey.
    unfold key_of_new, task_of_band in Hkey. cbn in Hkey.
    injection Hkey as Hfrom Hto _ Hmax.
    rewrite (band_maxima_distinct b1 b2 Hb1 Hb2 Hmax).
    destruct w1, w2. cbn in *. by subst.
  - unfold fresh_tasks. apply NoDup_bind; [| |done].
    + intros w1 w2 n _ _ (b1 & -> & _)%list_elem_of_fmap
        (b2 & Heq & _)%list_elem_of_fmap.
      unfold task_of_band in Heq. injection Heq as Hfrom Hto _ _.
      destruct w1, w2. cbn in *. by subst.
    + intros w _. apply NoDup_fmap_2_strong.
      * intros b1 b2 [_ [_ Hb1]%list_elem_of_filter]%list_elem_of_filter
          [_ [_ Hb2]%list_elem_of_filter]%list_elem_of_filter Heq.
        apply (band_maxima_distinct b1 b2 Hb1 Hb2).
        unfold task_of_band in Heq. injection Heq as _ Hmax. by rewrite Hmax.
      * unfold bands_of. do 2 apply NoDup_filter. apply DEFAULT_STAR_BANDS_NoDup.
Qed.

Lemma rows_of_keys seq batch :
  key_of_row <$> rows_of seq batch = key_of_new <$> batch.
Proof.
  unfold rows_of. generalize (seq + 1). induction batch as [|n rest IH]; intros z.
  { by rewrite seqZ_nil. }
  rewrite seqZ_cons by (cbn [length]; lia).
  cbn [zip_with fmap list_fmap]. f_equal.
  replace (Z.pred (Z.of_nat (length (n :: rest)))) with (Z.of_nat (length rest))
    by (cbn [length]; lia).
  apply IH.
Qed.

Lemma rows_of_ids seq batch :
  Task.id <$> rows_of seq batch = seqZ (seq + 1) (Z.of_nat (length batch)).
Proof.
  unfold rows_of. apply fmap_zip_with_l; [done|].
  by rewrite length_seqZ, Nat2Z.id.
Qed.

Lemma rows_of_elem seq batch t :
  t ∈ rows_of seq batch →
  ∃ n, n ∈ batch ∧ t = row_of_new_task (Task.id t) n ∧ seq < Task.id t.
Proof.
  unfold rows_of. intros (id & n & -> & Hid & Hn)%elem_of_zip_with.
  apply elem_of_seqZ in Hid. exists n. split_and!; [done|done|simpl; lia].
Qed.

(** X10. If no two rows of the task table share a signature (window, star
    band, pushed-after), none do after a seeder run. *)
Theorem seedTasks_keeps_signatures_unique clk config s :
  NoDup (key_of_row <$> github_search_tasks s) →
  NoDup (key_of_row <$> github_search_tasks (seedTasks clk config s).2).
Proof.
  intros Hnd. destruct (seedTasks_run clk config s) as (_ & -> & _).
  rewrite fmap_app, rows_of_keys. apply NoDup_app. split_and!; [done| |].
  - intros key Hold (n & -> & Hn)%list_elem_of_fmap.
    apply fresh_tasks_elem in Hn as (w & band & _ & _ & _ & Hnew & ->).
    by apply Hnew.
  - apply fresh_tasks_keys_NoDup. apply generateMonthlyWindows_NoDup.
Qed.

Lemma seedTasks_keeps_signatures_unique_witness :
  NoDup (key_of_row <$>
           github_search_tasks (seedTasks nov_2 sample_config empty_store).2).
Proof.
  apply (seedTasks_keeps_signatures_unique nov_2 sample_config empty_store).
  constructor.
Defined.

Lemma length_filter_split {A} (P : A → Prop) `{!∀ x, Decision (P x)} (l : list A) :
  (length (filter (λ x, ¬ P x) l) + length (filter P l) = length l)%nat.
Proof.
  induction l as [|x l IH]; [done|].
  rewrite !filter_cons. destruct (decide (P x)).
  - rewrite decide_False by tauto. simpl. lia.
  - rewrite decide_True by done. simpl. lia.
Qed.

Lemma candidates_split config refresh existingKeys windows :
  (length (fresh_tasks config refresh existingKeys windows)
   + length (stale_candidates config existingKeys windows)
   = length windows * length (bands_of config))%nat.
Proof.
  unfold fresh_tasks, stale_candidates.
  induction windows as [|w windows IH]; [done|].
  rewrite !bind_cons, !length_app, !length_fmap. cbn [length].
  pose proof (length_filter_split
    (λ band, candidate_key config w band ∈ existingKeys) (bands_of config)).
  lia.
Qed.

(** X11. A seeder run counts every candidate, that is every window with every
    band not wholly below the star floor, exactly once as created or as
    skipped, and the table grows by exactly [created] rows. *)
Theorem seedTasks_accounts_for_every_candidate clk config s :
  let windows :=
    generateMonthlyWindows (today clk) (SeederConfig.createdFrom config) in
  let '(created, skipped) := (seedTasks clk config s).1 in
  0 <= created ∧ 0 <= skipped ∧
  created + skipped = Z.of_nat (length windows * length (bands_of config)) ∧
  Z.of_nat (length (github_search_tasks (seedTasks clk config s).2))
  = Z.of_nat (length (github_search_tasks s)) + created.
Proof.
  intros windows. destruct (seedTasks_run clk config s) as (-> & -> & _).
  fold windows. split_and!; [lia|lia| |].
  - rewrite <- (candidates_split config
      (default 7 (num_or_null (SeederConfig.refreshEveryDays config)))
      (key_of_row <$> github_search_tasks s) windows). lia.
  - rewrite length_app. unfold rows_of.
    rewrite length_zip_with_r_eq by (by rewrite length_seqZ, Nat2Z.id). lia.
Qed.

(** X12. A seeder run leaves the rows of the table alone and appends its new
    rows; each new row is ['ready'] at page 1 with null timestamps and
    error, has the configured cadence (7 when unset or 0), the configured
    pushed-after date, a star minimum that is at least the configured floor
    and not above its maximum, a signature the table did not hold, and
    passes the claim predicate at any time. *)
Theorem seedTasks_adds_claimable_rows clk config s :
  ∃ added,
    github_search_tasks (seedTasks clk config s).2
    = github_search_tasks s ++ added ∧
    ∀ t, t ∈ added →
      Task.status t = ready ∧ Task.page t = Some 1 ∧
      Task.last_started_at t = None ∧ Task.last_completed_at t = None ∧
      Task.last_error t = None ∧
      Task.refresh_every_days t
      = Some (default 7 (num_or_null (SeederConfig.refreshEveryDays config))) ∧
      Task.pushed_after t = SeederConfig.pushedAfter config ∧
      SeederConfig.starsMin config <= Task.stars_min t ∧
      (∀ stars_max, Task.stars_max t = Some stars_max →
         Task.stars_min t <= stars_max) ∧
      (key_of_row t ∉ key_of_row <$> github_search_tasks s) ∧
      ∀ now, eligible now t = true.
Proof.
  destruct (seedTasks_run clk config s) as (_ & -> & _).
  eexists. split; [done|]. intros t (n & Hn & -> & _)%rows_of_elem.
  apply fresh_tasks_elem in Hn as (w & band & _ & Hb & Hs & Hnew & ->).
  split_and!; try done.
  - cbn. lia.
  - cbn. intros stars_max Hmax. unfold band_skipped in Hs.
    unfold DEFAULT_STAR_BANDS in Hb.
    repeat (apply elem_of_cons in Hb as [->|Hb]);
      [..|by apply elem_of_nil in Hb]; cbn in *; simplify_eq; lia.
Qed.

(** ** The discovery handler: requests it turns away or cannot serve *)

Lemma auth_fails_unless_configured env secret :
  (∀ s, s ≠ "" → CRON_SECRET env = Some s → secret ≠ Some s) →
  auth_fails env secret = true.
Proof.
  intros Hno. unfold auth_fails.
  destruct (CRON_SECRET env) as [[|c s]|] eqn:Hc; [done| |done].
  cbn [js_not_str orb]. apply negb_true_iff, bool_decide_eq_false.
  by apply (Hno (String c s)).
Qed.

(** X13. Unless the query's secret equals a non-empty configured
    [CRON_SECRET], both handlers answer 401 and leave the world as it was. *)
Theorem other_secret_is_unauthorized env github clk secret w :
  (∀ s, s ≠ "" → CRON_SECRET env = Some s → secret ≠ Some s) →
  discover_GET env github clk secret w = (unauthorized, w) ∧
  score_GET env clk secret w = (unauthorized, w).
Proof.
  intros Hno. unfold discover_GET, score_GET.
  by rewrite (auth_fails_unless_configured env secret Hno).
Qed.

Lemma other_secret_is_unauthorized_witness :
  discover_GET sample_env (partition_of 350) nov_2 (Some "guess")
    (world_with sample_tasks) = (unauthorized, world_with sample_tasks) ∧
  score_GET sample_env nov_2 (Some "guess") (world_with sample_tasks)
  = (unauthorized, world_with sample_tasks).
Proof.
  apply (other_secret_is_unauthorized sample_env (partition_of 350) nov_2
           (Some "guess") (world_with sample_tasks)).
  intros s _ [= <-]. discriminate.
Defined.

Lemma update_claimed_nil now tbl : update_claimed now [] tbl = tbl.
Proof.
  unfold update_claimed. rewrite <- (list_fmap_id tbl) at 2.
  apply list_fmap_ext. intros i t _.
  rewrite bool_decide_eq_false_2; [done|]. apply not_elem_of_nil.
Qed.

Lemma returning_claimed_nil now tbl : returning_claimed now [] tbl = [].
Proof.
  unfold returning_claimed. induction tbl as [|t tbl IH]; [done|].
  rewrite filter_cons_False by apply not_elem_of_nil. done.
Qed.

(** X14. An authorised discovery request on a queue that is not empty but
    holds no claimable task answers 200 "No tasks available" after the
    existence check and the claim RPC: no table is changed, no search is
    sent and no run is logged. *)
Theorem discover_GET_nothing_to_claim env github clk secret w :
  auth_fails env secret = false →
  0 <= MAX_TASKS_PER_RUN env →
  github_search_tasks (db w) ≠ [] →
  (∀ t, t ∈ github_search_tasks (db w) → eligible (now_ms clk) t = false) →
  discover_GET env github clk secret w
  = (mkResponse 200 (Some "No tasks available") None
       [("tasksProcessed", 0); ("reposUpserted", 0); ("snapshotsUpserted", 0)],
     on_db (sent (RpcClaimTasks (MAX_TASKS_PER_RUN env)))
       (on_db (sent SelectTasksLimit1) w)).
Proof.
  intros Hauth Hlimit Hsome Hnone. unfold discover_GET. rewrite Hauth.
  destruct w as [s found]. destruct s as [rs sn ts q tr ru rpc rq].
  cbn [db on_db sent github_search_tasks searches] in *.
  destruct ts as [|t ts]; [done|]. cbn [take].
  unfold claim_github_tasks, limit_rows.
  destruct (Z.ltb_spec (MAX_TASKS_PER_RUN env) 0) as [?|_]; [lia|].
  rewrite select_claimed_none by done.
  rewrite returning_claimed_nil, update_claimed_nil. reflexivity.
Qed.

Lemma discover_GET_nothing_to_claim_witness :
  let w := world_with [sample_task 4 in_progress (Some 2) None] in
  discover_GET sample_env (partition_of 350) nov_2 (Some "s3cret") w
  = (mkResponse 200 (Some "No tasks available") None
       [("tasksProcessed", 0); ("reposUpserted", 0); ("snapshotsUpserted", 0)],
     on_db (sent (RpcClaimTasks (MAX_TASKS_PER_RUN sample_env)))
       (on_db (sent SelectTasksLimit1) w)).
Proof.
  apply (discover_GET_nothing_to_claim sample_env (partition_of 350) nov_2
           (Some "s3cret")
           (world_with [sample_task 4 in_progress (Some 2) None])).
  - reflexivity.
  - vm_compute. discriminate.
  - discriminate.
  - intros t Ht. apply list_elem_of_singleton in Ht. by rewrite Ht.
Defined.

Lemma returned_rows_in_table now claimed tbl row :
  row ∈ returning_claimed now claimed tbl →
  row ∈ update_claimed now claimed tbl ∧ Task.status row = in_progress.
Proof.
  unfold returning_claimed, update_claimed.
  intros (t & -> & [Hid Ht]%list_elem_of_filter)%list_elem_of_fmap.
  split; [|done]. apply list_elem_of_fmap. exists t.
  by rewrite bool_decide_eq_true_2.
Qed.

(** X15. With [GITHUB_TOKEN] unset or empty, an authorised discovery request
    that claims tasks answers 500 with the token message without sending a
    search or touching repositories and snapshots; the claim is not undone:
    the claimed rows sit in the table ['in_progress'], where no later claim
    picks them up. *)
Theorem discover_GET_without_token env github clk secret w rows tasks' :
  auth_fails env secret = false →
  js_not_str (GITHUB_TOKEN env) = true →
  github_search_tasks (db w) ≠ [] →
  claim_github_tasks (now_ms clk) ∅ (Some (MAX_TASKS_PER_RUN env))
    (github_search_tasks (db w)) = Ok (rows, tasks') →
  rows ≠ [] →
  let result := discover_GET env github clk secret w in
  http_status result.1 = 500 ∧
  error result.1 = Some token_required ∧
  searches result.2 = searches w ∧
  github_repos (db result.2) = github_repos (db w) ∧
  github_repo_snapshots (db result.2) = github_repo_snapshots (db w) ∧
  github_search_tasks (db result.2) = tasks' ∧
  ∀ row, row ∈ rows →
    row ∈ github_search_tasks (db result.2) ∧
    ∀ now, eligible now row = false.
Proof.
  intros Hauth Htoken Hsome Hclaim Hrows result. subst result.
  unfold discover_GET. rewrite Hauth.
  destruct w as [s found]. destruct s as [rs sn ts q tr ru rpc rq].
  cbn [db github_search_tasks searches] in *.
  destruct ts as [|t ts]; [done|].
  cbv beta iota zeta delta [on_db sent db github_search_tasks take].
  rewrite Hclaim. destruct rows as [|row rows]; [done|].
  assert (requireGitHubToken env = Err token_required) as ->.
  { unfold requireGitHubToken. destruct (GITHUB_TOKEN env); [|done].
    by rewrite Htoken. }
  cbn. split_and!; try done.
  intros r Hr. unfold claim_github_tasks in Hclaim.
  destruct (limit_rows _ _) as [n|e]; [|done]. injection Hclaim as Hret <-.
  rewrite <- Hret in Hr. apply returned_rows_in_table in Hr as [Hin Hst].
  split; [done|]. intros now. by apply in_progress_not_eligible.
Qed.

Lemma discover_GET_without_token_witness :
  let rows := returning_claimed (now_ms nov_2) [1; 2] sample_tasks in
  let tasks' := update_claimed (now_ms nov_2) [1; 2] sample_tasks in
  let w := world_with sample_tasks in
  let result :=
    discover_GET env_without_token (partition_of 350) nov_2 (Some "s3cret") w in
  http_status result.1 = 500 ∧
  error result.1 = Some token_required ∧
  searches result.2 = searches w ∧
  github_repos (db result.2) = github_repos (db w) ∧
  github_repo_snapshots (db result.2) = github_repo_snapshots (db w) ∧
  github_search_tasks (db result.2) = tasks' ∧
  ∀ row, row ∈ rows →
    row ∈ github_search_tasks (db result.2) ∧
    ∀ now, eligible now row = false.
Proof.
  apply (discover_GET_without_token env_without_token (partition_of 350) nov_2
           (Some "s3cret") (world_with sample_tasks)).
  - reflexivity.
  - reflexivity.
  - discriminate.
  - reflexivity.
  - discriminate.
Defined.

(** ** The pages of a task and the search quota of a run *)

(** The searches of the page loop: consecutive pages from [page], at most
    one per remaining iteration; when no response holds more than the 100
    items asked for, the loop stops at page 10. *)
Lemma process_pages_searches env github clk task remaining page p :
  ∃ n : nat,
    (n ≤ remaining)%nat ∧
    searches (progress_world
                (process_pages env github clk task remaining page p).2)
    = searches (progress_world p)
      ++ (task_params task <$> seqZ page (Z.of_nat n)) ∧
    ((∀ params response,
        (searchRepositories env github params).1 = Ok response →
        (length (items response) ≤ 100)%nat) →
     page <= 10 → page + Z.of_nat n <= 11).
Proof.
  revert page p. induction remaining as [|r IH]; intros page p.
  { exists 0%nat. split_and!; [done|by rewrite app_nil_r|lia]. }
  cbn [process_pages].
  destruct (searchRepositories env github (task_params task page)).1
    as [response|message] eqn:Hsearch.
  2:{ exists 1%nat. split_and!; [lia|done|lia]. }
  destruct (upsert_items clk (items response) _) as [failure after] eqn:Hupsert.
  assert (searches (progress_world after)
          = searches (progress_world p) ++ [task_params task page]) as Hlog.
  { change after with (failure, after).2. rewrite <- Hupsert.
    by destruct (upsert_items_world clk (items response)
      (mkProgress (searched (task_params task page) (progress_world p))
         (reposUpserted p) (snapshotsUpserted p) (needsSplit p) (nextPage p)))
      as (-> & _). }
  destruct failure as [message|].
  { exists 1%nat. split_and!; [lia|done|lia]. }
  destruct (Z.ltb_spec (Z.of_nat (length (items response))) 100) as [Hlast|Hfull].
  { exists 1%nat. split_and!; [lia|done|lia]. }
  destruct ((10 <=? page) && (Z.of_nat (length (items response)) =? 100))
    eqn:Hsplit.
  { exists 1%nat. split_and!; [lia|done|lia]. }
  destruct (IH (page + 1)
              (with_next (needsSplit after) (Some (page + 1)) after))
    as (n & Hn & -> & Hbound).
  exists (S n). split_and!; [lia| |].
  - cbn [with_next progress_world]. rewrite Hlog, <- app_assoc.
    rewrite (seqZ_cons page (Z.of_nat (S n))) by lia.
    replace (Z.pred (Z.of_nat (S n))) with (Z.of_nat n) by lia.
    replace (Z.succ page) with (page + 1) by lia. done.
  - intros Hsize Hpage. pose proof (Hsize _ _ Hsearch) as Hitems.
    apply andb_false_iff in Hsplit as [Hp|Hc].
    + apply Z.leb_gt in Hp. specialize (Hbound Hsize ltac:(lia)). lia.
    + apply Z.eqb_neq in Hc. lia.
Qed.

(** X16. [processTask] searches consecutive pages starting at the task's
    stored cursor, at most [MAX_PAGES_PER_TASK] of them; when no response
    holds more than the 100 items asked for and the cursor is at most 10,
    it never asks for a page beyond 10. *)
Theorem processTask_searches_consecutive_pages env github clk task w :
  ∃ n : nat,
    Z.of_nat n <= Z.max 0 (MAX_PAGES_PER_TASK env) ∧
    searches (progress_world (processTask env github clk task w).2)
    = searches w
      ++ (task_params task <$>
            seqZ (default 0 (Task.page task)) (Z.of_nat n)) ∧
    ((∀ params response,
        (searchRepositories env github params).1 = Ok response →
        (length (items response) ≤ 100)%nat) →
     default 0 (Task.page task) <= 10 →
     default 0 (Task.page task) + Z.of_nat n <= 11).
Proof.
  unfold processTask.
  destruct (process_pages_searches env github clk task
              (Z.to_nat (MAX_PAGES_PER_TASK env)) (default 0 (Task.page task))
              (mkProgress w 0 0 false None)) as (n & Hn & Hlog & Hbound).
  exists n. split_and!; [lia|done|done].
Qed.

Lemma discover_task_searches env github clk acc task :
  (length (searches (discover_task env github clk acc task).2)
   ≤ length (searches acc.2) + Z.to_nat (MAX_PAGES_PER_TASK env))%nat.
Proof.
  destruct acc as [totals w]. unfold discover_task, processTask.
  destruct (process_pages_searches env github clk task
              (Z.to_nat (MAX_PAGES_PER_TASK env)) (default 0 (Task.page task))
              (mkProgress w 0 0 false None)) as (n & Hn & Hlog & _).
  destruct (process_pages _ _ _ _ _ _ _) as [[message|] p];
    cbn [fst snd on_db searches progress_world] in *;
    rewrite Hlog, length_app, length_fmap, length_seqZ; lia.
Qed.

Lemma discover_tasks_searches env github clk acc claimed :
  (length (searches (foldl (discover_task env github clk) acc claimed).2)
   ≤ length (searches acc.2)
     + length claimed * Z.to_nat (MAX_PAGES_PER_TASK env))%nat.
Proof.
  revert acc. induction claimed as [|task rest IH]; intros acc; [simpl; lia|].
  cbn [foldl length]. specialize (IH (discover_task env github clk acc task)).
  pose proof (discover_task_searches env github clk acc task). lia.
Qed.

Lemma seedTasks_ids clk config s :
  NoDup (Task.id <$> github_search_tasks s) →
  (∀ t, t ∈ github_search_tasks s → Task.id t <= github_search_tasks_id_seq s) →
  NoDup (Task.id <$> github_search_tasks (seedTasks clk config s).2) ∧
  ∀ t, t ∈ github_search_tasks (seedTasks clk config s).2 →
       Task.id t <= github_search_tasks_id_seq (seedTasks clk config s).2.
Proof.
  intros Hnd Hseq.
  destruct (seedTasks_run clk config s) as (_ & -> & ->).
  split.
  - rewrite fmap_app, rows_of_ids. apply NoDup_app. split_and!; [done| |].
    + intros id (t & -> & Ht)%list_elem_of_fmap Hnew.
      apply elem_of_seqZ in Hnew. apply Hseq in Ht. lia.
    + apply NoDup_seqZ.
  - intros t [Ht|Ht]%elem_of_app.
    + apply Hseq in Ht. lia.
    + apply (list_elem_of_fmap_2 Task.id) in Ht. rewrite rows_of_ids in Ht.
      apply elem_of_seqZ in Ht. lia.
Qed.

Lemma claim_github_tasks_length now locked (n : Z) tbl rows tbl' :
  NoDup (Task.id <$> tbl) →
  claim_github_tasks now locked (Some n) tbl = Ok (rows, tbl') →
  (length rows ≤ Z.to_nat n)%nat.
Proof.
  intros Hnd. unfold claim_github_tasks, limit_rows.
  destruct (n <? 0); [done|]. intros [= <- _].
  etrans; [by apply returning_claimed_length|apply select_claimed_length].
Qed.

(** X17. A discovery request calls the search client at most
    [MAX_TASKS_PER_RUN * MAX_PAGES_PER_TASK] times, given a unique task
    primary key. *)
Theorem discover_GET_search_quota env github clk secret w :
  NoDup (Task.id <$> github_search_tasks (db w)) →
  (length (searches (discover_GET env github clk secret w).2)
   ≤ length (searches w)
     + Z.to_nat (MAX_TASKS_PER_RUN env) * Z.to_nat (MAX_PAGES_PER_TASK env))%nat.
Proof.
  intros Hnd. unfold discover_GET.
  destruct (auth_fails env secret); [cbn [snd]; lia|].
  set (w1 := match take 1 _ with [] => _ | _ => _ end).
  assert (searches w1 = searches w ∧
          NoDup (Task.id <$> github_search_tasks (db w1))) as [Hlog Hnd1].
  { unfold w1. clear w1.
    destruct w as [s found]. destruct s as [rs sn ts q tr ru rpc rq].
    cbn [db github_search_tasks searches] in *.
    cbv beta iota zeta delta [on_db sent db github_search_tasks take].
    destruct ts as [|t ts]; [|done].
    cbn [db searches github_search_tasks]. split; [done|].
    apply seedTasks_ids; cbn [github_search_tasks].
    + constructor.
    + intros t Ht. by apply elem_of_nil in Ht. }
  clearbody w1.
  destruct (claim_github_tasks _ _ _ _) as [[claimedTasks tasks']|e] eqn:Hclaim.
  2:{ unfold discovery_failed, on_db. cbn [snd searches]. rewrite Hlog. lia. }
  apply claim_github_tasks_length in Hclaim; [|by unfold on_db].
  destruct claimedTasks as [|task rest];
    [unfold on_db; cbn [snd searches]; rewrite Hlog; lia|].
  destruct (requireGitHubToken env);
    [|unfold discovery_failed, on_db; cbn [snd searches]; rewrite Hlog; lia].
  set (start := (mkTotals 0 0 0 [], _)).
  pose proof (discover_tasks_searches env github clk start (task :: rest)) as Hq.
  destruct (foldl _ _ _) as [totals w2].
  unfold start, on_db in *. cbn [snd searches] in *. rewrite Hlog in Hq. nia.
Qed.

Lemma discover_GET_search_quota_witness :
  (length (searches
             (discover_GET sample_env (partition_of 350) nov_2 (Some "s3cret")
                (world_with sample_tasks)).2)
   ≤ length (searches (world_with sample_tasks))
     + Z.to_nat (MAX_TASKS_PER_RUN sample_env)
       * Z.to_nat (MAX_PAGES_PER_TASK sample_env))%nat.
Proof.
  apply (discover_GET_search_quota sample_env (partition_of 350) nov_2
           (Some "s3cret") (world_with sample_tasks)).
  apply (bool_decide_unpack _). vm_compute. exact I.
Defined.

(** ** Upserts and the unique indexes *)

Section upsert.
Context {A K : Type} (key : A → K) (conflicts : A → bool) (row : A).
Hypothesis conflicts_key : ∀ r, conflicts r = true ↔ key r = key row.

Lemma upsert_unique tbl :
  NoDup (key <$> tbl) → NoDup (key <$> upsert conflicts row tbl).
Proof.
  induction tbl as [|r rest IH]; intros Hnd.
  { simpl. apply NoDup_singleton. }
  cbn [upsert]. cbn [fmap list_fmap] in Hnd.
  apply NoDup_cons in Hnd as [Hr Hnd].
  destruct (conflicts r) eqn:Hc.
  - apply conflicts_key in Hc. cbn [fmap list_fmap]. rewrite <- Hc.
    by apply NoDup_cons.
  - cbn [fmap list_fmap]. apply NoDup_cons. split; [|by apply IH].
    intros (x & Hkey & Hx)%list_elem_of_fmap.
    apply upsert_elem in Hx as [->|Hx].
    + apply conflicts_key in Hkey. congruence.
    + apply Hr. rewrite Hkey. by apply list_elem_of_fmap_2.
Qed.

Lemma upsert_rows tbl x :
  NoDup (key <$> tbl) →
  x ∈ upsert conflicts row tbl ↔ x = row ∨ (x ∈ tbl ∧ key x ≠ key row).
Proof.
  induction tbl as [|r rest IH]; intros Hnd.
  { simpl. rewrite list_elem_of_singleton. split; [by left|].
    intros [?|[H _]]; [done|]. by apply elem_of_nil in H. }
  cbn [upsert]. cbn [fmap list_fmap] in Hnd.
  apply NoDup_cons in Hnd as [Hr Hnd].
  destruct (conflicts r) eqn:Hc.
  - apply conflicts_key in Hc. rewrite !elem_of_cons. split.
    + intros [->|Hx]; [by left|]. right. split; [by right|].
      intros Hkey. apply Hr. rewrite Hc, <- Hkey.
      by apply list_elem_of_fmap_2.
    + intros [->|[[->|Hx] Hkey]]; [by left|done|by right].
  - rewrite !elem_of_cons, (IH Hnd). split.
    + intros [->|[->|[Hx Hkey]]]; [right|by left|right].
      * split; [by left|]. intros Hkey. apply conflicts_key in Hkey.
        congruence.
      * split; [by right|done].
    + intros [->|[[->|Hx] Hkey]]; [right; by left|by left|].
      right. right. done.
Qed.
End upsert.

Lemma snapshot_conflicts repoId capturedDate r :
  (Snapshot.repo_id r =? repoId) && (Snapshot.captured_date r =? capturedDate)
  = true ↔ snapshot_key r = (repoId, capturedDate).
Proof.
  unfold snapshot_key. rewrite andb_true_iff, !Z.eqb_eq. split.
  - by intros [-> ->].
  - by intros [= -> ->].
Qed.

(** X18. [upsertSnapshot] keeps at most one snapshot per repository and day:
    the row of the repository for today is replaced by the new one, or the
    new one is added, and every other row stays. *)
Theorem upsertSnapshot_one_per_day clk repoId stars forks openIssues s :
  NoDup (snapshot_key <$> github_repo_snapshots s) →
  let s' := upsertSnapshot clk repoId stars forks openIssues s in
  let today := now_ms clk / ms_per_day in
  NoDup (snapshot_key <$> github_repo_snapshots s') ∧
  ∀ r, r ∈ github_repo_snapshots s' ↔
       r = Snapshot.mk repoId (now_ms clk) today stars (Some forks)
             (Some openIssues) "search"
       ∨ (r ∈ github_repo_snapshots s ∧ snapshot_key r ≠ (repoId, today)).
Proof.
  intros Hnd s' today. subst s'. unfold upsertSnapshot.
  cbn [github_repo_snapshots set_snapshots sent].
  split.
  - apply (upsert_unique snapshot_key); [|done].
    intros r. apply snapshot_conflicts.
  - intros r. apply (upsert_rows snapshot_key); [|done].
    intros r'. apply snapshot_conflicts.
Qed.

Lemma upsertSnapshot_one_per_day_witness :
  let s := store_with [] [sample_snapshot 7 (now_ms nov_2) 5] RpcInstalled in
  let s' := upsertSnapshot nov_3 7 9 1 0 s in
  let today := now_ms nov_3 / ms_per_day in
  NoDup (snapshot_key <$> github_repo_snapshots s') ∧
  ∀ r, r ∈ github_repo_snapshots s' ↔
       r = Snapshot.mk 7 (now_ms nov_3) today 9 (Some 1) (Some 0) "search"
       ∨ (r ∈ github_repo_snapshots s ∧ snapshot_key r ≠ (7, today)).
Proof.
  apply (upsertSnapshot_one_per_day nov_3 7 9 1 0
           (store_with [] [sample_snapshot 7 (now_ms nov_2) 5] RpcInstalled)).
  apply NoDup_singleton.
Defined.

(** ** The constraints of the schema *)

Lemma upsert_keeps_keys {A K} (key : A → K) conflicts row (tbl : list A) k :
  (∀ r, conflicts r = true ↔ key r = key row) →
  k ∈ key <$> tbl → k ∈ key <$> upsert conflicts row tbl.
Proof.
  intros Hkey. induction tbl as [|r rest IH]; [by intros ?%elem_of_nil|].
  cbn [upsert fmap list_fmap]. intros [->|Hk]%elem_of_cons.
  - destruct (conflicts r) eqn:Hc; cbn [fmap list_fmap].
    + apply Hkey in Hc. rewrite Hc. apply elem_of_cons. by left.
    + apply elem_of_cons. by left.
  - destruct (conflicts r); cbn [fmap list_fmap]; apply elem_of_cons; right;
      [done|by apply IH].
Qed.

Lemma upsert_new_keys {A K} (key : A → K) conflicts row (tbl : list A) k :
  k ∈ key <$> upsert conflicts row tbl → k = key row ∨ k ∈ key <$> tbl.
Proof.
  intros (x & -> & [->|Hx]%upsert_elem)%list_elem_of_fmap; [by left|].
  right. by apply list_elem_of_fmap_2.
Qed.

Lemma upsertRepo_constraints clk repo s :
  schema_constraints s →
  schema_constraints (upsertRepo clk repo s).2 ∧
  ((upsertRepo clk repo s).1 = None →
   GitHubRepo.id repo ∈ Repo.repo_id <$> github_repos (upsertRepo clk repo s).2).
Proof.
  intros (Hr & Hs & Ht & Hq & Htr & Hfs & Hft).
  unfold upsertRepo.
  destruct (full_name_clash repo _); cbn [fst snd]; [by split|].
  unfold schema_constraints.
  cbn [github_repos github_repo_snapshots github_search_tasks
       github_search_tasks_id_seq github_repo_trends set_repos sent].
  set (row := Repo.mk _ _ _).
  assert (∀ r, (Repo.repo_id r =? GitHubRepo.id repo) = true
               ↔ Repo.repo_id r = Repo.repo_id row) as Hkey
    by (intros r; apply Z.eqb_eq).
  split_and!; try done.
  - by apply (upsert_unique Repo.repo_id).
  - intros id Hid. apply (upsert_keeps_keys Repo.repo_id); auto.
  - intros id Hid. apply (upsert_keeps_keys Repo.repo_id); auto.
  - intros _. apply (list_elem_of_fmap_2 Repo.repo_id _ row), upsert_has_row.
Qed.

Lemma upsertSnapshot_constraints clk repoId stars forks openIssues s :
  schema_constraints s →
  repoId ∈ Repo.repo_id <$> github_repos s →
  schema_constraints (upsertSnapshot clk repoId stars forks openIssues s).
Proof.
  intros (Hr & Hs & Ht & Hq & Htr & Hfs & Hft) Hrepo.
  unfold upsertSnapshot, schema_constraints.
  cbn [github_repos github_repo_snapshots github_search_tasks
       github_search_tasks_id_seq github_repo_trends set_snapshots sent].
  split_and!; try done.
  - apply (upsert_unique snapshot_key); [|done].
    intros r. apply snapshot_conflicts.
  - intros id [->|Hid]%(upsert_new_keys Snapshot.repo_id); [done|auto].
Qed.

Lemma upsert_items_constraints clk repos p :
  schema_constraints (db (progress_world p)) →
  schema_constraints (db (progress_world (upsert_items clk repos p).2)).
Proof.
  revert p. induction repos as [|repo rest IH]; intros p Hp; [done|].
  cbn [upsert_items].
  destruct (upsertRepo_constraints clk repo (db (progress_world p)) Hp)
    as [Hrepo Hid].
  destruct (upsertRepo clk repo (db (progress_world p))) as [[message|] s1];
    cbn [fst snd] in *; [done|].
  apply IH. cbn [progress_world db].
  apply upsertSnapshot_constraints; [done|by apply Hid].
Qed.

Lemma process_pages_constraints env github clk task remaining page p :
  schema_constraints (db (progress_world p)) →
  schema_constraints
    (db (progress_world (process_pages env github clk task remaining page p).2)).
Proof.
  revert page p. induction remaining as [|n IH]; intros page p Hp; [done|].
  cbn [process_pages].
  destruct (searchRepositories env github (task_params task page)).1
    as [response|message]; [|done].
  set (q := mkProgress _ _ _ _ _).
  assert (schema_constraints (db (progress_world (upsert_items clk (items response) q).2)))
    as Hf by (by apply upsert_items_constraints).
  destruct (upsert_items clk (items response) q) as [[message|] fetched];
    cbn [snd] in Hf; [done|].
  repeat case_match; cbn [snd with_next progress_world]; [done|done|].
  by apply IH.
Qed.

Lemma updateTaskStatus_ids clk taskId status nextPage error s :
  Task.id <$> github_search_tasks (updateTaskStatus clk taskId status nextPage error s)
  = Task.id <$> github_search_tasks s.
Proof.
  unfold updateTaskStatus. cbn [github_search_tasks set_tasks sent].
  rewrite <- list_fmap_compose. apply list_fmap_ext.
  intros i t _. cbn. by destruct (Task.id t =? taskId).
Qed.

Lemma updateTaskStatus_constraints clk taskId status nextPage error s :
  schema_constraints s →
  schema_constraints (updateTaskStatus clk taskId status nextPage error s).
Proof.
  intros (Hr & Hs & Ht & Hq & Htr & Hfs & Hft). unfold schema_constraints.
  rewrite updateTaskStatus_ids. done.
Qed.

Lemma discover_task_constraints env github clk acc task :
  schema_constraints (db acc.2) →
  schema_constraints (db (discover_task env github clk acc task).2).
Proof.
  destruct acc as [totals w]. intros Hw. unfold discover_task, processTask.
  pose proof (process_pages_constraints env github clk task
                (Z.to_nat (MAX_PAGES_PER_TASK env)) (default 0 (Task.page task))
                (mkProgress w 0 0 false None) Hw) as H.
  destruct (process_pages _ _ _ _ _ _ _) as [[message|] p];
    cbn [snd]; unfold on_db; cbn [db];
    by apply updateTaskStatus_constraints.
Qed.

Lemma insert_rows_frame batch s :
  github_repos (insert_rows batch s) = github_repos s ∧
  github_repo_snapshots (insert_rows batch s) = github_repo_snapshots s.
Proof.
  revert s. induction batch as [|n rest IH]; intros s; [done|].
  cbn [insert_rows]. by destruct (IH (set_tasks
    (github_search_tasks s ++
       [row_of_new_task (github_search_tasks_id_seq s + 1) n])
    (set_tasks_id_seq (github_search_tasks_id_seq s + 1) s))) as [-> ->].
Qed.

Lemma insert_batches_frame fuel pending created s :
  github_repos (insert_batches fuel pending created s).2 = github_repos s ∧
  github_repo_snapshots (insert_batches fuel pending created s).2
  = github_repo_snapshots s.
Proof.
  revert pending created s. induction fuel as [|fuel IH]; intros pending created s.
  - by destruct pending.
  - destruct pending as [|n rest]; [done|]. cbn [insert_batches].
    destruct (IH (drop batchSize (n :: rest))
                (created + Z.of_nat (length (take batchSize (n :: rest))))
                (insert_tasks (take batchSize (n :: rest)) s)) as [-> ->].
    unfold insert_tasks.
    by destruct (insert_rows_frame (take batchSize (n :: rest))
                   (sent (InsertTasks (length (take batchSize (n :: rest)))) s))
      as [-> ->].
Qed.

Lemma seedTasks_frame clk config s :
  github_repos (seedTasks clk config s).2 = github_repos s ∧
  github_repo_snapshots (seedTasks clk config s).2 = github_repo_snapshots s.
Proof.
  unfold seedTasks. destruct (foldl _ _ _) as [tasksToInsert skipped].
  pose proof (insert_batches_frame (length tasksToInsert) tasksToInsert 0
                (sent SelectTaskKeys s)) as H.
  by destruct (insert_batches _ _ _ _).
Qed.

Lemma seedTasks_constraints clk config s :
  schema_constraints s → schema_constraints (seedTasks clk config s).2.
Proof.
  intros (Hr & Hs & Ht & Hq & Htr & Hfs & Hft). unfold schema_constraints.
  rewrite seedTasks_trends.
  destruct (seedTasks_frame clk config s) as [-> ->].
  destruct (seedTasks_run clk config s) as (_ & -> & ->).
  rewrite fmap_app, rows_of_ids.
  split_and!; try done.
  - apply NoDup_app. split_and!; [done| |apply NoDup_seqZ].
    intros id Hid Hnew. apply elem_of_seqZ in Hnew. apply Hq in Hid. lia.
  - intros id [Hid|Hid]%elem_of_app.
    + apply Hq in Hid. lia.
    + apply elem_of_seqZ in Hid. lia.
Qed.

Lemma claim_github_tasks_constraints now locked p_limit s rows tasks' :
  schema_constraints s →
  claim_github_tasks now locked p_limit (github_search_tasks s)
  = Ok (rows, tasks') →
  schema_constraints (set_tasks tasks' s).
Proof.
  intros (Hr & Hs & Ht & Hq & Htr & Hfs & Hft) Hclaim.
  unfold claim_github_tasks in Hclaim.
  destruct (limit_rows _ _); [|done]. injection Hclaim as _ <-.
  unfold schema_constraints.
  cbn [github_repos github_repo_snapshots github_search_tasks
       github_search_tasks_id_seq github_repo_trends set_tasks].
  rewrite update_claimed_ids. done.
Qed.

(** The sample store of repository 7 meets the constraints. *)
Lemma sample_constraints rpc : schema_constraints (db (from_zero_world rpc)).
Proof.
  unfold schema_constraints, from_zero_world.
  cbn [db github_repos github_repo_snapshots github_search_tasks
       github_search_tasks_id_seq github_repo_trends].
  split_and!.
  - apply NoDup_singleton.
  - apply (bool_decide_unpack _). vm_compute. exact I.
  - constructor.
  - intros id Hid. by apply elem_of_nil in Hid.
  - constructor.
  - apply Forall_forall. apply (bool_decide_unpack _). vm_compute. exact I.
  - intros id Hid. by apply elem_of_nil in Hid.
Qed.

(** X19. A discovery request maintains the constraints of the schema: the
    primary keys of repositories, tasks and trends, the unique index on
    (repository, day) of snapshots, task ids issued by the sequence, and
    the foreign keys of snapshots and trends to repositories. *)
Theorem discover_GET_keeps_schema_constraints env github clk secret w :
  schema_constraints (db w) →
  schema_constraints (db (discover_GET env github clk secret w).2).
Proof.
  intros Hw. unfold discover_GET.
  destruct (auth_fails env secret); [done|].
  set (w1 := match take 1 _ with [] => _ | _ => _ end).
  assert (schema_constraints (db w1)) as Hw1.
  { unfold w1. destruct (take 1 _); [|done].
    unfold on_db. cbn [db]. by apply seedTasks_constraints. }
  clearbody w1.
  destruct (claim_github_tasks _ _ _ _) as [[claimedTasks tasks']|e] eqn:Hclaim;
    [|done].
  apply (claim_github_tasks_constraints _ _ _
           (db (on_db (sent (RpcClaimTasks (MAX_TASKS_PER_RUN env))) w1)))
    in Hclaim; [|done].
  destruct claimedTasks as [|task rest]; [done|].
  destruct (requireGitHubToken env); [|done].
  set (start := (mkTotals 0 0 0 [], _)).
  assert (schema_constraints
            (db (foldl (discover_task env github clk) start (task :: rest)).2))
    as Hfold.
  { apply (foldl_invariant (λ acc, schema_constraints (db acc.2))).
    - done.
    - intros acc t _ Hacc. by apply discover_task_constraints. }
  by destruct (foldl _ _ _).
Qed.

Lemma discover_GET_keeps_schema_constraints_witness :
  schema_constraints
    (db (discover_GET sample_env (partition_of 350) nov_2 (Some "s3cret")
           (from_zero_world RpcInstalled)).2).
Proof.
  apply (discover_GET_keeps_schema_constraints sample_env (partition_of 350)
           nov_2 (Some "s3cret") (from_zero_world RpcInstalled)).
  apply sample_constraints.
Defined.

Lemma compute_repo_trends_14d_repo snapshots trend :
  trend ∈ compute_repo_trends_14d snapshots →
  TrendPair.repo_id trend ∈ Snapshot.repo_id <$> snapshots.
Proof.
  unfold compute_repo_trends_14d.
  intros (repo_id & Hid & Hrow)%list_elem_of_omap.
  rewrite elem_of_remove_dups in Hid.
  destruct (latest_snapshot repo_id snapshots); [|done].
  injection Hrow as <-. exact Hid.
Qed.

Lemma upsertTrend_constraints row s :
  schema_constraints s →
  Trend.repo_id row ∈ Repo.repo_id <$> github_repos s →
  schema_constraints (upsertTrend row s).
Proof.
  intros (Hr & Hs & Ht & Hq & Htr & Hfs & Hft) Hrepo.
  unfold upsertTrend, schema_constraints.
  cbn [github_repos github_repo_snapshots github_search_tasks
       github_search_tasks_id_seq github_repo_trends set_trends sent].
  split_and!; try done.
  - apply (upsert_unique Trend.repo_id); [|done].
    intros r. apply Z.eqb_eq.
  - intros id [->|Hid]%(upsert_new_keys Trend.repo_id); [done|auto].
Qed.

Lemma score_trend_frame clk s0 acc trend :
  scoring_frame s0 acc.2 → scoring_frame s0 (score_trend clk acc trend).2.
Proof. done. Qed.

Lemma score_trend_constraints clk s0 acc trend :
  trend ∈ compute_repo_trends_14d (github_repo_snapshots s0) →
  scoring_frame s0 acc.2 ∧ schema_constraints acc.2 →
  scoring_frame s0 (score_trend clk acc trend).2 ∧
  schema_constraints (score_trend clk acc trend).2.
Proof.
  intros Hrepo%compute_repo_trends_14d_repo [Hf Hc].
  split; [by apply score_trend_frame|].
  unfold score_trend. cbn [snd]. apply upsertTrend_constraints; [done|].
  change (Trend.repo_id (batch_trend clk trend)) with (TrendPair.repo_id trend).
  destruct Hf as (_ & Hs & _).
  destruct Hc as (_ & _ & _ & _ & _ & Hfs & _). apply Hfs. by rewrite Hs.
Qed.

Lemma score_repo_constraints clk s0 acc repo :
  repo ∈ github_repos s0 →
  scoring_frame s0 acc.2 ∧ schema_constraints acc.2 →
  scoring_frame s0 (score_repo clk acc repo).2 ∧
  schema_constraints (score_repo clk acc repo).2.
Proof.
  intros Hrepo [Hf Hc]. split; [by apply score_repo_frame|].
  destruct acc as [totals s]. unfold score_repo. cbn [snd] in *.
  destruct (latest_snapshot _ _) as [nowSnapshot|]; [|done].
  set (row := fallback_trend _ _ _ _).
  apply upsertTrend_constraints; [done|].
  change (Trend.repo_id row) with (Repo.repo_id repo).
  cbn [github_repos sent]. destruct Hf as (-> & _).
  by apply list_elem_of_fmap_2.
Qed.

(** X20. What each handler leaves alone: a discovery request never changes the
    Trend table, and a scoring request never changes repositories,
    snapshots or tasks and sends no search. *)
Theorem handlers_write_sets env github clk secret w :
  github_repo_trends (db (discover_GET env github clk secret w).2)
  = github_repo_trends (db w) ∧
  github_repos (db (score_GET env clk secret w).2) = github_repos (db w) ∧
  github_repo_snapshots (db (score_GET env clk secret w).2)
  = github_repo_snapshots (db w) ∧
  github_search_tasks (db (score_GET env clk secret w).2)
  = github_search_tasks (db w) ∧
  searches (score_GET env clk secret w).2 = searches w.
Proof.
  split; [apply discover_GET_trends|].
  unfold score_GET. destruct (auth_fails env secret); [done|].
  cbv zeta.
  destruct (rpc_compute_repo_trends_14d (sent RpcComputeTrends (db w)))
    as [trends|queryError]; [|destruct (rpc_does_not_exist queryError)];
    cbn [snd db searches].
  - set (acc := foldl _ _ _).
    assert (scoring_frame (db w) acc.2) as (? & ? & ?); [|done].
    apply (foldl_invariant (λ acc, scoring_frame (db w) acc.2)); [done|].
    intros a trend _ Ha. by apply score_trend_frame.
  - set (acc := foldl _ _ _).
    assert (scoring_frame (db w) acc.2) as (? & ? & ?); [|done].
    apply (foldl_invariant (λ acc, scoring_frame (db w) acc.2)); [done|].
    intros a repo _ Ha. by apply score_repo_frame.
  - done.
Qed.

(** X21. A scoring request maintains the constraints of the schema, on the
    batch path and on the fallback path. *)
Theorem score_GET_keeps_schema_constraints env clk secret w :
  schema_constraints (db w) →
  schema_constraints (db (score_GET env clk secret w).2).
Proof.
  intros Hw. unfold score_GET. destruct (auth_fails env secret); [done|].
  cbv zeta.
  destruct (rpc_compute_repo_trends_14d (sent RpcComputeTrends (db w)))
    as [trends|queryError] eqn:Hrpc; [|destruct (rpc_does_not_exist queryError)];
    cbn [snd db searches].
  - set (acc := foldl _ _ _).
    assert (scoring_frame (db w) acc.2 ∧ schema_constraints acc.2) as [_ ?];
      [|done].
    apply (foldl_invariant
             (λ acc, scoring_frame (db w) acc.2 ∧ schema_constraints acc.2));
      [done|].
    intros a trend Htrend Ha. apply score_trend_constraints; [|done].
    by rewrite (rpc_rows _ _ Hrpc) in Htrend.
  - set (acc := foldl _ _ _).
    assert (scoring_frame (db w) acc.2 ∧ schema_constraints acc.2) as [_ ?];
      [|done].
    apply (foldl_invariant
             (λ acc, scoring_frame (db w) acc.2 ∧ schema_constraints acc.2));
      [done|].
    intros a repo Hrepo Ha. by apply score_repo_constraints.
  - done.
Qed.

Lemma score_GET_keeps_schema_constraints_witness :
  schema_constraints
    (db (score_GET sample_env nov_2 (Some "s3cret")
           (from_zero_world RpcMissing)).2).
Proof.
  apply (score_GET_keeps_schema_constraints sample_env nov_2 (Some "s3cret")
           (from_zero_world RpcMissing)).
  apply sample_constraints.
Defined.

(** ** The unique index on full names *)

Lemma full_name_clash_other repo repos r :
  full_name_clash repo repos = false →
  r ∈ repos → Repo.repo_id r ≠ GitHubRepo.id repo →
  Repo.full_name r ≠ GitHubRepo.full_name repo.
Proof.
  intros Hclash Hr Hid Hname.
  apply not_true_iff_false in Hclash. apply Hclash.
  unfold full_name_clash. apply existsb_exists. exists r.
  split; [by apply list_elem_of_In|].
  apply andb_true_intro. split.
  - apply negb_true_iff. by apply Z.eqb_neq.
  - by apply String.eqb_eq.
Qed.

Lemma upsert_names_unique i row (tbl : list Repo.t) :
  Repo.repo_id row = i →
  NoDup (Repo.repo_id <$> tbl) →
  NoDup (Repo.full_name <$> tbl) →
  (∀ r, r ∈ tbl → Repo.repo_id r ≠ i → Repo.full_name r ≠ Repo.full_name row) →
  NoDup (Repo.full_name <$> upsert (λ r, Repo.repo_id r =? i) row tbl).
Proof.
  intros Hrow. induction tbl as [|r rest IH]; intros Hids Hnames Hfree.
  { apply NoDup_singleton. }
  cbn [fmap list_fmap] in Hids, Hnames.
  apply NoDup_cons in Hids as [Hid Hids].
  apply NoDup_cons in Hnames as [Hname Hnames].
  cbn [upsert]. destruct (Z.eqb_spec (Repo.repo_id r) i) as [Heq|Hne].
  - cbn [fmap list_fmap]. apply NoDup_cons. split; [|done].
    intros (x & Hx & Hin)%list_elem_of_fmap.
    apply (Hfree x); [apply elem_of_cons; by right| |done].
    intros Hxi. apply Hid. rewrite Heq, <- Hxi. by apply list_elem_of_fmap_2.
  - cbn [fmap list_fmap]. apply NoDup_cons. split.
    + intros (x & Hx & [->|Hin]%upsert_elem)%list_elem_of_fmap.
      * apply (Hfree r); [apply elem_of_cons; by left|done|done].
      * apply Hname. rewrite Hx. by apply list_elem_of_fmap_2.
    + apply IH; [done|done|].
      intros x Hx. apply Hfree. apply elem_of_cons. by right.
Qed.

Lemma upsertRepo_repos_unique clk repo s :
  repos_unique s → repos_unique (upsertRepo clk repo s).2.
Proof.
  intros [Hids Hnames]. unfold upsertRepo.
  destruct (full_name_clash repo _) eqn:Hclash; cbn [snd]; [done|].
  unfold repos_unique. cbn [github_repos set_repos sent] in *. split.
  - apply (upsert_unique Repo.repo_id); [|done]. intros r. apply Z.eqb_eq.
  - apply upsert_names_unique; [done|done|done|].
    intros r Hr Hid. cbn [Repo.full_name].
    by apply (full_name_clash_other repo (github_repos s)).
Qed.

Lemma upsert_items_repos_unique clk repos p :
  repos_unique (db (progress_world p)) →
  repos_unique (db (progress_world (upsert_items clk repos p).2)).
Proof.
  revert p. induction repos as [|repo rest IH]; intros p Hp; [done|].
  cbn [upsert_items].
  pose proof (upsertRepo_repos_unique clk repo (db (progress_world p)) Hp) as H1.
  destruct (upsertRepo clk repo (db (progress_world p))) as [[message|] s1];
    cbn [fst snd] in *; [done|].
  apply IH. exact H1.
Qed.

Lemma process_pages_repos_unique env github clk task remaining page p :
  repos_unique (db (progress_world p)) →
  repos_unique
    (db (progress_world (process_pages env github clk task remaining page p).2)).
Proof.
  revert page p. induction remaining as [|n IH]; intros page p Hp; [done|].
  cbn [process_pages].
  destruct (searchRepositories env github (task_params task page)).1
    as [response|message]; [|done].
  set (q := mkProgress _ _ _ _ _).
  assert (repos_unique (db (progress_world (upsert_items clk (items response) q).2)))
    as Hf by (by apply upsert_items_repos_unique).
  destruct (upsert_items clk (items response) q) as [[message|] fetched];
    cbn [snd] in Hf; [done|].
  repeat case_match; cbn [snd with_next progress_world]; [done|done|].
  by apply IH.
Qed.

Lemma discover_task_repos_unique env github clk acc task :
  repos_unique (db acc.2) →
  repos_unique (db (discover_task env github clk acc task).2).
Proof.
  destruct acc as [totals w]. intros Hw. unfold discover_task, processTask.
  pose proof (process_pages_repos_unique env github clk task
                (Z.to_nat (MAX_PAGES_PER_TASK env)) (default 0 (Task.page task))
                (mkProgress w 0 0 false None) Hw) as H.
  by destruct (process_pages _ _ _ _ _ _ _) as [[message|] p].
Qed.

(** X31. A discovery request maintains the unique index on [full_name]: if
    no two rows of [github_repos] share an id or a full name before the
    request, no two rows share a full name after it. *)
Theorem discover_GET_keeps_full_names_unique env github clk secret w :
  NoDup (Repo.repo_id <$> github_repos (db w)) →
  NoDup (Repo.full_name <$> github_repos (db w)) →
  NoDup (Repo.full_name <$>
           github_repos (db (discover_GET env github clk secret w).2)).
Proof.
  intros Hids Hnames.
  assert (repos_unique (db (discover_GET env github clk secret w).2))
    as [_ H]; [|done].
  assert (repos_unique (db w)) as Hw by done.
  unfold discover_GET. destruct (auth_fails env secret); [done|].
  set (w1 := match take 1 _ with [] => _ | _ => _ end).
  assert (repos_unique (db w1)) as Hw1.
  { unfold w1. destruct (take 1 _); [|done].
    unfold on_db, repos_unique. cbn [db].
    by destruct (seedTasks_frame clk (getDefaultSeederConfig env)
                   (sent SelectTasksLimit1 (db w))) as [-> _]. }
  clearbody w1.
  destruct (claim_github_tasks _ _ _ _) as [[claimedTasks tasks']|e]; [|done].
  destruct claimedTasks as [|task rest]; [done|].
  destruct (requireGitHubToken env); [|done].
  set (start := (mkTotals 0 0 0 [], _)).
  assert (repos_unique
            (db (foldl (discover_task env github clk) start (task :: rest)).2))
    as Hfold.
  { apply (foldl_invariant (λ acc, repos_unique (db acc.2))).
    - done.
    - intros acc t _ Hacc. by apply discover_task_repos_unique. }
  by destruct (foldl _ _ _).
Qed.

Lemma discover_GET_keeps_full_names_unique_witness :
  NoDup (Repo.full_name <$>
           github_repos
             (db (discover_GET sample_env (partition_of 350) nov_2
                    (Some "s3cret") name_taken_world).2)).
Proof.
  apply (discover_GET_keeps_full_names_unique sample_env (partition_of 350)
           nov_2 (Some "s3cret") name_taken_world).
  - apply NoDup_singleton.
  - apply NoDup_singleton.
Defined.

(** A run that meets a taken name: the first repository of the page is
    stored, the upsert of the second is refused, the task is reported as
    failed and written back ['in_progress'] at its page with the message,
    and the rest of the page is not stored. *)
Example discover_GET_name_taken :
  let run := discover_GET sample_env (partition_of 350) nov_2 (Some "s3cret")
               name_taken_world in
  http_status run.1 = 200 ∧
  counters run.1
  = [("tasksProcessed", 0); ("reposUpserted", 0); ("snapshotsUpserted", 0);
     ("errors", 1)] ∧
  page <$> searches run.2 = [Some 1] ∧
  Repo.repo_id <$> github_repos (db run.2) = [900; 1] ∧
  Snapshot.repo_id <$> github_repo_snapshots (db run.2) = [1] ∧
  ∃ t, github_search_tasks (db run.2) = [t] ∧
    Task.status t = in_progress ∧ Task.page t = Some 1 ∧
    Task.last_error t
    = Some ("Failed to upsert repo owner/repo-2: " +:+ full_name_taken).
Proof. vm_compute. split_and!; try reflexivity. eexists. split_and!; reflexivity. Qed.

(** ** What a discovery run stores *)

Lemma upsert_item_stored clk received repo s s1 :
  upsertRepo clk repo s = (None, s1) →
  stored_today clk received s →
  stored_today clk (received ++ [repo])
    (upsertSnapshot clk (GitHubRepo.id repo) (GitHubRepo.stargazers_count repo)
       (GitHubRepo.forks_count repo) (GitHubRepo.open_issues_count repo) s1).
Proof.
  unfold upsertRepo. destruct (full_name_clash repo _); [discriminate|].
  intros [= <-] Hst x Hx.
  assert (∀ r, (Repo.repo_id r =? GitHubRepo.id repo) = true
               ↔ Repo.repo_id r
                 = Repo.repo_id (Repo.mk (GitHubRepo.id repo)
                                   (GitHubRepo.full_name repo) (now_ms clk)))
    as Hkey by (intros r; apply Z.eqb_eq).
  unfold upsertSnapshot.
  cbn [github_repos github_repo_snapshots set_repos set_snapshots sent].
  destruct (decide (GitHubRepo.id x = GitHubRepo.id repo)) as [Heq|Hne].
  - split.
    + eexists. split; [apply upsert_has_row|]. by rewrite Heq.
    + eexists _, repo. split_and!; [apply upsert_has_row|by rewrite Heq|done| |
        by rewrite Heq|done].
      apply elem_of_app. right. by apply list_elem_of_singleton.
  - apply elem_of_app in Hx as [Hx|Hx%list_elem_of_singleton]; [|by subst].
    destruct (Hst x Hx) as [(r & Hr & Hid) (sn & repo' & Hsn & Hsid & Hday & Hin & Hid' & Hstars)].
    split.
    + exists r. split; [|done]. apply upsert_keeps_other; [done|].
      apply Z.eqb_neq. congruence.
    + exists sn, repo'. split_and!; try done.
      * apply upsert_keeps_other; [done|].
        apply andb_false_iff. left. apply Z.eqb_neq. congruence.
      * apply elem_of_app. by left.
Qed.

Lemma names_agree_repos env github s s' :
  github_repos s' = github_repos s →
  names_agree env github s → names_agree env github s'.
Proof. intros Heq [Hremote Hstore]. split; [done|]. by rewrite Heq. Qed.

(** Where names agree, a received repository is upserted without error,
    and names go on agreeing. *)
Lemma upsertRepo_names_agree env github clk repo s :
  receivable env github repo →
  names_agree env github s →
  (upsertRepo clk repo s).1 = None ∧
  names_agree env github (upsertRepo clk repo s).2.
Proof.
  intros Hrepo [Hremote Hstore]. unfold upsertRepo.
  rewrite full_name_clash_false.
  - split; [done|]. split; [done|]. intros r a Hr Ha Hname.
    cbn [snd github_repos set_repos sent] in Hr.
    apply upsert_elem in Hr as [->|Hr]; [|by apply Hstore].
    cbn [Repo.full_name Repo.repo_id] in *. by apply Hremote.
  - intros r Hr Hname. cbn [github_repos sent] in Hr. by apply Hstore.
Qed.

Lemma upsert_items_stored env github clk repos received p :
  (∀ repo, repo ∈ repos → receivable env github repo) →
  names_agree env github (db (progress_world p)) →
  stored_today clk received (db (progress_world p)) →
  (upsert_items clk repos p).1 = None ∧
  names_agree env github (db (progress_world (upsert_items clk repos p).2)) ∧
  stored_today clk (received ++ repos)
    (db (progress_world (upsert_items clk repos p).2)).
Proof.
  revert received p.
  induction repos as [|repo rest IH]; intros received p Hrepos Hnames Hst.
  { by rewrite app_nil_r. }
  cbn [upsert_items].
  destruct (upsertRepo_names_agree env github clk repo (db (progress_world p)))
    as [He Hnames1]; [apply Hrepos, elem_of_cons; by left|done|].
  destruct (upsertRepo clk repo (db (progress_world p))) as [e s1] eqn:Hupsert.
  cbn [fst snd] in He, Hnames1. subst e.
  rewrite (cons_middle repo), app_assoc. apply IH.
  - intros repo' Hin. apply Hrepos, elem_of_cons. by right.
  - cbn [progress_world db]. by apply (names_agree_repos _ _ s1).
  - cbn [progress_world db]. by apply (upsert_item_stored _ _ _ _ _ Hupsert).
Qed.

Lemma fetched_snoc env github log params :
  fetched env github (log ++ [params])
  = fetched env github log
    ++ match (searchRepositories env github params).1 with
       | Ok response => items response
       | Err _ => []
       end.
Proof. unfold fetched. by rewrite bind_app, bind_singleton. Qed.

Lemma process_pages_stored env github clk n0 task remaining page p :
  names_agree env github (db (progress_world p)) →
  stores_fetched env github clk n0 (progress_world p) →
  names_agree env github
    (db (progress_world (process_pages env github clk task remaining page p).2)) ∧
  stores_fetched env github clk n0
    (progress_world (process_pages env github clk task remaining page p).2).
Proof.
  revert page p.
  induction remaining as [|n IH]; intros page p Hnames [Hlen Hst]; [done|].
  cbn [process_pages].
  destruct (searchRepositories env github (task_params task page)).1
    as [response|message] eqn:Hsearch.
  - set (q := mkProgress _ _ _ _ _).
    destruct (upsert_items_world clk (items response) q) as (Hlog & _).
    destruct (upsert_items_stored env github clk (items response)
                (fetched env github (drop n0 (searches (progress_world p)))) q)
      as (He & Hnames' & Hst'); [|done|done|].
    { intros repo Hrepo. by exists (task_params task page), response. }
    assert (stores_fetched env github clk n0
              (progress_world (upsert_items clk (items response) q).2))
      as Hpage.
    { split.
      - rewrite Hlog. unfold q. cbn [progress_world searched searches].
        rewrite length_app. lia.
      - rewrite Hlog. unfold q at 1. cbn [progress_world searched searches].
        rewrite drop_app_le by done. by rewrite fetched_snoc, Hsearch. }
    destruct (upsert_items clk (items response) q) as [e fetched_page].
    cbn [fst snd] in *. subst e.
    repeat case_match; cbn [snd with_next progress_world]; [done|done|].
    by apply IH.
  - cbn [snd progress_world]. split; [done|]. split.
    + cbn [searched searches]. rewrite length_app. lia.
    + cbn [searched searches db]. rewrite drop_app_le by done.
      rewrite fetched_snoc, Hsearch, app_nil_r. done.
Qed.

Lemma discover_task_stored env github clk n0 acc task :
  names_agree env github (db acc.2) ∧ stores_fetched env github clk n0 acc.2 →
  names_agree env github (db (discover_task env github clk acc task).2) ∧
  stores_fetched env github clk n0 (discover_task env github clk acc task).2.
Proof.
  destruct acc as [totals w]. intros [Hnames Hw].
  unfold discover_task, processTask.
  pose proof (process_pages_stored env github clk n0 task
                (Z.to_nat (MAX_PAGES_PER_TASK env)) (default 0 (Task.page task))
                (mkProgress w 0 0 false None) Hnames Hw) as H.
  by destruct (process_pages _ _ _ _ _ _ _) as [[message|] p].
Qed.

(** X22. Where a full name stands for one repository id, among what the
    remote returns and in [github_repos], no upsert is refused, and
    whatever a discovery request received in its successful searches is
    stored when it returns: every received repository has a row in
    [github_repos] and a snapshot for today that carries the star count of
    a received item of that repository. *)
Theorem discover_GET_stores_what_it_fetches env github clk secret w :
  names_agree env github (db w) →
  let w' := (discover_GET env github clk secret w).2 in
  stored_today clk
    (fetched env github (drop (length (searches w)) (searches w'))) (db w').
Proof.
  intros Hnames w'. subst w'.
  assert (names_agree env github (db (discover_GET env github clk secret w).2) ∧
          stores_fetched env github clk (length (searches w))
            (discover_GET env github clk secret w).2) as [_ [_ H]]; [|done].
  assert (stores_fetched env github clk (length (searches w)) w) as Hw.
  { split; [done|]. rewrite drop_all. by intros repo ?%elem_of_nil. }
  unfold discover_GET. destruct (auth_fails env secret); [done|].
  set (w1 := match take 1 _ with [] => _ | _ => _ end).
  assert (names_agree env github (db w1) ∧
          stores_fetched env github clk (length (searches w)) w1) as Hw1.
  { unfold w1. destruct (take 1 _); [|done].
    destruct Hw as [Hlen Hst].
    unfold on_db. cbn [db searches].
    destruct (seedTasks_frame clk (getDefaultSeederConfig env)
                (sent SelectTasksLimit1 (db w))) as [Hr Hs].
    split; [by apply (names_agree_repos _ _ (db w))|].
    split; [done|].
    intros repo Hrepo. specialize (Hst repo Hrepo).
    cbn [db]. by rewrite Hr, Hs. }
  clearbody w1.
  destruct (claim_github_tasks _ _ _ _) as [[claimedTasks tasks']|e]; [|done].
  destruct claimedTasks as [|task rest]; [done|].
  destruct (requireGitHubToken env); [|done].
  set (start := (mkTotals 0 0 0 [], _)).
  assert (names_agree env github
            (db (foldl (discover_task env github clk) start (task :: rest)).2) ∧
          stores_fetched env github clk (length (searches w))
            (foldl (discover_task env github clk) start (task :: rest)).2)
    as Hfold.
  { apply (foldl_invariant
             (λ acc, names_agree env github (db acc.2) ∧
                     stores_fetched env github clk (length (searches w)) acc.2)).
    - done.
    - intros acc t _ Hacc. by apply discover_task_stored. }
  by destruct (foldl _ _ _).
Qed.

(** What a search of a sample partition can receive. *)
Lemma receivable_partition env k repo :
  receivable env (partition_of k) repo → ∃ i, repo = nth_repo i.
Proof.
  intros (params & response & Hsearch & Hrepo).
  assert (∃ ids, items response = nth_repo <$> ids) as [ids Hids].
  { unfold searchRepositories, partition_of in Hsearch.
    cbn in Hsearch. injection Hsearch as <-. cbn [items].
    apply page_items_partition. }
  rewrite Hids in Hrepo. apply list_elem_of_fmap in Hrepo as (i & -> & _).
  by exists i.
Qed.

(** A store without repositories agrees on names with every sample
    partition. *)
Lemma names_agree_partition env k s :
  github_repos s = [] → names_agree env (partition_of k) s.
Proof.
  intros Hempty. split.
  - intros a b [i ->]%receivable_partition [j ->]%receivable_partition Hname.
    by rewrite (nth_repo_name_inj i j Hname).
  - intros r a Hr. rewrite Hempty in Hr. by apply elem_of_nil in Hr.
Qed.

Lemma discover_GET_stores_what_it_fetches_witness :
  let w' := (discover_GET sample_env (partition_of 350) nov_2 (Some "s3cret")
               (world_with sample_tasks)).2 in
  stored_today nov_2
    (fetched sample_env (partition_of 350)
       (drop (length (searches (world_with sample_tasks))) (searches w')))
    (db w').
Proof.
  apply (discover_GET_stores_what_it_fetches sample_env (partition_of 350)
           nov_2 (Some "s3cret") (world_with sample_tasks)).
  by apply names_agree_partition.
Defined.

(** A run on the sample queue against a partition of 350 repositories:
    five pages are searched, and the 450 items received (pages 3 and 4 for
    task 1, pages 1 to 3 for task 2) leave one row and one snapshot for
    each of the 350 repositories. *)
Example discover_GET_stores_sample_run :
  let w' := (discover_GET sample_env (partition_of 350) nov_2 (Some "s3cret")
               (world_with sample_tasks)).2 in
  page <$> searches w' = [Some 3; Some 4; Some 1; Some 2; Some 3] ∧
  length (fetched sample_env (partition_of 350) (searches w')) = 450%nat ∧
  length (github_repo_snapshots (db w')) = 350%nat ∧
  length (github_repos (db w')) = 350%nat.
Proof. vm_compute. done. Qed.

(** ** Runs whose searches fail or whose page budget is empty *)

Lemma processTask_search_fails env github clk task w failure :
  0 < MAX_PAGES_PER_TASK env →
  (∀ params, (searchRepositories env github params).1 = Err (failure params)) →
  processTask env github clk task w
  = (Some (failure (task_params task (default 0 (Task.page task)))),
     mkProgress (searched (task_params task (default 0 (Task.page task))) w)
       0 0 false None).
Proof.
  intros Hbudget Hfail. unfold processTask.
  destruct (Z.to_nat (MAX_PAGES_PER_TASK env)) as [|n] eqn:Hn; [lia|].
  cbn [process_pages]. by rewrite Hfail.
Qed.

(** The table after the tasks of a run were handled, when each handled task
    leaves its row in a state [Q]. *)
Lemma discover_tasks_table env github clk (Q : Task.t → Prop) claimed acc :
  (∀ task acc t, task ∈ claimed →
     t ∈ github_search_tasks (db (discover_task env github clk acc task).2) →
     (Task.id t = Task.id task ∧ Q t) ∨
     (Task.id t ≠ Task.id task ∧ t ∈ github_search_tasks (db acc.2))) →
  ∀ t, t ∈ github_search_tasks
             (db (foldl (discover_task env github clk) acc claimed).2) →
    (Task.id t ∈ Task.id <$> claimed ∧ Q t) ∨
    ((Task.id t ∉ Task.id <$> claimed) ∧ t ∈ github_search_tasks (db acc.2)).
Proof.
  revert acc. induction claimed as [|task rest IH]; intros acc Hstep t Ht.
  { right. split; [apply not_elem_of_nil|done]. }
  cbn [foldl] in Ht. cbn [fmap list_fmap].
  apply IH in Ht.
  2:{ intros task' acc' t' Htask'. apply Hstep. apply elem_of_cons. by right. }
  destruct Ht as [[Hid HQ]|[Hid Ht]].
  - left. split; [apply elem_of_cons; by right|done].
  - apply Hstep in Ht; [|apply elem_of_cons; by left].
    destruct Ht as [[Heq HQ]|[Hne Ht]].
    + left. split; [apply elem_of_cons; by left|done].
    + right. split; [|done]. by apply not_elem_of_cons.
Qed.

Lemma updateTaskStatus_rows clk taskId status nextPage error s t :
  t ∈ github_search_tasks (updateTaskStatus clk taskId status nextPage error s) →
  (Task.id t = taskId ∧
   ∃ t0, t0 ∈ github_search_tasks s ∧
         t = updated_task clk status nextPage error t0) ∨
  (Task.id t ≠ taskId ∧ t ∈ github_search_tasks s).
Proof.
  unfold updateTaskStatus. cbn [github_search_tasks set_tasks sent].
  intros (t0 & -> & Ht0)%list_elem_of_fmap.
  destruct (Z.eqb_spec (Task.id t0) taskId) as [Heq|Hne].
  - left. split; [done|by exists t0].
  - right. done.
Qed.

(** X23. When every search fails, an authorised run that claimed tasks still
    answers 200, with no task processed and one error per claimed task;
    no repository or snapshot is written, and every claimed task is left
    ['in_progress'] with [last_completed_at] null, a state that no later
    claim picks up. *)
Theorem discover_GET_when_every_search_fails env github clk secret w failure
    rows tasks' :
  auth_fails env secret = false →
  js_not_str (GITHUB_TOKEN env) = false →
  0 < MAX_PAGES_PER_TASK env →
  (∀ params, (searchRepositories env github params).1 = Err (failure params)) →
  github_search_tasks (db w) ≠ [] →
  claim_github_tasks (now_ms clk) ∅ (Some (MAX_TASKS_PER_RUN env))
    (github_search_tasks (db w)) = Ok (rows, tasks') →
  rows ≠ [] →
  let result := discover_GET env github clk secret w in
  http_status result.1 = 200 ∧
  counters result.1
  = [("tasksProcessed", 0); ("reposUpserted", 0); ("snapshotsUpserted", 0);
     ("errors", Z.of_nat (length rows))] ∧
  github_repos (db result.2) = github_repos (db w) ∧
  github_repo_snapshots (db result.2) = github_repo_snapshots (db w) ∧
  ∀ t, t ∈ github_search_tasks (db result.2) →
    Task.id t ∈ Task.id <$> rows →
    Task.status t = in_progress ∧ Task.last_completed_at t = None ∧
    ∀ now, eligible now t = false.
Proof.
  intros Hauth Htoken Hbudget Hfail Hsome Hclaim Hrows result. subst result.
  unfold discover_GET. rewrite Hauth.
  destruct w as [s found]. destruct s as [rs sn ts q tr ru rpc rq].
  cbn [db github_search_tasks searches github_repos github_repo_snapshots] in *.
  destruct ts as [|t0 ts]; [done|].
  cbv beta iota zeta delta [on_db sent db github_search_tasks take].
  rewrite Hclaim. destruct rows as [|row rows']; [done|].
  set (rows := row :: rows') in *.
  assert (∃ token, requireGitHubToken env = Ok token) as [token ->].
  { unfold requireGitHubToken. destruct (GITHUB_TOKEN env); [|done].
    rewrite Htoken. by eexists. }
  set (start := (mkTotals 0 0 0 [], _)).
  set (P := λ acc : discovery_totals * world,
         tasksProcessed acc.1 = 0 ∧ totalReposUpserted acc.1 = 0 ∧
         totalSnapshotsUpserted acc.1 = 0 ∧
         github_repos (db acc.2) = rs ∧ github_repo_snapshots (db acc.2) = sn).
  assert (∀ acc task,
            discover_task env github clk acc task
            = (mkTotals (tasksProcessed acc.1) (totalReposUpserted acc.1)
                 (totalSnapshotsUpserted acc.1)
                 (errors acc.1 ++
                    ["Task " +:+ pretty (Task.id task) +:+ " failed: " +:+
                     failure (task_params task (default 0 (Task.page task)))]),
               on_db (updateTaskStatus clk (Task.id task) in_progress
                        (Task.page task)
                        (Some (failure
                           (task_params task (default 0 (Task.page task))))))
                 (searched (task_params task (default 0 (Task.page task)))
                    acc.2))) as Hstep.
  { intros [totals w] task. unfold discover_task.
    by rewrite (processTask_search_fails env github clk task w failure). }
  assert (P (foldl (discover_task env github clk) start rows)) as HP.
  { apply foldl_invariant; [done|].
    intros acc task _ (? & ? & ? & ? & ?). rewrite Hstep. done. }
  assert (length (errors (foldl (discover_task env github clk) start rows).1)
          = length rows) as Herrors.
  { assert (∀ claimed acc,
              length (errors (foldl (discover_task env github clk) acc claimed).1)
              = (length (errors acc.1) + length claimed)%nat) as Hlen.
    { induction claimed as [|task rest IH]; intros acc; cbn [foldl length];
        [lia|].
      rewrite IH, Hstep. cbn [fst errors]. rewrite length_app. simpl. lia. }
    by rewrite Hlen. }
  pose proof (discover_tasks_table env github clk
                (λ t, Task.status t = in_progress ∧
                      Task.last_completed_at t = None) rows start) as Htable.
  specialize (Htable ltac:(
    intros task acc t' _; rewrite Hstep; cbn [snd]; unfold on_db; cbn [db];
    intros [[Heq (t1 & _ & ->)]|[Hne Hin]]%updateTaskStatus_rows;
    [by left|by right])).
  destruct (foldl (discover_task env github clk) start rows) as [totals w'].
  destruct HP as (Hp & Hr & Hs & Hrepos & Hsnaps). cbn [fst snd] in *.
  cbn [http_status counters]. rewrite Hp, Hr, Hs, Herrors.
  split_and!; [done|done|done|done|].
  intros t Ht Hid. change (t ∈ github_search_tasks (db w')) in Ht.
  destruct (Htable t Ht) as [[_ [Hst Hdone]]|[Hnot _]]; [|done].
  split_and!; [done|done|]. intros now.
  by apply in_progress_not_eligible.
Qed.

Lemma discover_GET_when_every_search_fails_witness :
  let rows := returning_claimed (now_ms nov_2) [1; 2] sample_tasks in
  let w := world_with sample_tasks in
  let result := discover_GET sample_env unreachable nov_2 (Some "s3cret") w in
  http_status result.1 = 200 ∧
  counters result.1
  = [("tasksProcessed", 0); ("reposUpserted", 0); ("snapshotsUpserted", 0);
     ("errors", Z.of_nat (length rows))] ∧
  github_repos (db result.2) = github_repos (db w) ∧
  github_repo_snapshots (db result.2) = github_repo_snapshots (db w) ∧
  ∀ t, t ∈ github_search_tasks (db result.2) →
    Task.id t ∈ Task.id <$> rows →
    Task.status t = in_progress ∧ Task.last_completed_at t = None ∧
    ∀ now, eligible now t = false.
Proof.
  apply (discover_GET_when_every_search_fails sample_env unreachable nov_2
           (Some "s3cret") (world_with sample_tasks)
           (λ _, "connect ECONNREFUSED") _
           (update_claimed (now_ms nov_2) [1; 2] sample_tasks)).
  - reflexivity.
  - reflexivity.
  - vm_compute. reflexivity.
  - intros params. reflexivity.
  - discriminate.
  - reflexivity.
  - discriminate.
Defined.

(** X24. With a page budget of zero or less, an authorised run marks every
    task it claimed ['done'], at page 1 and completed now, and counts it
    as processed, without sending a single search. *)
Theorem discover_GET_without_page_budget env github clk secret w rows tasks' :
  auth_fails env secret = false →
  js_not_str (GITHUB_TOKEN env) = false →
  MAX_PAGES_PER_TASK env <= 0 →
  github_search_tasks (db w) ≠ [] →
  claim_github_tasks (now_ms clk) ∅ (Some (MAX_TASKS_PER_RUN env))
    (github_search_tasks (db w)) = Ok (rows, tasks') →
  rows ≠ [] →
  let result := discover_GET env github clk secret w in
  http_status result.1 = 200 ∧
  counters result.1
  = [("tasksProcessed", Z.of_nat (length rows)); ("reposUpserted", 0);
     ("snapshotsUpserted", 0); ("errors", 0)] ∧
  searches result.2 = searches w ∧
  ∀ t, t ∈ github_search_tasks (db result.2) →
    Task.id t ∈ Task.id <$> rows →
    Task.status t = done ∧ Task.page t = Some 1 ∧
    Task.last_completed_at t = Some (now_ms clk).
Proof.
  intros Hauth Htoken Hbudget Hsome Hclaim Hrows result. subst result.
  unfold discover_GET. rewrite Hauth.
  destruct w as [s found]. destruct s as [rs sn ts q tr ru rpc rq].
  cbn [db github_search_tasks searches] in *.
  destruct ts as [|t0 ts]; [done|].
  cbv beta iota zeta delta [on_db sent db github_search_tasks take].
  rewrite Hclaim. destruct rows as [|row rows']; [done|].
  set (rows := row :: rows') in *.
  assert (∃ token, requireGitHubToken env = Ok token) as [token ->].
  { unfold requireGitHubToken. destruct (GITHUB_TOKEN env); [|done].
    rewrite Htoken. by eexists. }
  set (start := (mkTotals 0 0 0 [], _)).
  assert (∀ acc task,
            discover_task env github clk acc task
            = (mkTotals (tasksProcessed acc.1 + 1) (totalReposUpserted acc.1 + 0)
                 (totalSnapshotsUpserted acc.1 + 0) (errors acc.1),
               on_db (updateTaskStatus clk (Task.id task) done None None) acc.2))
    as Hstep.
  { intros [totals w] task. unfold discover_task, processTask.
    by replace (Z.to_nat (MAX_PAGES_PER_TASK env)) with 0%nat by lia. }
  assert (∀ claimed acc,
            let final := foldl (discover_task env github clk) acc claimed in
            tasksProcessed final.1
            = tasksProcessed acc.1 + Z.of_nat (length claimed) ∧
            totalReposUpserted final.1 = totalReposUpserted acc.1 ∧
            totalSnapshotsUpserted final.1 = totalSnapshotsUpserted acc.1 ∧
            errors final.1 = errors acc.1 ∧
            searches final.2 = searches acc.2) as Hfold.
  { induction claimed as [|task rest IH]; intros acc; cbn [foldl length];
      [split_and!; (done || lia)|].
    destruct (IH (discover_task env github clk acc task))
      as (-> & -> & -> & -> & ->).
    rewrite Hstep. cbn [fst snd tasksProcessed totalReposUpserted
      totalSnapshotsUpserted errors]. unfold on_db. cbn [searches].
    split_and!; (done || lia). }
  destruct (Hfold rows start) as (Hp & Hr & Hs & He & Hlog).
  pose proof (discover_tasks_table env github clk
                (λ t, Task.status t = done ∧ Task.page t = Some 1 ∧
                      Task.last_completed_at t = Some (now_ms clk))
                rows start) as Htable.
  specialize (Htable ltac:(
    intros task acc t' _; rewrite Hstep; cbn [snd]; unfold on_db; cbn [db];
    intros [[Heq (t1 & _ & ->)]|[Hne Hin]]%updateTaskStatus_rows;
    [by left|by right])).
  destruct (foldl (discover_task env github clk) start rows) as [totals w'].
  cbn [fst snd] in *. cbn [http_status counters].
  rewrite Hp, Hr, Hs, He.
  split_and!; [done|done|done|].
  intros t Ht Hid. change (t ∈ github_search_tasks (db w')) in Ht.
  by destruct (Htable t Ht) as [[_ ?]|[Hnot _]].
Qed.

Lemma discover_GET_without_page_budget_witness :
  let rows := returning_claimed (now_ms nov_2) [1; 2] sample_tasks in
  let w := world_with sample_tasks in
  let result :=
    discover_GET env_without_page_budget (partition_of 350) nov_2
      (Some "s3cret") w in
  http_status result.1 = 200 ∧
  counters result.1
  = [("tasksProcessed", Z.of_nat (length rows)); ("reposUpserted", 0);
     ("snapshotsUpserted", 0); ("errors", 0)] ∧
  searches result.2 = searches w ∧
  ∀ t, t ∈ github_search_tasks (db result.2) →
    Task.id t ∈ Task.id <$> rows →
    Task.status t = done ∧ Task.page t = Some 1 ∧
    Task.last_completed_at t = Some (now_ms nov_2).
Proof.
  apply (discover_GET_without_page_budget env_without_page_budget
           (partition_of 350) nov_2 (Some "s3cret") (world_with sample_tasks) _
           (update_claimed (now_ms nov_2) [1; 2] sample_tasks)).
  - reflexivity.
  - reflexivity.
  - vm_compute. discriminate.
  - discriminate.
  - reflexivity.
  - discriminate.
Defined.

(** ** The score *)

Lemma ln_nondecreasing (x y : R) : (0 < x)%R → (x <= y)%R → (ln x <= ln y)%R.
Proof.
  intros Hx [Hlt| ->]; [|lra]. left. by apply ln_increasing.
Qed.

(** X25. The score is monotone: more absolute growth and more relative growth
    never lower it. *)
Theorem computeScore_monotone (a1 p1 a2 p2 : R) :
  (a1 <= a2)%R → (p1 <= p2)%R →
  (computeScore a1 p1 <= computeScore a2 p2)%R.
Proof.
  intros Ha Hp. destruct (Rle_dec a1 0) as [Hle|Hpos].
  { rewrite (computeScore_nonpositive_growth a1) by done.
    apply computeScore_nonneg. }
  rewrite !computeScore_positive_growth by lra.
  pose proof (Rmax_r p1 0). pose proof (Rle_max_compat_r p1 p2 0 Hp).
  assert (0 <= ln (1 + Rmax p1 0))%R.
  { rewrite <- ln_1 at 1. apply ln_nondecreasing; lra. }
  assert (ln (1 + Rmax p1 0) <= ln (1 + Rmax p2 0))%R
    by (apply ln_nondecreasing; lra).
  apply Rmult_le_compat; lra.
Qed.

Lemma computeScore_monotone_witness :
  (computeScore 3 (1 / 2) <= computeScore 5 2)%R.
Proof. apply (computeScore_monotone 3 (1 / 2) 5 2); lra. Defined.

(** X26. The score of the growth branch is 0 when the star count did not grow
    and positive when it did, whatever the previous count, zero included. *)
Theorem growth_of_score_sign (starsNow starsPrev : Z) :
  (starsNow <= starsPrev → (growth_of starsNow starsPrev).2 = 0%R) ∧
  (starsPrev < starsNow → (0 < (growth_of starsNow starsPrev).2)%R).
Proof.
  rewrite growth_of_fields. cbn [snd]. split; intros Hcmp.
  - apply computeScore_nonpositive_growth.
    apply (IZR_le _ 0). lia.
  - assert (0 < IZR (starsNow - starsPrev))%R as Habs
      by (apply (IZR_lt 0); lia).
    assert (0 < IZR (Z.max starsPrev 1))%R as Hden
      by (apply (IZR_lt 0); lia).
    assert (0 < IZR (starsNow - starsPrev) / IZR (Z.max starsPrev 1))%R as Hpct
      by (by apply Rdiv_lt_0_compat).
    rewrite computeScore_positive_growth by done.
    rewrite Rmax_left by lra.
    apply Rmult_lt_0_compat; [done|].
    rewrite <- ln_1 at 1. apply ln_increasing; lra.
Qed.

(** ** The batch pairing

    The properties of this section are about the query of
    [compute_repo_trends_14d]: its two CTEs and their join, read as SQL.
    The function around the query never returns these rows: PL/pgSQL
    refuses the unqualified [repo_id] of the first CTE
    ([call_compute_repo_trends_14d_raises]). *)

Lemma foldl_newer_max rows acc b :
  foldl newer acc rows = Some b →
  (∀ r, r ∈ rows → Snapshot.captured_at r <= Snapshot.captured_at b) ∧
  (∀ a, acc = Some a → Snapshot.captured_at a <= Snapshot.captured_at b).
Proof.
  revert acc. induction rows as [|x rows IH]; intros acc Hb.
  { simpl in Hb. split; [by intros r ?%elem_of_nil|].
    intros a Ha. rewrite Ha in Hb. injection Hb as ->. lia. }
  cbn [foldl] in Hb. destruct (IH _ Hb) as [Hrows Hacc]. split.
  - intros r [->|Hr]%elem_of_cons; [|by apply Hrows].
    unfold newer in Hacc. destruct acc as [a|].
    + destruct (Z.ltb_spec (Snapshot.captured_at a) (Snapshot.captured_at x)).
      * by apply Hacc.
      * specialize (Hacc a eq_refl). lia.
    + by apply Hacc.
  - intros a ->. unfold newer in Hacc.
    destruct (Z.ltb_spec (Snapshot.captured_at a) (Snapshot.captured_at x)).
    + specialize (Hacc x eq_refl). lia.
    + by apply Hacc.
Qed.

Lemma foldl_newer_Some rows a : is_Some (foldl newer (Some a) rows).
Proof.
  revert a. induction rows as [|x rows IH]; intros a; [by eexists|].
  cbn [foldl newer]. destruct (_ <? _); apply IH.
Qed.

Lemma most_recent_None rows : most_recent rows = None → rows = [].
Proof.
  destruct rows as [|x rows]; [done|]. unfold most_recent. cbn [foldl newer].
  intros Hnone. destruct (foldl_newer_Some rows x) as [b Hb]. congruence.
Qed.

Lemma most_recent_max rows b r :
  most_recent rows = Some b → r ∈ rows →
  Snapshot.captured_at r <= Snapshot.captured_at b.
Proof. intros Hb Hr. by apply (proj1 (foldl_newer_max rows None b Hb)). Qed.

(** X27. Every row of the query of the batch RPC pairs a repository's most
    recent snapshot with its most recent snapshot that is at least 14 days
    older; the previous fields are null exactly when the repository has no
    snapshot that old. *)
Theorem compute_repo_trends_14d_pairs snapshots trend :
  trend ∈ compute_repo_trends_14d snapshots →
  ∃ ls,
    ls ∈ snapshots ∧
    Snapshot.repo_id ls = TrendPair.repo_id trend ∧
    TrendPair.stars_now trend = Snapshot.stars_count ls ∧
    (∀ s, s ∈ snapshots → Snapshot.repo_id s = TrendPair.repo_id trend →
          Snapshot.captured_at s <= Snapshot.captured_at ls) ∧
    ((TrendPair.stars_prev trend = None ∧
      TrendPair.prev_captured_at trend = None ∧
      ∀ s, s ∈ snapshots → Snapshot.repo_id s = TrendPair.repo_id trend →
           Snapshot.captured_at ls - 14 * ms_per_day < Snapshot.captured_at s)
     ∨ ∃ ps,
         ps ∈ snapshots ∧
         Snapshot.repo_id ps = TrendPair.repo_id trend ∧
         Snapshot.captured_at ps <= Snapshot.captured_at ls - 14 * ms_per_day ∧
         TrendPair.stars_prev trend = Some (Snapshot.stars_count ps) ∧
         TrendPair.prev_captured_at trend = Some (Snapshot.captured_at ps) ∧
         ∀ s, s ∈ snapshots → Snapshot.repo_id s = TrendPair.repo_id trend →
              Snapshot.captured_at s <= Snapshot.captured_at ls - 14 * ms_per_day →
              Snapshot.captured_at s <= Snapshot.captured_at ps).
Proof.
  unfold compute_repo_trends_14d.
  intros (repo_id & _ & Hrow)%list_elem_of_omap.
  destruct (latest_snapshot repo_id snapshots) as [ls|] eqn:Hls; [|done].
  injection Hrow as <-. cbn [paired TrendPair.repo_id TrendPair.stars_now
    TrendPair.stars_prev TrendPair.prev_captured_at].
  unfold latest_snapshot in Hls.
  pose proof (most_recent_elem _ _ Hls) as Hin.
  apply list_elem_of_filter in Hin. destruct Hin as [Hid Hin].
  exists ls. split_and!; [done|done|done| |].
  - intros s Hs Hsid. apply (most_recent_max _ _ _ Hls).
    by apply list_elem_of_filter.
  - destruct (prev_snapshot repo_id ls snapshots) as [ps|] eqn:Hps;
      unfold prev_snapshot in Hps.
    + right. exists ps.
      pose proof (most_recent_elem _ _ Hps) as Hpin.
      apply list_elem_of_filter in Hpin. destruct Hpin as [[Hpid Hold] Hpin].
      split_and!; [done|done|done|done|done|].
      intros s Hs Hsid Hsold. apply (most_recent_max _ _ _ Hps).
      by apply list_elem_of_filter.
    + left. split_and!; [done|done|].
      intros s Hs Hsid. apply most_recent_None in Hps.
      destruct (Z.lt_ge_cases (Snapshot.captured_at ls - 14 * ms_per_day)
                  (Snapshot.captured_at s)) as [?|Hold]; [done|].
      assert (s ∈ filter (λ s, Snapshot.repo_id s = repo_id
                                ∧ Snapshot.captured_at s
                                  ≤ Snapshot.captured_at ls - 14 * ms_per_day)
                snapshots) as Hin'
        by (by apply list_elem_of_filter).
      rewrite Hps in Hin'. by apply elem_of_nil in Hin'.
Qed.

Lemma compute_repo_trends_14d_pairs_witness :
  let trend :=
    paired 7 (sample_snapshot 7 (now_ms nov_2) 5)
      (Some (sample_snapshot 7 (now_ms nov_2 - 20 * ms_per_day) 0)) in
  ∃ ls,
    ls ∈ from_zero_stars ∧
    Snapshot.repo_id ls = TrendPair.repo_id trend ∧
    TrendPair.stars_now trend = Snapshot.stars_count ls ∧
    (∀ s, s ∈ from_zero_stars → Snapshot.repo_id s = TrendPair.repo_id trend →
          Snapshot.captured_at s <= Snapshot.captured_at ls) ∧
    ((TrendPair.stars_prev trend = None ∧
      TrendPair.prev_captured_at trend = None ∧
      ∀ s, s ∈ from_zero_stars → Snapshot.repo_id s = TrendPair.repo_id trend →
           Snapshot.captured_at ls - 14 * ms_per_day < Snapshot.captured_at s)
     ∨ ∃ ps,
         ps ∈ from_zero_stars ∧
         Snapshot.repo_id ps = TrendPair.repo_id trend ∧
         Snapshot.captured_at ps <= Snapshot.captured_at ls - 14 * ms_per_day ∧
         TrendPair.stars_prev trend = Some (Snapshot.stars_count ps) ∧
         TrendPair.prev_captured_at trend = Some (Snapshot.captured_at ps) ∧
         ∀ s, s ∈ from_zero_stars → Snapshot.repo_id s = TrendPair.repo_id trend →
              Snapshot.captured_at s <= Snapshot.captured_at ls - 14 * ms_per_day →
              Snapshot.captured_at s <= Snapshot.captured_at ps).
Proof.
  apply (compute_repo_trends_14d_pairs from_zero_stars).
  apply list_elem_of_singleton. reflexivity.
Defined.

(** ** The rows a scoring pass writes *)

(** X29. A scoring pass that completes has gone through every repository:
    the Trend table holds the row just computed for every repository of
    [github_repos] that has a snapshot (unique repository ids), and the
    row of a repository that has no snapshot, or is not in [github_repos],
    is kept as it was. *)
Theorem score_GET_scores_every_repository env clk secret w :
  http_status (score_GET env clk secret w).1 = 200 →
  NoDup (Repo.repo_id <$> github_repos (db w)) →
  let trends := github_repo_trends (db (score_GET env clk secret w).2) in
  (∀ repo ls, repo ∈ github_repos (db w) →
     latest_snapshot (Repo.repo_id repo) (github_repo_snapshots (db w))
     = Some ls →
     fallback_trend clk (Repo.repo_id repo) ls
       (select_previous (Repo.repo_id repo) (fourteenDaysAgo ls)
          (github_repo_snapshots (db w))) ∈ trends) ∧
  (∀ x, x ∈ github_repo_trends (db w) →
     latest_snapshot (Trend.repo_id x) (github_repo_snapshots (db w)) = None
     ∨ Trend.repo_id x ∉ Repo.repo_id <$> github_repos (db w) →
     x ∈ trends).
Proof.
  intros Hok Hnd trends. subst trends.
  rewrite score_GET_completed by done. cbv zeta. cbn [db].
  destruct (score_repos_rows clk (db w) (github_repos (db w))
              (mkScoring 0 0 0,
               sent SelectRepos (sent RpcComputeTrends (db w))))
    as [Hrows Hold]; [done|done|].
  split; [exact Hrows|].
  intros x Hx [Hnone|Hout]; apply Hold; done.
Qed.

Lemma score_GET_scores_every_repository_witness :
  let w := from_three_world RpcMissing in
  let trends :=
    github_repo_trends (db (score_GET sample_env nov_2 (Some "s3cret") w).2) in
  (∀ repo ls, repo ∈ github_repos (db w) →
     latest_snapshot (Repo.repo_id repo) (github_repo_snapshots (db w))
     = Some ls →
     fallback_trend nov_2 (Repo.repo_id repo) ls
       (select_previous (Repo.repo_id repo) (fourteenDaysAgo ls)
          (github_repo_snapshots (db w))) ∈ trends) ∧
  (∀ x, x ∈ github_repo_trends (db w) →
     latest_snapshot (Trend.repo_id x) (github_repo_snapshots (db w)) = None
     ∨ Trend.repo_id x ∉ Repo.repo_id <$> github_repos (db w) →
     x ∈ trends).
Proof.
  apply (score_GET_scores_every_repository sample_env nov_2 (Some "s3cret")
           (from_three_world RpcMissing)).
  - reflexivity.
  - apply NoDup_singleton.
Defined.
